(** * RewriteQR: the createTime mutator and the QR analyzer

    A shallow embedding of the two tools of the repository:

    - [modifyCreateTime] (base_script.js and its twin script), the regular
      expression based rewrite of the [createTime] field of a decoded QR
      text, together with the two callers that compare its result with the
      original text;
    - the [QRAnalyzer] class: [parseQRContent], [parseTimeString],
      [createComparisonResults] and [analyzeTimeDifferences].

    JavaScript strings are sequences of UTF-16 code units; a text is a list
    of code units, each an integer.  Image decoding, QR rendering and the
    DOM are outside the model: where the source builds HTML, the model
    returns the data that the HTML displays. *)

From Stdlib Require Import ZArith List Lia String Ascii Permutation Sorted SpecFloat.
From stdpp Require Import base option list gmap.

Open Scope Z_scope.

(** ** Texts *)

Abbreviation text := (list Z).

Definition lit (s : string) : text :=
  map (fun a => Z.of_N (N_of_ascii a)) (list_ascii_of_string s).

(** [a === b] on two strings. *)
Definition str_eqb (a b : text) : bool := bool_decide (a = b).

(** ** Numbers

    The only numbers the mutator computes with are the results of
    [parseInt]: an integer, or NaN. *)

Inductive number := NaN | Num (n : Z).

Definition Number_add (a : number) (b : Z) : number :=
  match a with NaN => NaN | Num n => Num (n + b) end.

(** [a % b]: the remainder has the sign of the dividend. *)
Definition Number_rem (a : number) (b : Z) : number :=
  match a with NaN => NaN | Num n => Num (Z.rem n b) end.

(** WhiteSpace and LineTerminator code units, as [parseInt] and [trim]
    strip them. *)
Definition is_whitespace (c : Z) : bool :=
  ((9 <=? c) && (c <=? 13)) || (c =? 32) || (c =? 160) || (c =? 5760)
  || ((8192 <=? c) && (c <=? 8202)) || (c =? 8232) || (c =? 8233)
  || (c =? 8239) || (c =? 8287) || (c =? 12288) || (c =? 65279).

Definition is_digit (c : Z) : bool := (48 <=? c) && (c <=? 57).

Fixpoint trimStart (s : text) : text :=
  match s with
  | c :: s' => if is_whitespace c then trimStart s' else s
  | [] => []
  end.

(** The decimal digits at the front of [s], read left to right into [acc];
    the result is [None] when [s] starts with no digit. *)
Fixpoint read_digits (acc : option Z) (s : text) : option Z :=
  match s with
  | c :: s' =>
      if is_digit c
      then read_digits (Some (10 * default 0 acc + (c - 48))) s'
      else acc
  | [] => acc
  end.

(** [parseInt(s, 10)]. *)
Definition parseInt (s : text) : number :=
  let s := trimStart s in
  let '(sign, s) :=
    match s with
    | 45 :: s' => (-1, s')
    | 43 :: s' => (1, s')
    | _ => (1, s)
    end in
  match read_digits None s with
  | Some n => Num (sign * n)
  | None => NaN
  end.

(** Decimal digits of a non-negative integer, most significant first. *)
Fixpoint dec_digits (fuel : nat) (n : Z) (acc : text) : text :=
  match fuel with
  | O => acc
  | S fuel' =>
      let acc' := (48 + n mod 10) :: acc in
      if n <? 10 then acc' else dec_digits fuel' (n / 10) acc'
  end.

(** [n.toString()] for the integral numbers of the model. *)
Definition Number_toString (n : number) : text :=
  match n with
  | NaN => lit "NaN"
  | Num n =>
      if n <? 0
      then 45 :: dec_digits (S (Z.to_nat (Z.log2 (- n)))) (- n) []
      else dec_digits (S (Z.to_nat (Z.log2 n))) n []
  end.

Fixpoint repeat_fill (fill cur : text) (n : nat) : text :=
  match n with
  | O => []
  | S n' =>
      match cur with
      | c :: cur' => c :: repeat_fill fill cur' n'
      | [] =>
          match fill with
          | c :: cur' => c :: repeat_fill fill cur' n'
          | [] => []
          end
      end
  end.

(** [s.padStart(target, fill)]. *)
Definition padStart (s : text) (target : nat) (fill : text) : text :=
  if (target <=? length s)%nat then s
  else repeat_fill fill fill (target - length s) ++ s.

(** ** The regular expression

    The expression of [modifyCreateTime] is a sequence of pieces, each a
    fixed run of one-character atoms: a literal, [[0-9]] or [[ T]].  Four
    of the pieces are capture groups.  It has no flag, so it is searched
    from the left and matched once. *)

Inductive atom := Lit (c : Z) | Digit | SpaceOrT.

Definition atom_test (a : atom) (c : Z) : bool :=
  match a with
  | Lit d => c =? d
  | Digit => is_digit c
  | SpaceOrT => (c =? 32) || (c =? 84)
  end.

Inductive piece := Plain (p : list atom) | Group (p : list atom).

Definition piece_atoms (p : piece) : list atom :=
  match p with Plain l => l | Group l => l end.

(** Matches the atoms at the front of [s]: the matched run and the rest. *)
Fixpoint match_atoms (p : list atom) (s : text) : option (text * text) :=
  match p with
  | [] => Some ([], s)
  | a :: p' =>
      match s with
      | c :: s' =>
          if atom_test a c
          then match match_atoms p' s' with
               | Some (m, r) => Some (c :: m, r)
               | None => None
               end
          else None
      | [] => None
      end
  end.

(** Matches the pieces at the front of [s]: the whole match, the captures
    of the groups in order, and the rest. *)
Fixpoint match_pieces (re : list piece) (s : text)
  : option (text * list text * text) :=
  match re with
  | [] => Some ([], [], s)
  | p :: re' =>
      match match_atoms (piece_atoms p) s with
      | Some (m, r) =>
          match match_pieces re' r with
          | Some (m', caps, r') =>
              Some (m ++ m',
                    match p with Plain _ => caps | Group _ => m :: caps end,
                    r')
          | None => None
          end
      | None => None
      end
  end.

Record MatchResult := {
  before : text;          (* the text left of the match *)
  matched : text;         (* the matched substring *)
  captures : list text;   (* the captures of the groups 1, 2, ... *)
  after : text            (* the text right of the match *)
}.

(** The leftmost match of [re] in [s]. *)
Fixpoint regex_exec (re : list piece) (s : text) : option MatchResult :=
  match match_pieces re s with
  | Some (m, caps, r) =>
      Some {| before := []; matched := m; captures := caps; after := r |}
  | None =>
      match s with
      | c :: s' =>
          match regex_exec re s' with
          | Some r =>
              Some {| before := c :: before r; matched := matched r;
                      captures := captures r; after := after r |}
          | None => None
          end
      | [] => None
      end
  end.

(** [s.match(re)] for an expression without the g flag: [null], or the array
    of the match followed by the captures. *)
Definition String_match (re : list piece) (s : text) : option (list text) :=
  match regex_exec re s with
  | Some r => Some (matched r :: captures r)
  | None => None
  end.

(** GetSubstitution: the expansion of the [$] patterns of a replacement
    template ([$$], [$&], [$`], [$'], [$n] and [$nn]; the expression has no
    named group, so [$<] stands for itself). *)
Fixpoint GetSubstitution (r : MatchResult) (template : text) : text :=
  match template with
  | [] => []
  | 36 :: rest =>
      match rest with
      | 36 :: rest' => 36 :: GetSubstitution r rest'
      | 38 :: rest' => matched r ++ GetSubstitution r rest'
      | 96 :: rest' => before r ++ GetSubstitution r rest'
      | 39 :: rest' => after r ++ GetSubstitution r rest'
      | d1 :: rest' =>
          if is_digit d1 then
            let m := Z.of_nat (length (captures r)) in
            let one :=
              let i := d1 - 48 in
              if (1 <=? i) && (i <=? m)
              then nth (Z.to_nat (i - 1)) (captures r) [] ++ GetSubstitution r rest'
              else 36 :: d1 :: GetSubstitution r rest' in
            match rest' with
            | d2 :: rest'' =>
                if is_digit d2 then
                  let i := 10 * (d1 - 48) + (d2 - 48) in
                  if (1 <=? i) && (i <=? m)
                  then nth (Z.to_nat (i - 1)) (captures r) [] ++ GetSubstitution r rest''
                  else one
                else one
            | [] => one
            end
          else 36 :: GetSubstitution r rest
      | [] => [36]
      end
  | c :: rest => c :: GetSubstitution r rest
  end.

(** [s.replace(re, template)] for an expression without the g flag: the
    leftmost match is replaced, the rest of the text is kept. *)
Definition String_replace (re : list piece) (s template : text) : text :=
  match regex_exec re s with
  | Some r => before r ++ GetSubstitution r template ++ after r
  | None => s
  end.

(** [s.replace(from, to)] with a one-character string pattern and a
    replacement without [$]: the first occurrence is replaced. *)
Fixpoint String_replace_char (s : text) (from to : Z) : text :=
  match s with
  | c :: s' => if c =? from then to :: s' else c :: String_replace_char s' from to
  | [] => []
  end.

(** ** modifyCreateTime *)

(** [/createTime=([0-9]{4}-[0-9]{2}-[0-9]{2})([ T])([0-9]{2})(:[0-9]{2}:[0-9]{2})/] *)
Definition regex : list piece :=
  [ Plain (map Lit (lit "createTime="));
    Group [Digit; Digit; Digit; Digit; Lit 45;
           Digit; Digit; Lit 45; Digit; Digit];
    Group [SpaceOrT];
    Group [Digit; Digit];
    Group [Lit 58; Digit; Digit; Lit 58; Digit; Digit] ].

(** The new time that [modifyCreateTime] builds from a match array
    [[fullMatch, datePart, sep, hourStr, rest]]. *)
Definition newTime_of (m : list text) : text :=
  let datePart := nth 1 m [] in
  let sep := nth 2 m [] in
  let hourStr := nth 3 m [] in
  let rest := nth 4 m [] in
  let hourNum := Number_rem (Number_add (parseInt hourStr) 1) 24 in
  let newHourStr := padStart (Number_toString hourNum) 2 (lit "0") in
  datePart ++ sep ++ newHourStr ++ rest.

(** The text that [modifyCreateTime] returns. *)
Definition modifyCreateTime (t : text) : text :=
  match String_match regex t with
  | Some m => String_replace regex t (lit "createTime=" ++ newTime_of m)
  | None => t
  end.

(** The text that [modifyCreateTime] hands to [displayDeadline], when it
    does: its one effect on the page. *)
Definition modifyCreateTime_deadline (t : text) : option text :=
  match String_match regex t with
  | Some m => Some (String_replace_char (newTime_of m) 84 32)
  | None => None
  end.

(** *** The callers

    Both scripts call [modifyCreateTime] on a decoded, non-empty text and
    decide what to report by comparing the result with the original. *)

Inductive message :=
  | NoCreateTimeError      (* showError: no createTime to modify *)
  | Success                (* displaySuccess: new code generated *)
  | Extended               (* displaySuccess: validity extended *)
  | RegeneratedUnmodified. (* displaySuccess: regenerated, time not modified *)

Record Outcome := {
  generated : option text;  (* the text handed to generateQRCode *)
  shown : message
}.


(** The second script: steps 3 to 5 of [extendQRCodeDeadline]. *)
Definition extendQRCodeDeadline (originalText : text) : Outcome :=
  let modifiedText := modifyCreateTime originalText in
  {| generated := Some modifiedText;
     shown := if negb (str_eqb modifiedText originalText)
              then Extended else RegeneratedUnmodified |}.


(** ** String helpers of the analyzer *)

(** [s.includes(c)] for a one-character string [c]. *)
Definition String_includes (s : text) (c : Z) : bool := existsb (Z.eqb c) s.

(** [s.split(sep)] for a one-character separator: at least one part. *)
Fixpoint String_split (sep : Z) (s : text) : list text :=
  match s with
  | [] => [[]]
  | c :: s' =>
      if c =? sep then [] :: String_split sep s'
      else match String_split sep s' with
           | p :: ps => (c :: p) :: ps
           | [] => [[c]]
           end
  end.

(** [s.split(sep, limit)]: the first [limit] parts; what follows them is
    dropped. *)
Definition String_split_limit (sep : Z) (s : text) (limit : nat) : list text :=
  take limit (String_split sep s).

Definition trimEnd (s : text) : text := rev (trimStart (rev s)).

(** [s.trim()]. *)
Definition trim (s : text) : text := trimEnd (trimStart s).

(** ** Completions *)

Inductive js_error := URIError.

Inductive completion (A : Type) := Normal (a : A) | Throw (e : js_error).
Arguments Normal {A} a.
Arguments Throw {A} e.

Definition completion_map {A B} (f : A -> B) (c : completion A) : completion B :=
  match c with Normal a => Normal (f a) | Throw e => Throw e end.

(** [try { body } catch (e) { handler }] around a body without effects. *)
Definition try_catch {A} (body : completion A) (handler : js_error -> completion A)
  : completion A :=
  match body with Normal a => Normal a | Throw e => handler e end.

(** ** decodeURIComponent

    The escapes of the text are read first; an escape that is cut short or
    has a character that is no hexadecimal digit is a [TBad].  The octets
    are then decoded as UTF-8 into UTF-16; any octet sequence that is not
    the UTF-8 encoding of a code point throws a URIError. *)

Definition hex_value (c : Z) : option Z :=
  if is_digit c then Some (c - 48)
  else if (65 <=? c) && (c <=? 70) then Some (c - 55)
  else if (97 <=? c) && (c <=? 102) then Some (c - 87)
  else None.

Inductive token := TChar (c : Z) | TOctet (b : Z) | TBad.

Fixpoint tokenize (s : text) : list token :=
  match s with
  | [] => []
  | c :: s' =>
      if c =? 37 then
        match s' with
        | h1 :: h2 :: rest =>
            match hex_value h1, hex_value h2 with
            | Some a, Some b => TOctet (16 * a + b) :: tokenize rest
            | _, _ => [TBad]
            end
        | _ => [TBad]
        end
      else TChar c :: tokenize s'
  end.

(** UTF16EncodeCodePoint. *)
Definition utf16_encode (cp : Z) : text :=
  if cp <? 65536 then [cp]
  else [55296 + Z.shiftr (cp - 65536) 10; 56320 + Z.land (cp - 65536) 1023].

Definition in_range (lo hi b : Z) : bool := (lo <=? b) && (b <=? hi).

Fixpoint decode_tokens (ts : list token) : completion text :=
  match ts with
  | [] => Normal []
  | TChar c :: ts' => completion_map (cons c) (decode_tokens ts')
  | TBad :: _ => Throw URIError
  | TOctet b :: ts' =>
      if b <? 128 then completion_map (cons b) (decode_tokens ts')
      else if in_range 194 223 b then
        match ts' with
        | TOctet b2 :: ts2 =>
            if in_range 128 191 b2
            then completion_map
                   (app (utf16_encode (Z.land b 31 * 64 + Z.land b2 63)))
                   (decode_tokens ts2)
            else Throw URIError
        | _ => Throw URIError
        end
      else if in_range 224 239 b then
        match ts' with
        | TOctet b2 :: TOctet b3 :: ts3 =>
            if in_range (if b =? 224 then 160 else 128)
                        (if b =? 237 then 159 else 191) b2
               && in_range 128 191 b3
            then completion_map
                   (app (utf16_encode
                           ((Z.land b 15 * 64 + Z.land b2 63) * 64 + Z.land b3 63)))
                   (decode_tokens ts3)
            else Throw URIError
        | _ => Throw URIError
        end
      else if in_range 240 244 b then
        match ts' with
        | TOctet b2 :: TOctet b3 :: TOctet b4 :: ts4 =>
            if in_range (if b =? 240 then 144 else 128)
                        (if b =? 244 then 143 else 191) b2
               && in_range 128 191 b3 && in_range 128 191 b4
            then completion_map
                   (app (utf16_encode
                           (((Z.land b 7 * 64 + Z.land b2 63) * 64
                             + Z.land b3 63) * 64 + Z.land b4 63)))
                   (decode_tokens ts4)
            else Throw URIError
        | _ => Throw URIError
        end
      else Throw URIError
  end.

Definition decodeURIComponent (s : text) : completion text :=
  decode_tokens (tokenize s).

(** ** URLSearchParams

    The parser of the URL standard for application/x-www-form-urlencoded
    text: the parts between [&], the empty ones left out, each split at its
    first [=]; in the name and in the value [+] becomes a space, the percent
    escapes are decoded to octets, and the octets are decoded as UTF-8 with
    U+FFFD in place of what is no UTF-8.  Nothing in it throws. *)

(** The code points of a string, an unpaired surrogate read as U+FFFD. *)
Fixpoint code_points (s : text) : list Z :=
  match s with
  | [] => []
  | c :: s' =>
      if in_range 55296 56319 c then
        match s' with
        | d :: s'' =>
            if in_range 56320 57343 d
            then (65536 + (c - 55296) * 1024 + (d - 56320)) :: code_points s''
            else 65533 :: code_points s'
        | [] => [65533]
        end
      else if in_range 56320 57343 c then 65533 :: code_points s'
      else c :: code_points s'
  end.

Definition utf8_encode_code_point (cp : Z) : list Z :=
  if cp <? 128 then [cp]
  else if cp <? 2048 then [192 + Z.shiftr cp 6; 128 + Z.land cp 63]
  else if cp <? 65536 then
    [224 + Z.shiftr cp 12; 128 + Z.land (Z.shiftr cp 6) 63; 128 + Z.land cp 63]
  else
    [240 + Z.shiftr cp 18; 128 + Z.land (Z.shiftr cp 12) 63;
     128 + Z.land (Z.shiftr cp 6) 63; 128 + Z.land cp 63].

Definition utf8_encode (s : text) : list Z :=
  flat_map utf8_encode_code_point (code_points s).

(** Percent-decoding of octets: an escape that is no escape stays as it is. *)
Fixpoint percent_decode (bs : list Z) : list Z :=
  match bs with
  | [] => []
  | b :: rest =>
      if b =? 37 then
        match rest with
        | h1 :: h2 :: rest' =>
            match hex_value h1, hex_value h2 with
            | Some x, Some y => (16 * x + y) :: percent_decode rest'
            | _, _ => b :: percent_decode rest
            end
        | _ => b :: percent_decode rest
        end
      else b :: percent_decode rest
  end.

(** The UTF-8 decoder of the Encoding standard, without BOM handling:
    [needed] continuation octets are still expected for the code point
    [cp], the next of them within [lower..upper]. *)
Fixpoint utf8_decode_from (needed : nat) (cp lower upper : Z) (bs : list Z)
  : list Z :=
  match bs with
  | [] => match needed with O => [] | S _ => [65533] end
  | b :: bs' =>
      let lead :=
        if b <? 128 then b :: utf8_decode_from 0 0 128 191 bs'
        else if in_range 194 223 b
        then utf8_decode_from 1 (Z.land b 31) 128 191 bs'
        else if in_range 224 239 b
        then utf8_decode_from 2 (Z.land b 15)
               (if b =? 224 then 160 else 128) (if b =? 237 then 159 else 191) bs'
        else if in_range 240 244 b
        then utf8_decode_from 3 (Z.land b 7)
               (if b =? 240 then 144 else 128) (if b =? 244 then 143 else 191) bs'
        else 65533 :: utf8_decode_from 0 0 128 191 bs' in
      match needed with
      | O => lead
      | S n =>
          if in_range lower upper b then
            let cp' := cp * 64 + Z.land b 63 in
            match n with
            | O => cp' :: utf8_decode_from 0 0 128 191 bs'
            | S _ => utf8_decode_from n cp' 128 191 bs'
            end
          else 65533 :: lead
      end
  end.

Definition utf8_decode (bs : list Z) : list Z := utf8_decode_from 0 0 128 191 bs.

Definition plus_to_space (s : text) : text :=
  map (fun c => if c =? 43 then 32 else c) s.

(** The decoding of one name or value. *)
Definition form_decode (s : text) : text :=
  flat_map utf16_encode (utf8_decode (percent_decode (utf8_encode (plus_to_space s)))).

(** The text before the first [sep] and the text after it; without a [sep],
    the whole text and the empty text. *)
Fixpoint split_first (sep : Z) (s : text) : text * text :=
  match s with
  | [] => ([], [])
  | c :: s' =>
      if c =? sep then ([], s')
      else let '(a, b) := split_first sep s' in (c :: a, b)
  end.

Definition form_entry (part : text) : list (text * text) :=
  match part with
  | [] => []
  | _ => let '(name, value) := split_first 61 part in
         [(form_decode name, form_decode value)]
  end.

(** [new URLSearchParams(init)] for a string: its list of name-value pairs,
    in the order a [for...of] visits them. *)
Definition URLSearchParams (init : text) : list (text * text) :=
  let init := match init with 63 :: rest => rest | _ => init end in
  flat_map form_entry (String_split 38 init).

(** ** Objects used as maps

    [result.params] is a plain object: its own properties are the
    parameters, and a name it does not own is looked up in
    [Object.prototype].  Assigning a string to [__proto__] changes nothing.
    The order of the own keys is not modelled: the one reader of
    [Object.keys] sorts them. *)

Inductive value :=
  | Undefined
  | Str (s : text)
  | Inherited (name : text).  (* what Object.prototype holds under [name] *)

#[global] Instance value_eq_dec : EqDecision value.
Proof. solve_decision. Defined.

Definition Object_prototype_names : list text :=
  map lit [ "constructor"; "hasOwnProperty"; "isPrototypeOf";
            "propertyIsEnumerable"; "toLocaleString"; "toString"; "valueOf";
            "__proto__"; "__defineGetter__"; "__defineSetter__";
            "__lookupGetter__"; "__lookupSetter__" ]%string.

(** [o[k]]. *)
Definition prop_get (o : gmap text text) (k : text) : value :=
  match o !! k with
  | Some v => Str v
  | None => if bool_decide (k ∈ Object_prototype_names) then Inherited k else Undefined
  end.

(** [o[k] = v] for a string [v]. *)
Definition prop_set (o : gmap text text) (k v : text) : gmap text text :=
  if bool_decide (k = lit "__proto__") then o else <[k := v]> o.

(** [Object.keys(o)]. *)
Definition Object_keys (o : gmap text text) : list text := (map_to_list o).*1.

Definition truthy (v : value) : bool :=
  match v with
  | Undefined => false
  | Str [] => false
  | Str _ => true
  | Inherited _ => true
  end.

(** [a || b]. *)
Definition or_else (a b : value) : value := if truthy a then a else b.

(** [a === b]. *)
Definition strict_eqb (a b : value) : bool := bool_decide (a = b).

(** ** Records of the analyzer *)

Inductive time_error :=
  | BadTimeFormat            (* the fixed text of the NaN branch *)
  | Raised (e : js_error).   (* error.message of the catch branch *)

(** The two shapes [parseTimeString] returns: [parsed: null] with an error,
    or the Date ([parsed], by its time value) with [formatted] and
    [timestamp]. *)
Inductive ParsedTime :=
  | TimeUnparsed (original : text) (error : time_error)
  | TimeParsed (original : text) (parsed : Z) (formatted : text) (timestamp : Z).

Definition original_of (p : ParsedTime) : text :=
  match p with TimeUnparsed o _ => o | TimeParsed o _ _ _ => o end.

(** [p.parsed], a Date by its time value, or [null]. *)
Definition parsed_of (p : ParsedTime) : option Z :=
  match p with TimeUnparsed _ _ => None | TimeParsed _ d _ _ => Some d end.

(** [p.timestamp]; it is read only where [p.parsed] is a Date. *)
Definition timestamp_of (p : ParsedTime) : Z :=
  match p with TimeUnparsed _ _ => 0 | TimeParsed _ _ _ t => t end.

Definition formatted_of (p : ParsedTime) : option text :=
  match p with TimeUnparsed _ _ => None | TimeParsed _ _ f _ => Some f end.

Inductive record_error :=
  | NotRecognised                      (* the decoder found no QR code *)
  | ReadFailed (message : text)        (* reading or decoding threw *)
  | ParamParseFailed (e : js_error).   (* the catch of parseQRContent *)

Record QRRecord := {
  fileName : text;
  rawContent : option text;
  params : gmap text text;
  error : option record_error;
  parsedTime : option ParsedTime
}.

Definition with_params (r : QRRecord) (p : gmap text text) : QRRecord :=
  {| fileName := fileName r; rawContent := rawContent r; params := p;
     error := error r; parsedTime := parsedTime r |}.

Definition with_error (r : QRRecord) (e : record_error) : QRRecord :=
  {| fileName := fileName r; rawContent := rawContent r; params := params r;
     error := Some e; parsedTime := parsedTime r |}.

Definition with_parsedTime (r : QRRecord) (p : ParsedTime) : QRRecord :=
  {| fileName := fileName r; rawContent := rawContent r; params := params r;
     error := error r; parsedTime := Some p |}.

(** ** Statements that update [result] and may throw *)

Definition Exec (A : Type) : Type := QRRecord -> QRRecord * completion A.

Definition ret {A} (a : A) : Exec A := fun r => (r, Normal a).

Definition bind {A B} (m : Exec A) (f : A -> Exec B) : Exec B :=
  fun r =>
    let '(r', c) := m r in
    match c with
    | Normal a => f a r'
    | Throw e => (r', Throw e)
    end.

Definition lift {A} (c : completion A) : Exec A := fun r => (r, c).

Definition get_result : Exec QRRecord := fun r => (r, Normal r).

Definition update (f : QRRecord -> QRRecord) : Exec unit :=
  fun r => (f r, Normal tt).

(** [try { body } catch (e) { handler }]. *)
Definition try_catch_exec {A} (body : Exec A) (handler : js_error -> Exec A)
  : Exec A :=
  fun r =>
    let '(r', c) := body r in
    match c with
    | Normal a => (r', Normal a)
    | Throw e => handler e r'
    end.

Notation "x <- m ;; k" := (bind m (fun x => k))
  (at level 63, m at next level, right associativity).
Notation "m ;;; k" := (bind m (fun _ => k))
  (at level 63, right associativity).

(** [for (const x of l) body]. *)
Fixpoint for_of {A} (l : list A) (body : A -> Exec unit) : Exec unit :=
  match l with
  | [] => ret tt
  | x :: l' => body x ;;; for_of l' body
  end.

(** [result.params[key] = value]. *)
Definition set_param (key value : text) : Exec unit :=
  update (fun r => with_params r (prop_set (params r) key value)).

(** The body of the loop over the pairs of the bare form:
    [const [key, value] = pair.split('=', 2)] and the assignment of the
    decoded value under the decoded key. *)
Definition parse_pair (pair : text) : Exec unit :=
  if String_includes pair 61 then
    let kv := String_split_limit 61 pair 2 in
    key <- lift (decodeURIComponent (nth 0 kv [])) ;;
    value <- lift (decodeURIComponent (nth 1 kv [])) ;;
    set_param key value
  else ret tt.

(** ** QRAnalyzer *)

Section QRAnalyzer.

(** The host: [Date.parse], which gives the time value of [new Date(s)] in
    milliseconds or NaN, and [toLocaleString] with the options of the source. *)
Variable Date_parse : text -> number.
Variable toLocaleString : Z -> text.

Definition parseTimeString (timeString : text) : completion ParsedTime :=
  try_catch
    (let cleanTime :=
       trim (map (fun c => if (c =? 84) || (c =? 90) then 32 else c) timeString) in
     match Date_parse cleanTime with
     | NaN => Normal (TimeUnparsed timeString BadTimeFormat)
     | Num t => Normal (TimeParsed timeString t (toLocaleString t) t)
     end)
    (fun e => Normal (TimeUnparsed timeString (Raised e))).

(** The body of the [try] of [parseQRContent]. *)
Definition parse_params (content : text) : Exec unit :=
  if String_includes content 63 then
    let urlParts := String_split 63 content in
    let paramString := nth 1 urlParts [] in
    for_of (URLSearchParams paramString) (fun '(key, value) => set_param key value)
  else if String_includes content 61 then
    let pairs := String_split 38 content in
    for_of pairs parse_pair
  else ret tt.

(** [if (result.params.createTime) result.parsedTime = ...]: the value is
    truthy when it is a non-empty string ([createTime] is no property of
    Object.prototype). *)
Definition parse_time : Exec unit :=
  result <- get_result ;;
  match prop_get (params result) (lit "createTime") with
  | Str (c :: s) =>
      t <- lift (parseTimeString (c :: s)) ;;
      update (fun r => with_parsedTime r t)
  | _ => ret tt
  end.

Definition parseQRContent_exec (content : text) : Exec QRRecord :=
  try_catch_exec (parse_params content ;;; parse_time)
    (fun e => update (fun r => with_error r (ParamParseFailed e))) ;;;
  get_result.

(** [parseQRContent(content, fileName)]: how the call completes. *)
Definition parseQRContent_completion (content fileName : text) : completion QRRecord :=
  snd (parseQRContent_exec content
         {| fileName := fileName; rawContent := Some content; params := ∅;
            error := None; parsedTime := None |}).

(** [parseQRContent(content, fileName)]: the record it returns. *)
Definition parseQRContent (content fileName : text) : QRRecord :=
  fst (parseQRContent_exec content
         {| fileName := fileName; rawContent := Some content; params := ∅;
            error := None; parsedTime := None |}).

(** What the reading and decoding of one file gave [analyzeFiles]. *)
Inductive decoded :=
  | Content (qrContent : text)   (* a text; the empty text is falsy *)
  | NoCode                       (* null *)
  | Failure (message : text).    (* the promise was rejected *)

(** The loop of [analyzeFiles]: the records pushed to [qrData]. *)
Definition analyzeFiles (files : list (text * decoded)) : list QRRecord :=
  map (fun '(name, d) =>
         match d with
         | Content (c :: s) => parseQRContent (c :: s) name
         | Content [] | NoCode =>
             {| fileName := name; rawContent := None; params := ∅;
                error := Some NotRecognised; parsedTime := None |}
         | Failure m =>
             {| fileName := name; rawContent := None; params := ∅;
                error := Some (ReadFailed m); parsedTime := None |}
         end) files.

End QRAnalyzer.

(** ** Sorting

    [Array.prototype.sort] is stable, and with a consistent comparator its
    result is the one sorted arrangement that keeps equal elements in their
    order; insertion from the right computes it. *)

Fixpoint sort_insert {A} (cmp : A -> A -> Z) (x : A) (l : list A) : list A :=
  match l with
  | [] => [x]
  | y :: l' => if cmp x y <=? 0 then x :: y :: l' else y :: sort_insert cmp x l'
  end.

Fixpoint Array_sort {A} (cmp : A -> A -> Z) (l : list A) : list A :=
  match l with
  | [] => []
  | x :: l' => sort_insert cmp x (Array_sort cmp l')
  end.

(** The comparator of [sort()] without an argument, on strings: the order
    of the code units. *)
Fixpoint String_compare (a b : text) : Z :=
  match a, b with
  | [], [] => 0
  | [], _ :: _ => -1
  | _ :: _, [] => 1
  | x :: a', y :: b' =>
      if x <? y then -1 else if y <? x then 1 else String_compare a' b'
  end.

(** ** Doubles

    The numbers of the time differences are binary64 doubles.  A time
    value is an integer of magnitude at most 8.64e15, which a double holds
    exactly; the difference of two time values and its quotient by a
    constant are rounded to the nearest double, a tie going to the even
    mantissa.  The values met here are far from the subnormal and overflow
    ranges, which are left out. *)

(** The integer nearest to [n / d] for [d > 0], a tie going to the even
    one. *)
Definition round_half_even (n d : Z) : Z :=
  let q := n / d in
  let r := n mod d in
  if 2 * r <? d then q
  else if d <? 2 * r then q + 1
  else if Z.even q then q else q + 1.

(** A finite double: [mantissa * 2 ^ exponent]. *)
Record double := {
  mantissa : Z;
  exponent : Z
}.

(** [(p / q) / 2 ^ e] as a fraction of integers. *)
Definition scaled (p q e : Z) : Z * Z :=
  if e <? 0 then (p * 2 ^ (- e), q) else (p, q * 2 ^ e).

(** The exponent of the double nearest to [p / q], for [p, q > 0]: the [e]
    with [2 ^ 52 <= (p / q) / 2 ^ e < 2 ^ 53]. *)
Definition binary64_exponent (p q : Z) : Z :=
  let e0 := Z.log2 p - Z.log2 q - 53 in
  let '(n, d) := scaled p q (e0 + 1) in
  if 2 ^ 52 * d <=? n then e0 + 1 else e0.

(** The double nearest to [p / q] for [q > 0], a tie going to the even
    mantissa. *)
Definition binary64 (p q : Z) : double :=
  if p =? 0 then {| mantissa := 0; exponent := 0 |}
  else
    let e := binary64_exponent (Z.abs p) q in
    let '(n, d) := scaled (Z.abs p) q e in
    {| mantissa := Z.sgn p * round_half_even n d; exponent := e |}.

(** [a - b] for two integers that doubles hold exactly: the double nearest
    to the difference, an integer again. *)
Definition Number_sub (a b : Z) : Z :=
  let x := binary64 (a - b) 1 in
  if exponent x <? 0 then mantissa x / 2 ^ (- exponent x)
  else mantissa x * 2 ^ exponent x.

(** [a / b] for an integer [a] and a positive integer [b]. *)
Definition Number_div (a b : Z) : double := binary64 a b.

(** [Math.round(x)]: the integer nearest to [x], a half rounded upwards. *)
Definition Math_round (x : double) : Z :=
  if exponent x <? 0
  then (2 * mantissa x + 2 ^ (- exponent x)) / 2 ^ (- exponent x + 1)
  else mantissa x * 2 ^ exponent x.

(** ** The comparison report *)

(** One row of the table: the parameter, a cell per record, and whether the
    row is left without highlight. *)
Record Row := {
  param : text;
  values : list value;
  isUniform : bool
}.

Inductive duration := Hours (n : Z) | Minutes (n : Z).

(** One item of the list of time differences. *)
Record Delta := {
  current_file : text;
  next_file : text;
  displayed : duration;
  current_formatted : option text;
  next_formatted : option text
}.

Inductive TimeAnalysis :=
  | NotEnoughTimes               (* fewer than two valid times *)
  | TimeDeltas (l : list Delta).

Inductive Comparison :=
  | NeedTwoCodes                 (* fewer than two records *)
  | Report (table : option (list Row)) (time : TimeAnalysis).

(** [allParams.add(key)] on a Set kept in insertion order. *)
Definition Set_add (s : list text) (key : text) : list text :=
  if bool_decide (key ∈ s) then s else s ++ [key].

Definition allParams_of (qrData : list QRRecord) : list text :=
  fold_left (fun s data => fold_left Set_add (Object_keys (params data)) s)
            qrData [].

Definition row_of (qrData : list QRRecord) (p : text) : Row :=
  let vals := map (fun data => or_else (prop_get (params data) p) (Str [])) qrData in
  {| param := p;
     values := vals;
     isUniform := forallb (fun v => strict_eqb v (nth 0 vals Undefined)) vals |}.

Record TimeEntry := {
  entry_fileName : text;
  time : ParsedTime
}.

Definition has_parsed_time (data : QRRecord) : bool :=
  match parsedTime data with
  | Some p => match parsed_of p with Some _ => true | None => false end
  | None => false
  end.

Definition timesData_of (qrData : list QRRecord) : list TimeEntry :=
  map (fun data =>
         {| entry_fileName := fileName data;
            time := default (TimeUnparsed [] BadTimeFormat) (parsedTime data) |})
      (List.filter has_parsed_time qrData).

Definition delta_of (current next : TimeEntry) : Delta :=
  let diffMs := Number_sub (timestamp_of (time next)) (timestamp_of (time current)) in
  let diffMinutes := Math_round (Number_div diffMs 60000) in
  let diffHours := Math_round (Number_div diffMs 3600000) in
  {| current_file := entry_fileName current;
     next_file := entry_fileName next;
     displayed := if 0 <? diffHours then Hours diffHours else Minutes diffMinutes;
     current_formatted := formatted_of (time current);
     next_formatted := formatted_of (time next) |}.

(** The loop over [i] from [0] to [timesData.length - 2]. *)
Fixpoint deltas_of (timesData : list TimeEntry) : list Delta :=
  match timesData with
  | current :: rest =>
      match rest with
      | next :: _ => delta_of current next :: deltas_of rest
      | [] => []
      end
  | [] => []
  end.

Definition analyzeTimeDifferences (qrData : list QRRecord) : TimeAnalysis :=
  let timesData := timesData_of qrData in
  if (length timesData <? 2)%nat then NotEnoughTimes
  else
    let sorted :=
      Array_sort (fun a b => Number_sub (timestamp_of (time a)) (timestamp_of (time b)))
                 timesData in
    TimeDeltas (deltas_of sorted).

Definition createComparisonResults (qrData : list QRRecord) : Comparison :=
  if (length qrData <? 2)%nat then NeedTwoCodes
  else
    let allParams := allParams_of qrData in
    Report
      (if (0 <? length allParams)%nat
       then Some (map (row_of qrData) (Array_sort String_compare allParams))
       else None)
      (analyzeTimeDifferences qrData).

(** The rows and the time differences that the report displays. *)
Definition rows_of (c : Comparison) : list Row :=
  match c with
  | Report (Some rows) _ => rows
  | _ => []
  end.

Definition time_deltas_of (c : Comparison) : list Delta :=
  match c with
  | Report _ (TimeDeltas l) => l
  | _ => []
  end.

(** ** A sample host

    A browser in the UTC zone, as far as the texts of the examples need it:
    [YYYY-MM-DD HH:MM:SS] is read as that moment, anything else is taken as
    unparseable. *)

Definition two (a b : Z) : Z := 10 * (a - 48) + (b - 48).

(** Days from 1970-01-01 to the civil date [y-m-d]. *)
Definition days_from_civil (y m d : Z) : Z :=
  let y' := if m <=? 2 then y - 1 else y in
  let era := y' / 400 in
  let yoe := y' - era * 400 in
  let doy := (153 * (if 2 <? m then m - 3 else m + 9) + 2) / 5 + d - 1 in
  let doe := yoe * 365 + yoe / 4 - yoe / 100 + doy in
  era * 146097 + doe - 719468.

Definition sample_Date_parse (s : text) : number :=
  match s with
  | [y1; y2; y3; y4; 45; m1; m2; 45; d1; d2; 32; h1; h2; 58; n1; n2; 58; s1; s2] =>
      if forallb is_digit [y1; y2; y3; y4; m1; m2; d1; d2; h1; h2; n1; n2; s1; s2]
      then
        let y := 100 * two y1 y2 + two y3 y4 in
        let m := two m1 m2 in
        let d := two d1 d2 in
        if in_range 1 12 m && in_range 1 31 d && in_range 0 23 (two h1 h2)
           && in_range 0 59 (two n1 n2) && in_range 0 59 (two s1 s2)
        then Num (((days_from_civil y m d * 24 + two h1 h2) * 60 + two n1 n2) * 60000
                  + two s1 s2 * 1000)
        else NaN
      else NaN
  | _ => NaN
  end.

Definition sample_toLocaleString (t : Z) : text := Number_toString (Num t).

(** * Vocabulary of the properties *)

(** ** The pattern of the mutator, in the words of its description

    The literal [createTime=], a date [NNNN-NN-NN], one separator that is a
    space or a [T], a two-digit hour, and a suffix [:NN:NN]. *)

Definition digit (c : Z) : Prop := 48 <= c <= 57.

Definition date_shape (d : text) : Prop :=
  exists y1 y2 y3 y4 m1 m2 d1 d2,
    d = [y1; y2; y3; y4; 45; m1; m2; 45; d1; d2]
    /\ Forall digit [y1; y2; y3; y4; m1; m2; d1; d2].

Definition suffix_shape (r : text) : Prop :=
  exists a b c d, r = [58; a; b; 58; c; d] /\ Forall digit [a; b; c; d].

Definition span_shape (date : text) (sep h1 h2 : Z) (suffix : text) : Prop :=
  date_shape date /\ (sep = 32 \/ sep = 84) /\ digit h1 /\ digit h2
  /\ suffix_shape suffix.

(** The matched span with the hour [hour]. *)
Definition span (date : text) (sep : Z) (hour suffix : text) : text :=
  lit "createTime=" ++ date ++ [sep] ++ hour ++ suffix.

(** The pattern matches [t] right after [pre], with [post] left over. *)
Definition pattern_at (t pre date : text) (sep h1 h2 : Z) (suffix post : text)
  : Prop :=
  t = pre ++ span date sep [h1; h2] suffix ++ post
  /\ span_shape date sep h1 h2 suffix.

Definition pattern_matches (t : text) : Prop :=
  exists pre date sep h1 h2 suffix post, pattern_at t pre date sep h1 h2 suffix post.

(** The match after [pre] is the first one. *)
Definition first_match (t pre date : text) (sep h1 h2 : Z) (suffix post : text)
  : Prop :=
  pattern_at t pre date sep h1 h2 suffix post
  /\ forall pre' date' sep' h1' h2' suffix' post',
       pattern_at t pre' date' sep' h1' h2' suffix' post' ->
       (length pre <= length pre')%nat.

(** The two-digit hour read as an integer. *)
Definition hour_value (h1 h2 : Z) : Z := 10 * (h1 - 48) + (h2 - 48).

(** An integer below 100 written with two digits. *)
Definition two_digits (n : Z) : text := [48 + n / 10; 48 + n mod 10].

(** The code unit [c] is one that the atom [a] accepts. *)
Definition atom_ok (a : atom) (c : Z) : Prop := atom_test a c = true.

(** The atoms of an expression, and the captures its groups cut out of a
    matched text. *)
Definition atoms_of (re : list piece) : list atom := flat_map piece_atoms re.

Fixpoint captures_of (re : list piece) (m : text) : list text :=
  match re with
  | [] => []
  | Plain p :: re' => captures_of re' (drop (length p) m)
  | Group p :: re' => take (length p) m :: captures_of re' (drop (length p) m)
  end.

(** Whether the mutator changed the text, as both callers find out:
    [modifiedText !== originalText]. *)
Definition changed (t : text) : bool := negb (str_eqb (modifyCreateTime t) t).

(** ** Times and durations, in the words of the description *)

(** The raw time with [T] and [Z] replaced by spaces, and trimmed. *)
Definition normalized_time (raw : text) : text :=
  trim (map (fun c => if bool_decide (c = 84 \/ c = 90) then 32 else c) raw).

(** A parsed time is valid when it holds a Date, as the readers of
    [parsedTime.parsed] test it. *)
Definition valid (p : ParsedTime) : bool :=
  match parsed_of p with Some _ => true | None => false end.

(** The instant of a parsed time in epoch milliseconds, when it has one. *)
Definition instant (p : ParsedTime) : option Z :=
  match p with TimeUnparsed _ _ => None | TimeParsed _ _ _ t => Some t end.

(** A record with a valid parsed time, and its instant. *)
Definition has_valid_time (data : QRRecord) : Prop :=
  exists p, parsedTime data = Some p /\ valid p = true.

#[global] Instance has_valid_time_dec data : Decision (has_valid_time data).
Proof.
  destruct (parsedTime data) as [p|] eqn:Hp.
  - destruct (valid p) eqn:Hv.
    + left. by exists p.
    + right. intros (p' & Heq & Hv'). congruence.
  - right. intros (p' & Heq & _). congruence.
Defined.

Definition record_instant (data : QRRecord) : Z :=
  match parsedTime data with Some p => timestamp_of p | None => 0 end.



(** [q] is [a / b] rounded to the nearest integer, a half upwards. *)
Definition rounds_to (a b q : Z) : Prop := 2 * b * q - b <= 2 * a < 2 * b * q + b.

(** The quotient of the integers [a] and [b > 0] rounded to the nearest
    integer, a half upwards: the rounding of the exact quotient. *)
Definition Math_round_div (a b : Z) : Z := (2 * a + b) / (2 * b).

(** The display rule: whole hours when they round to a non-zero value,
    whole minutes otherwise. *)
Definition shown_duration (delta : Z) : duration :=
  if bool_decide (Math_round_div delta 3600000 <> 0)
  then Hours (Math_round_div delta 3600000)
  else Minutes (Math_round_div delta 60000).






(** A double as a value of the IEEE 754 specification of the Standard
    Library, and an integer as its binary64 double there. *)
Definition as_spec_float (x : double) : spec_float :=
  match mantissa x with
  | Z0 => S754_zero false
  | Zpos m => S754_finite false m (exponent x)
  | Zneg m => S754_finite true m (exponent x)
  end.

Definition spec_float_of_Z (z : Z) : spec_float := binary_normalize 53 1024 z 0 false.



(** The batch of the two-record example: two decoded texts, each its
    createTime parameter alone. *)
Definition two_codes (Date_parse : text -> number) (toLocaleString : Z -> text)
    (f1 f2 : text) : list QRRecord :=
  analyzeFiles Date_parse toLocaleString
    [ (f1, Content (lit "createTime=2024-01-01 10:00:00"));
      (f2, Content (lit "createTime=2024-01-01 12:30:00")) ].

(** ** The comparison table, in the words of the description *)

(** The lexicographic order of texts by code unit. *)
Inductive lex_lt : text -> text -> Prop :=
  | lex_lt_nil c b : lex_lt [] (c :: b)
  | lex_lt_head x y a b : x < y -> lex_lt (x :: a) (y :: b)
  | lex_lt_tail x a b : lex_lt a b -> lex_lt (x :: a) (x :: b).

(** [k] is a parameter key of some record of the batch. *)
Definition key_of_batch (qrData : list QRRecord) (k : text) : Prop :=
  exists data, data ∈ qrData /\ is_Some (params data !! k).

(** The slot of a record in the row of [k]: its value, or the empty string
    when it has none. *)
Definition slot (data : QRRecord) (k : text) : value :=
  Str (default [] (params data !! k)).

(** All values of the row are equal to the first one. *)
Definition all_equal_first (vals : list value) : Prop :=
  forall v, v ∈ vals -> Some v = head vals.

(** Two decoded codes, for the examples of the table. *)
Definition sample_batch : list QRRecord :=
  analyzeFiles sample_Date_parse sample_toLocaleString
    [ (lit "a.png", Content (lit "createTime=2024-01-01 10:00:00&signature=abc"));
      (lit "b.png", Content (lit "createTime=2024-01-01 10:00:00&signature=xyz&id=7")) ].

(** One decoded code. *)
Definition one_code : list QRRecord :=
  analyzeFiles sample_Date_parse sample_toLocaleString
    [ (lit "a.png", Content (lit "a=1")) ].

(** ** The extractor, in the words of the description *)

(** In a segment, the text before the first [=], and the text after it up
    to the next [=]. *)
Definition key_part (seg : text) : text := fst (split_first 61 seg).

Definition value_part (seg : text) : text :=
  fst (split_first 61 (snd (split_first 61 seg))).

(** The whole text after the first [=] of a segment. *)
Definition value_rest (seg : text) : text := snd (split_first 61 seg).

(** The decoded key and value of a segment of the bare form. *)
Definition bare_pair (seg : text) : completion (text * text) :=
  match decodeURIComponent (key_part seg), decodeURIComponent (value_part seg) with
  | Normal k, Normal v => Normal (k, v)
  | Throw e, _ => Throw e
  | _, Throw e => Throw e
  end.

(** A segment with [=] whose key or value has malformed percent-encoding. *)
Definition malformed (seg : text) : bool :=
  String_includes seg 61
  && match bare_pair seg with Normal _ => false | Throw _ => true end.

(** The segments before the first malformed one. *)
Fixpoint before_malformed (segs : list text) : list text :=
  match segs with
  | [] => []
  | seg :: rest => if malformed seg then [] else seg :: before_malformed rest
  end.

(** The pairs of the segments that have a [=], in order. *)
Definition bare_pairs (segs : list text) : list (text * text) :=
  flat_map (fun seg =>
              if String_includes seg 61
              then match bare_pair seg with Normal p => [p] | Throw _ => [] end
              else []) segs.

(** The value of the last pair whose key is [k]. *)
Fixpoint last_value (pairs : list (text * text)) (k : text) : option text :=
  match pairs with
  | [] => None
  | (k', v) :: rest =>
      match last_value rest k with
      | Some v' => Some v'
      | None => if bool_decide (k' = k) then Some v else None
      end
  end.

(** In a text with [?], the text after the first [?] up to the next one. *)
Definition query_part (content : text) : text :=
  fst (split_first 63 (snd (split_first 63 content))).

(** The pairs that the extractor reads off a text, in order. *)
Definition extracted_pairs (content : text) : list (text * text) :=
  if String_includes content 63
  then flat_map form_entry (String_split 38 (query_part content))
  else bare_pairs (before_malformed (String_split 38 content)).

(** The assignments of a list of pairs to an object, in order. *)
Definition assign_pairs (pairs : list (text * text)) (o : gmap text text)
  : gmap text text :=
  fold_left (fun o '(k, v) => prop_set o k v) pairs o.

(** The first matched span starts a parameter: it stands at the start of
    the text or right after a [&] or a [?]. *)
Definition starts_parameter (pre : text) : Prop :=
  pre = [] \/ exists p c, pre = p ++ [c] /\ (c = 38 \/ c = 63).

(** A code unit that is none of [%], [&], [=] and [?]. *)
Definition plain (c : Z) : Prop := c <> 37 /\ c <> 38 /\ c <> 61 /\ c <> 63.

(** Two lists of pairs that differ at most in the values of [createTime]. *)
Definition same_but_createTime (ps ps' : list (text * text)) : Prop :=
  Forall2 (fun p p' => p = p' \/ (fst p = lit "createTime" /\ fst p' = lit "createTime"))
          ps ps'.

(** * Further vocabulary *)

(** ** The mutator applied again *)

(** Two code units that are equal or both decimal digits. *)
Definition same_or_digits (c c' : Z) : Prop := c = c' \/ (digit c /\ digit c').

(** An atom that accepts all decimal digits or none of them. *)
Definition digit_blind (a : atom) : Prop :=
  forall c c', same_or_digits c c' -> atom_ok a c' -> atom_ok a c.

(** ** The extractor, further *)

(** The raw pairs of the segments with a [=], as the bare form reads a text
    without [%]: nothing is decoded. *)
Definition raw_pairs (segs : list text) : list (text * text) :=
  flat_map (fun seg =>
              if String_includes seg 61 then [(key_part seg, value_part seg)] else [])
           segs.

(** A code unit that the decoding of the form with [?] leaves as it is: an
    ASCII code unit other than [%] and [+]. *)
Definition form_plain (c : Z) : Prop := 0 <= c < 128 /\ c <> 37 /\ c <> 43.

(** An ASCII code unit other than [+]: the decoding of the form with [?]
    changes it only as part of an escape. *)
Definition form_ascii (c : Z) : Prop := 0 <= c < 128 /\ c <> 43.

(** The text holds an escape: a [%] that two hexadecimal digits follow. *)
Fixpoint has_escape (s : text) : bool :=
  match s with
  | [] => false
  | c :: rest =>
      ((c =? 37)
       && match rest with
          | h1 :: h2 :: _ =>
              match hex_value h1, hex_value h2 with
              | Some _, Some _ => true
              | _, _ => false
              end
          | _ => false
          end)
      || has_escape rest
  end.

(** A segment that is empty or has exactly one [=]. *)
Definition simple_segment (seg : text) : Prop :=
  seg = [] \/ (String_includes seg 61 = true /\ 61 ∉ value_rest seg).

(** The parsed time that [parseTimeString] gives for a raw string. *)
Definition time_of (Date_parse : text -> number) (toLocaleString : Z -> text)
    (raw : text) : ParsedTime :=
  match Date_parse (normalized_time raw) with
  | NaN => TimeUnparsed raw BadTimeFormat
  | Num t => TimeParsed raw t (toLocaleString t) t
  end.

(** ** Times and durations, further *)

(** Two readings of a time agree on the instant and on its formatted text. *)
Definition same_reading (p p' : ParsedTime) : Prop :=
  instant p = instant p' /\ formatted_of p = formatted_of p'.

(** What the list of time differences can show: at least one hour, or at
    most thirty minutes. *)
Definition duration_in_range (d : duration) : Prop :=
  match d with Hours h => 1 <= h | Minutes m => 0 <= m <= 30 end.

(** ** Files that gave no text *)

(** A file whose reading or decoding gave [analyzeFiles] no text. *)
Definition unreadable (d : decoded) : Prop :=
  match d with Content (_ :: _) => False | _ => True end.

(** * The pages of the two scripts

    [extendQRCodeDeadline] runs when a file is chosen.  What the browser
    and the two libraries give it is an input of the model: the reading and
    decoding of the file in [reading], the generator of the image in
    [toDataURL].  The page is the part of the document that the script
    writes: the elements of its containers in document order.  A run is
    taken as a whole, one run at a time, and the page is the one at its
    end, when the timer of 3.5 s that removes the message of the run has
    just been started. *)

(** The messages of the errors that the promises are rejected with. *)
Inductive failure :=
  | FileReadFailed      (* readFileAsync *)
  | ImageLoadFailed     (* decodeQRCode of base_script.js, image.onerror *)
  | DecodingFailed      (* decodeQRCode of base_script.js, the catch around jsQR *)
  | GenerationFailed.   (* generateQRCode *)

(** What the two awaits of step 2 give: a rejection, or the decoded text
    ([null] when no code is found). *)
Inductive reading :=
  | Rejected (e : failure)
  | Resolved (originalText : option text).

(** The texts of the messages. *)
Inductive notice :=
  | SelectFileFirst                (* no file chosen *)
  | CannotRecognise                (* no text decoded *)
  | ProcessingFailed (e : failure) (* the catch: the prefix and error.message *)
  | Reported (m : message).        (* the messages of steps 3 to 5 *)

Inductive message_type := type_success | type_error.

Inductive element :=
  | Placeholder                                     (* the paragraph or element shown before a result *)
  | MessageElem (type : message_type) (msg : notice) (* div.message *)
  | DeadlineElem (deadlineText : text)               (* div.deadline: the label and the text *)
  | QRImage (src : text)                             (* img.qr-image *)
  | OtherElem (n : nat).                             (* any other element of the document *)

(** [style.display] of the placeholder of the second script. *)
Inductive display := DisplayDefault | DisplayBlock | DisplayNone.

Definition is_result (e : element) : bool :=
  match e with QRImage _ | DeadlineElem _ => true | _ => false end.

Definition is_message (e : element) : bool :=
  match e with MessageElem _ _ => true | _ => false end.

(** base_script.js.  The panel holds the [qr-image] elements of the
    document: the script creates them nowhere else. *)
Module BaseScript.
Section Page.
Variable toDataURL : text -> option text.

Definition showError (msg : notice) (rightPanel : list element) : list element :=
  rightPanel ++ [MessageElem type_error msg].

Definition displaySuccess (msg : notice) (rightPanel : list element) : list element :=
  rightPanel ++ [MessageElem type_success msg].

Definition displayDeadline (deadlineText : text) (rightPanel : list element)
  : list element :=
  rightPanel ++ [DeadlineElem deadlineText].

(** The elements of the three classes are removed, then [innerHTML] is
    set: whatever the panel held, it holds the placeholder alone. *)
Definition clearResults (rightPanel : list element) : list element :=
  [Placeholder].

(** [document.querySelector(".qr-image")], removed when there is one. *)
Fixpoint remove_oldQR (l : list element) : list element :=
  match l with
  | [] => []
  | QRImage _ :: l' => l'
  | e :: l' => e :: remove_oldQR l'
  end.

Definition generateQRCode (t : text) (rightPanel : list element)
  : list element * option failure :=
  match toDataURL t with
  | None => (rightPanel, Some GenerationFailed)
  | Some url => (remove_oldQR rightPanel ++ [QRImage url], None)
  end.

(** [modifyCreateTime] with its effect on the page. *)
Definition modifyCreateTime_on (t : text) (rightPanel : list element)
  : list element * text :=
  (match modifyCreateTime_deadline t with
   | Some deadlineText => displayDeadline deadlineText rightPanel
   | None => rightPanel
   end,
   modifyCreateTime t).

Definition extendQRCodeDeadline (file : option reading) (rightPanel : list element)
  : list element :=
  match file with
  | None => showError SelectFileFirst rightPanel
  | Some r =>
      let rightPanel := clearResults rightPanel in
      match r with
      | Rejected e => showError (ProcessingFailed e) rightPanel
      | Resolved None | Resolved (Some []) => showError CannotRecognise rightPanel
      | Resolved (Some originalText) =>
          let '(rightPanel, modifiedText) := modifyCreateTime_on originalText rightPanel in
          if str_eqb modifiedText originalText
          then showError (Reported NoCreateTimeError) rightPanel
          else
            match generateQRCode modifiedText rightPanel with
            | (rightPanel, Some e) => showError (ProcessingFailed e) rightPanel
            | (rightPanel, None) => displaySuccess (Reported Success) rightPanel
            end
      end
  end.
End Page.
End BaseScript.

(** The second script.  Its two containers are taken as separate elements
    of the document. *)
Module SecondScript.

Record Page := {
  statusArea : list element;
  messageContainer : list element;
  qrPlaceholder_display : display
}.

Section Page.
Variable toDataURL : text -> option text.

Definition showMessage (msg : notice) (type : message_type) (p : Page) : Page :=
  {| statusArea := statusArea p;
     messageContainer := messageContainer p ++ [MessageElem type msg];
     qrPlaceholder_display := qrPlaceholder_display p |}.

Definition displaySuccess (msg : notice) : Page -> Page := showMessage msg type_success.

Definition showError (msg : notice) : Page -> Page := showMessage msg type_error.

Definition displayDeadline (deadlineText : text) (p : Page) : Page :=
  {| statusArea := statusArea p ++ [DeadlineElem deadlineText];
     messageContainer := messageContainer p;
     qrPlaceholder_display := qrPlaceholder_display p |}.

Definition clearResults (p : Page) : Page :=
  {| statusArea := List.filter (fun e => negb (is_result e)) (statusArea p);
     messageContainer := [];
     qrPlaceholder_display := DisplayBlock |}.

Definition generateQRCode (t : text) (p : Page) : Page * option failure :=
  match toDataURL t with
  | None => (p, Some GenerationFailed)
  | Some url =>
      ({| statusArea := statusArea p ++ [QRImage url];
          messageContainer := messageContainer p;
          qrPlaceholder_display := DisplayNone |}, None)
  end.

Definition modifyCreateTime_on (t : text) (p : Page) : Page * text :=
  (match modifyCreateTime_deadline t with
   | Some deadlineText => displayDeadline deadlineText p
   | None => p
   end,
   modifyCreateTime t).

Definition extendQRCodeDeadline (file : option reading) (p : Page) : Page :=
  match file with
  | None => p
  | Some r =>
      let p := clearResults p in
      match r with
      | Rejected e => showError (ProcessingFailed e) p
      | Resolved None | Resolved (Some []) => showError CannotRecognise p
      | Resolved (Some originalText) =>
          let '(p, modifiedText) := modifyCreateTime_on originalText p in
          match generateQRCode modifiedText p with
          | (p, Some e) => showError (ProcessingFailed e) p
          | (p, None) =>
              if negb (str_eqb modifiedText originalText)
              then displaySuccess (Reported Extended) p
              else displaySuccess (Reported RegeneratedUnmodified) p
          end
      end
  end.
End Page.
End SecondScript.

(** ** What a page shows *)

Definition qr_images (l : list element) : list text :=
  omap (fun e => match e with QRImage src => Some src | _ => None end) l.

Definition deadlines (l : list element) : list text :=
  omap (fun e => match e with DeadlineElem d => Some d | _ => None end) l.

Definition messages (l : list element) : list (message_type * notice) :=
  omap (fun e => match e with MessageElem ty n => Some (ty, n) | _ => None end) l.

(** The elements that are neither a code image nor a deadline. *)
Definition kept (l : list element) : list element :=
  List.filter (fun e => negb (is_result e)) l.

(** * Proofs *)

(** * The mutator *)

Lemma match_atoms_Some p s m r :
  match_atoms p s = Some (m, r) <-> s = m ++ r /\ Forall2 atom_ok p m.
Proof.
  revert s m r. induction p as [|a p IH]; intros s m r; simpl.
  - split.
    + intros [= <- <-]. split; [done | constructor].
    + intros [-> H]. by inversion H.
  - destruct s as [|c s].
    + split; [done |]. intros [Hs H]. inversion H; subst. discriminate.
    + destruct (atom_test a c) eqn:Ha.
      * destruct (match_atoms p s) as [[m' r']|] eqn:Hm.
        -- apply IH in Hm as [-> Hm]. split.
           ++ intros [= <- <-]. split; [done |]. by constructor.
           ++ intros [Hs H]. inversion H as [|? c' ? m'' Hc Hp]; subst.
              simpl in Hs. injection Hs as -> Hs.
              assert (match_atoms p (m'' ++ r) = Some (m'', r)) as Hm'
                by (apply IH; done).
              rewrite <- Hs in Hm'.
              assert (match_atoms p (m' ++ r') = Some (m', r')) as Hm''
                by (apply IH; done).
              congruence.
        -- split; [done |]. intros [Hs H]. inversion H as [|? c' ? m'' Hc Hp]; subst.
           simpl in Hs. injection Hs as -> ->.
           assert (match_atoms p (m'' ++ r) = Some (m'', r)) by (apply IH; done).
           congruence.
      * split; [done |]. intros [Hs H]. inversion H as [|? c' ? m'' Hc Hp]; subst.
        simpl in Hs. injection Hs as -> ->. unfold atom_ok in Hc. congruence.
Qed.

Lemma match_atoms_None p s :
  match_atoms p s = None <-> forall m r, s = m ++ r -> ~ Forall2 atom_ok p m.
Proof.
  split.
  - intros H m r Hs HF.
    assert (match_atoms p s = Some (m, r)) by (apply match_atoms_Some; done).
    congruence.
  - intros H. destruct (match_atoms p s) as [[m r]|] eqn:E; [|done].
    apply match_atoms_Some in E as [-> HF]. by destruct (H m r).
Qed.

Lemma match_pieces_Some re s m caps r :
  match_pieces re s = Some (m, caps, r)
  <-> s = m ++ r /\ Forall2 atom_ok (atoms_of re) m /\ caps = captures_of re m.
Proof.
  revert s m caps r. induction re as [|p re IH]; intros s m caps r; simpl.
  - split.
    + intros [= <- <- <-]. repeat split; constructor.
    + intros (-> & H & ->). by inversion H.
  - split.
    + destruct (match_atoms (piece_atoms p) s) as [[m1 r1]|] eqn:H1; [|done].
      destruct (match_pieces re r1) as [[[m' caps'] r']|] eqn:H2; [|done].
      intros [= <- <- <-].
      apply match_atoms_Some in H1 as [-> H1].
      apply IH in H2 as (-> & H2 & ->).
      assert (length (piece_atoms p) = length m1) as Hlen
        by (by eapply Forall2_length).
      split; [by rewrite app_assoc |]. split; [by apply Forall2_app |].
      destruct p as [p|p]; simpl in *; rewrite Hlen;
        by rewrite ?take_app_length, ?drop_app_length.
    + intros (-> & HF & ->).
      apply Forall2_app_inv_l in HF as (m1 & m' & H1 & H2 & ->).
      assert (length (piece_atoms p) = length m1) as Hlen
        by (by eapply Forall2_length).
      assert (match_atoms (piece_atoms p) ((m1 ++ m') ++ r) = Some (m1, m' ++ r)) as ->
        by (apply match_atoms_Some; by rewrite app_assoc).
      assert (match_pieces re (m' ++ r) = Some (m', captures_of re m', r)) as ->
        by (by apply IH).
      destruct p as [p|p]; simpl in *; rewrite Hlen;
        by rewrite ?take_app_length, ?drop_app_length.
Qed.

(** The leftmost match: the text splits around it, and the expression
    matches at no earlier place. *)
Lemma regex_exec_Some re s r :
  regex_exec re s = Some r ->
  s = before r ++ matched r ++ after r
  /\ match_pieces re (matched r ++ after r) = Some (matched r, captures r, after r)
  /\ forall pre rest, s = pre ++ rest -> (length pre < length (before r))%nat ->
       match_pieces re rest = None.
Proof.
  revert r. induction s as [|c s IH]; intros r; simpl.
  - destruct (match_pieces re []) as [[[m caps] r']|] eqn:H; [|done].
    intros [= <-]. simpl. apply match_pieces_Some in H as H'.
    destruct H' as (Hs & _ & _). split; [done |]. rewrite <- Hs.
    split; [done |]. intros; simpl in *; lia.
  - destruct (match_pieces re (c :: s)) as [[[m caps] r']|] eqn:H.
    + intros [= <-]. simpl. apply match_pieces_Some in H as H'.
      destruct H' as (Hs & _ & _). split; [done |]. rewrite <- Hs.
      split; [done |]. intros; simpl in *; lia.
    + destruct (regex_exec re s) as [r0|] eqn:H0; [|done].
      intros [= <-]. simpl. destruct (IH r0 eq_refl) as (Hs & Hm & Hfirst).
      split; [by rewrite Hs at 1 |]. split; [done |].
      intros pre rest Hpre Hlen. destruct pre as [|c' pre]; simpl in *.
      * by subst rest.
      * injection Hpre as -> ->. apply (Hfirst pre); [done | lia].
Qed.

Lemma regex_exec_None re s :
  regex_exec re s = None <-> forall pre rest, s = pre ++ rest -> match_pieces re rest = None.
Proof.
  induction s as [|c s IH]; simpl.
  - destruct (match_pieces re []) as [[[m caps] r']|] eqn:H.
    + split; [done |]. intros H'. by rewrite (H' [] []) in H.
    + split; [|done]. intros _ pre rest Hs.
      symmetry in Hs. apply app_eq_nil in Hs as [_ ->]. done.
  - destruct (match_pieces re (c :: s)) as [[[m caps] r']|] eqn:H.
    + split; [done |]. intros H'. by rewrite (H' [] (c :: s)) in H.
    + destruct (regex_exec re s) as [r0|] eqn:H0.
      * split; [done |]. intros H'.
        assert (Some r0 = None) as Habs; [|done].
        apply IH. intros pre rest ->. by apply (H' (c :: pre)).
      * split; [|done]. intros _ pre rest Hs.
        destruct pre as [|c' pre]; simpl in Hs; [by subst rest |].
        injection Hs as -> ->. destruct IH as [IH _]. by apply (IH eq_refl pre).
Qed.
Lemma atom_ok_Lit c x : atom_ok (Lit c) x <-> x = c.
Proof. unfold atom_ok; simpl. apply Z.eqb_eq. Qed.

Lemma is_digit_true c : is_digit c = true <-> digit c.
Proof. unfold is_digit, digit. rewrite andb_true_iff, !Z.leb_le. done. Qed.

Lemma atom_ok_Digit x : atom_ok Digit x <-> digit x.
Proof. apply is_digit_true. Qed.

Lemma atom_ok_SpaceOrT x : atom_ok SpaceOrT x <-> x = 32 \/ x = 84.
Proof. unfold atom_ok; simpl. by rewrite orb_true_iff, !Z.eqb_eq. Qed.

Ltac invert_Forall2 :=
  repeat match goal with
         | H : Forall2 _ (_ :: _) _ |- _ => inversion H; subst; clear H
         | H : Forall2 _ [] _ |- _ => inversion H; subst; clear H
         | H : atom_ok (Lit _) _ |- _ => apply atom_ok_Lit in H; subst
         | H : atom_ok Digit _ |- _ => apply atom_ok_Digit in H
         | H : atom_ok SpaceOrT _ |- _ => apply atom_ok_SpaceOrT in H
         end.

Ltac invert_Forall :=
  repeat match goal with
         | H : Forall _ (_ :: _) |- _ => inversion H; subst; clear H
         | H : Forall _ [] |- _ => clear H
         end.

(** The expression matches exactly the spans of the described shape. *)
Lemma regex_atoms_span m :
  Forall2 atom_ok (atoms_of regex) m
  <-> exists date sep h1 h2 suffix,
        span_shape date sep h1 h2 suffix /\ m = span date sep [h1; h2] suffix.
Proof.
  split.
  - intros H.
    let l := eval vm_compute in (atoms_of regex) in change (atoms_of regex) with l in H.
    invert_Forall2.
    match goal with
    | |- context [ [_; _; _; _; _; _; _; _; _; _; _;
                    ?y1; ?y2; ?y3; ?y4; _; ?m1; ?m2; _; ?d1; ?d2;
                    ?sep; ?h1; ?h2; _; ?a; ?b; _; ?c; ?d] ] =>
        exists [y1; y2; y3; y4; 45; m1; m2; 45; d1; d2], sep, h1, h2, [58; a; b; 58; c; d]
    end.
    split; [|reflexivity].
    split; [|split; [done | split; [done | split; [done |]]]].
    + do 8 eexists. split; [reflexivity |].
      repeat (constructor; [assumption |]). constructor.
    + do 4 eexists. split; [reflexivity |].
      repeat (constructor; [assumption |]). constructor.
  - intros (date & sep & h1 & h2 & suffix & (Hd & Hsep & Hh1 & Hh2 & Hs) & ->).
    destruct Hd as (y1 & y2 & y3 & y4 & m1 & m2 & d1 & d2 & -> & Hd).
    destruct Hs as (a & b & c & d & -> & Hs).
    invert_Forall.
    let l := eval vm_compute in (atoms_of regex) in change (atoms_of regex) with l.
    unfold span.
    let l := eval vm_compute in (lit "createTime=") in change (lit "createTime=") with l.
    simpl.
    repeat (constructor;
            [first [ by apply atom_ok_Digit | by apply atom_ok_SpaceOrT | reflexivity ] |]).
    constructor.
Qed.

Lemma regex_captures date sep h1 h2 suffix :
  span_shape date sep h1 h2 suffix ->
  captures_of regex (span date sep [h1; h2] suffix) = [date; [sep]; [h1; h2]; suffix].
Proof.
  intros (Hd & _ & _ & _ & Hs).
  destruct Hd as (y1 & y2 & y3 & y4 & m1 & m2 & d1 & d2 & -> & _).
  destruct Hs as (a & b & c & d & -> & _).
  reflexivity.
Qed.

Lemma regex_match_here s m caps r :
  match_pieces regex s = Some (m, caps, r)
  <-> exists date sep h1 h2 suffix,
        span_shape date sep h1 h2 suffix
        /\ m = span date sep [h1; h2] suffix
        /\ caps = [date; [sep]; [h1; h2]; suffix]
        /\ s = m ++ r.
Proof.
  rewrite match_pieces_Some, regex_atoms_span. split.
  - intros (-> & (date & sep & h1 & h2 & suffix & Hshape & ->) & ->).
    exists date, sep, h1, h2, suffix. by rewrite regex_captures.
  - intros (date & sep & h1 & h2 & suffix & Hshape & -> & -> & ->).
    split; [done |]. split; [by exists date, sep, h1, h2, suffix |].
    by rewrite regex_captures.
Qed.

Lemma pattern_at_match_here t pre date sep h1 h2 suffix post :
  pattern_at t pre date sep h1 h2 suffix post ->
  match_pieces regex (span date sep [h1; h2] suffix ++ post)
  = Some (span date sep [h1; h2] suffix, [date; [sep]; [h1; h2]; suffix], post).
Proof.
  intros [_ Hshape]. apply regex_match_here.
  by exists date, sep, h1, h2, suffix.
Qed.

Lemma regex_exec_pattern_at t r :
  regex_exec regex t = Some r ->
  exists date sep h1 h2 suffix,
    pattern_at t (before r) date sep h1 h2 suffix (after r)
    /\ matched r = span date sep [h1; h2] suffix
    /\ captures r = [date; [sep]; [h1; h2]; suffix].
Proof.
  intros H. apply regex_exec_Some in H as (Ht & Hm & _).
  apply regex_match_here in Hm as (date & sep & h1 & h2 & suffix & Hshape & Hm & Hc & _).
  exists date, sep, h1, h2, suffix. split; [|done].
  split; [|done]. by rewrite <- Hm.
Qed.

Lemma no_match_regex_exec t : ~ pattern_matches t <-> regex_exec regex t = None.
Proof.
  split.
  - intros Hno. destruct (regex_exec regex t) as [r|] eqn:H; [|done].
    apply regex_exec_pattern_at in H as (date & sep & h1 & h2 & suffix & H & _).
    destruct Hno. by exists (before r), date, sep, h1, h2, suffix, (after r).
  - intros H (pre & date & sep & h1 & h2 & suffix & post & Hat).
    pose proof (pattern_at_match_here _ _ _ _ _ _ _ _ Hat) as Hm.
    destruct Hat as [Ht _].
    rewrite regex_exec_None in H. rewrite (H pre _ Ht) in Hm. done.
Qed.

Lemma first_match_regex_exec t pre date sep h1 h2 suffix post :
  first_match t pre date sep h1 h2 suffix post ->
  regex_exec regex t
  = Some {| before := pre; matched := span date sep [h1; h2] suffix;
            captures := [date; [sep]; [h1; h2]; suffix]; after := post |}.
Proof.
  intros [Hat Hfirst].
  pose proof (pattern_at_match_here _ _ _ _ _ _ _ _ Hat) as Hm.
  destruct (regex_exec regex t) as [r|] eqn:H.
  - pose proof (regex_exec_pattern_at _ _ H)
      as (date' & sep' & h1' & h2' & suffix' & Hat' & Hm' & Hc').
    apply Hfirst in Hat' as Hle.
    apply regex_exec_Some in H as (Ht & Hr & Hnone).
    destruct Hat as [Ht0 _].
    assert (length pre = length (before r)) as Hlen.
    { destruct (decide (length pre < length (before r))%nat) as [Hlt|]; [|lia].
      rewrite (Hnone pre _ Ht0 Hlt) in Hm. done. }
    rewrite Ht0 in Ht. apply app_inj_1 in Ht as [Hpre Hrest]; [|done].
    rewrite Hrest, Hr in Hm. destruct r; simpl in *. congruence.
  - apply no_match_regex_exec in H. destruct H.
    by exists pre, date, sep, h1, h2, suffix, post.
Qed.
Lemma GetSubstitution_cons r c t :
  c <> 36 -> GetSubstitution r (c :: t) = c :: GetSubstitution r t.
Proof.
  intros Hc. destruct c as [|p|p]; [reflexivity | | reflexivity].
  do 6 (destruct p as [p|p|]; try reflexivity). done.
Qed.

(** A template without [$] is substituted as it is. *)
Lemma GetSubstitution_plain r t :
  Forall (fun c => c <> 36) t -> GetSubstitution r t = t.
Proof.
  induction 1 as [|c t Hc _ IH]; [reflexivity |].
  by rewrite GetSubstitution_cons, IH.
Qed.

Ltac digit_cases h :=
  let Hc := fresh "Hc" in
  assert (h = 48 \/ h = 49 \/ h = 50 \/ h = 51 \/ h = 52 \/ h = 53 \/ h = 54
          \/ h = 55 \/ h = 56 \/ h = 57) as Hc by (unfold digit in *; lia);
  repeat (destruct Hc as [->|Hc]); [..|subst h].

(** The hour as the source recomputes it is the hour plus one modulo 24,
    written with two digits. *)
Lemma new_hour h1 h2 :
  digit h1 -> digit h2 ->
  padStart (Number_toString (Number_rem (Number_add (parseInt [h1; h2]) 1) 24))
           2 (lit "0")
  = two_digits ((hour_value h1 h2 + 1) mod 24).
Proof.
  intros H1 H2. digit_cases h1; digit_cases h2; vm_compute; reflexivity.
Qed.

Lemma new_hour_differs h1 h2 :
  digit h1 -> digit h2 ->
  two_digits ((hour_value h1 h2 + 1) mod 24) <> [h1; h2].
Proof.
  intros H1 H2. digit_cases h1; digit_cases h2; vm_compute; discriminate.
Qed.

Lemma new_hour_digits h1 h2 :
  digit h1 -> digit h2 ->
  Forall digit (two_digits ((hour_value h1 h2 + 1) mod 24)).
Proof.
  intros H1 H2.
  digit_cases h1; digit_cases h2; vm_compute;
    repeat (constructor; [split; discriminate |]); constructor.
Qed.

Lemma digit_not_dollar c : digit c -> c <> 36.
Proof. unfold digit. lia. Qed.

Lemma span_plain date sep h1 h2 suffix hour :
  span_shape date sep h1 h2 suffix -> Forall digit hour ->
  Forall (fun c => c <> 36) (span date sep hour suffix).
Proof.
  intros (Hd & Hsep & _ & _ & Hs) Hhour.
  destruct Hd as (y1 & y2 & y3 & y4 & m1 & m2 & d1 & d2 & -> & Hd).
  destruct Hs as (a & b & c & d & -> & Hs).
  unfold span. rewrite !Forall_app. split; [|split; [|split; [|split]]].
  - let l := eval vm_compute in (lit "createTime=") in
    change (lit "createTime=") with l.
    repeat (constructor; [discriminate |]). constructor.
  - invert_Forall.
    repeat (constructor; [first [by apply digit_not_dollar | discriminate] |]).
    constructor.
  - constructor; [destruct Hsep as [-> | ->]; discriminate | constructor].
  - eapply Forall_impl; [exact Hhour |]. apply digit_not_dollar.
  - invert_Forall.
    repeat (constructor; [first [by apply digit_not_dollar | discriminate] |]).
    constructor.
Qed.

(** What [modifyCreateTime] computes on a text whose first match is known. *)
Lemma modifyCreateTime_first_match t pre date sep h1 h2 suffix post :
  first_match t pre date sep h1 h2 suffix post ->
  modifyCreateTime t
  = pre ++ span date sep (two_digits ((hour_value h1 h2 + 1) mod 24)) suffix ++ post.
Proof.
  intros Hfirst.
  pose proof (first_match_regex_exec _ _ _ _ _ _ _ _ Hfirst) as Hexec.
  destruct Hfirst as [[_ Hshape] _].
  pose proof Hshape as (_ & _ & Hh1 & Hh2 & _).
  unfold modifyCreateTime, String_match, String_replace. rewrite Hexec.
  cbn [before after matched captures].
  unfold newTime_of. cbn [nth]. rewrite new_hour by done.
  change (lit "createTime=" ++ date ++ [sep]
          ++ two_digits ((hour_value h1 h2 + 1) mod 24) ++ suffix)
    with (span date sep (two_digits ((hour_value h1 h2 + 1) mod 24)) suffix).
  rewrite GetSubstitution_plain; [reflexivity |].
  eapply span_plain; [exact Hshape | by apply new_hour_digits].
Qed.

Lemma lookup_replace_middle (p x y q : text) (i : nat) :
  length x = length y ->
  (i < length p \/ length p + length x <= i)%nat ->
  (p ++ x ++ q) !! i = (p ++ y ++ q) !! i.
Proof.
  intros Hlen [Hi | Hi].
  - by rewrite !lookup_app_l.
  - rewrite !(lookup_app_r p) by lia.
    rewrite !lookup_app_r by lia. by rewrite Hlen.
Qed.

Lemma modifyCreateTime_no_match t : ~ pattern_matches t -> modifyCreateTime t = t.
Proof.
  intros H. apply no_match_regex_exec in H.
  unfold modifyCreateTime, String_match. by rewrite H.
Qed.

(** The match that the search finds is the first one. *)
Lemma regex_exec_first_match t r date sep h1 h2 suffix :
  regex_exec regex t = Some r ->
  captures r = [date; [sep]; [h1; h2]; suffix] ->
  first_match t (before r) date sep h1 h2 suffix (after r).
Proof.
  intros H Hcaps.
  pose proof (regex_exec_pattern_at _ _ H)
    as (date' & sep' & h1' & h2' & suffix' & Hat & _ & Hcaps').
  rewrite Hcaps in Hcaps'. injection Hcaps' as <- <- <- <- <-.
  split; [done |].
  intros pre' date' sep' h1' h2' suffix' post' Hat'.
  apply regex_exec_Some in H as (_ & _ & Hnone).
  destruct (decide (length pre' < length (before r))%nat) as [Hlt|]; [|lia].
  pose proof (pattern_at_match_here _ _ _ _ _ _ _ _ Hat') as Hhere.
  destruct Hat' as [Ht' _]. rewrite (Hnone pre' _ Ht' Hlt) in Hhere. done.
Qed.

(** When the pattern matches somewhere, it has a first match. *)
Lemma pattern_matches_first t :
  pattern_matches t ->
  exists pre date sep h1 h2 suffix post, first_match t pre date sep h1 h2 suffix post.
Proof.
  intros Hm. destruct (regex_exec regex t) as [r|] eqn:H.
  - pose proof (regex_exec_pattern_at _ _ H)
      as (date & sep & h1 & h2 & suffix & _ & _ & Hcaps).
    exists (before r), date, sep, h1, h2, suffix, (after r).
    by apply regex_exec_first_match.
  - apply no_match_regex_exec in H. done.
Qed.

Lemma modifyCreateTime_match_differs t :
  pattern_matches t -> modifyCreateTime t <> t.
Proof.
  intros Hm.
  destruct (pattern_matches_first t Hm)
    as (pre & date & sep & h1 & h2 & suffix & post & Hfirst).
  rewrite (modifyCreateTime_first_match _ _ _ _ _ _ _ _ Hfirst).
  destruct Hfirst as [[Ht (_ & _ & Hh1 & Hh2 & _)] _].
  rewrite Ht. unfold span. intros Heq.
  apply app_inv_head in Heq. rewrite <- !app_assoc in Heq.
  do 3 apply app_inv_head in Heq.
  apply app_inj_1 in Heq as [Heq _]; [|reflexivity].
  by apply (new_hour_differs h1 h2).
Qed.

Lemma str_eqb_false a b : str_eqb a b = false <-> a <> b.
Proof. unfold str_eqb. apply bool_decide_eq_false. Qed.

Lemma str_eqb_true a b : str_eqb a b = true <-> a = b.
Proof. unfold str_eqb. apply bool_decide_eq_true. Qed.

Lemma modifyCreateTime_changed_iff t :
  str_eqb (modifyCreateTime t) t = false <-> pattern_matches t.
Proof.
  rewrite str_eqb_false. split.
  - intros Hne. destruct (regex_exec regex t) eqn:H.
    + apply regex_exec_pattern_at in H as (date & sep & h1 & h2 & suffix & Hat & _).
      by exists (before m), date, sep, h1, h2, suffix, (after m).
    + apply no_match_regex_exec in H. by apply modifyCreateTime_no_match in H.
  - apply modifyCreateTime_match_differs.
Qed.

Lemma regex_exec_matches t r : regex_exec regex t = Some r -> pattern_matches t.
Proof.
  intros H.
  apply regex_exec_pattern_at in H as (date & sep & h1 & h2 & suffix & Hat & _).
  by exists (before r), date, sep, h1, h2, suffix, (after r).
Qed.

Lemma span_front date sep hour suffix post pre :
  pre ++ span date sep hour suffix ++ post
  = (pre ++ lit "createTime=" ++ date ++ [sep]) ++ hour ++ suffix ++ post.
Proof. unfold span. by rewrite <- !app_assoc. Qed.

Lemma span_front_length date sep h1 h2 suffix (pre : text) :
  span_shape date sep h1 h2 suffix ->
  length (pre ++ lit "createTime=" ++ date ++ [sep]) = (length pre + 22)%nat.
Proof.
  intros ((y1 & y2 & y3 & y4 & m1 & m2 & d1 & d2 & -> & _) & _).
  rewrite length_app. reflexivity.
Qed.

(** C1: when the pattern matches, [modifyCreateTime] returns the text with
    the first matched span rewritten and nothing else: the two-digit hour is
    read as an integer, one is added modulo 24 (23 becomes 00, the date
    stays), the result is written with two digits between the date with its
    separator and the suffix, and every code unit outside the two hour
    positions is the one of the input. *)
Theorem modifyCreateTime_bumps_first_hour t :
  pattern_matches t ->
  (exists pre date sep h1 h2 suffix post,
      first_match t pre date sep h1 h2 suffix post)
  /\ forall pre date sep h1 h2 suffix post,
       first_match t pre date sep h1 h2 suffix post ->
       modifyCreateTime t
       = pre ++ lit "createTime=" ++ date ++ [sep]
             ++ two_digits ((hour_value h1 h2 + 1) mod 24) ++ suffix ++ post
       /\ length (modifyCreateTime t) = length t
       /\ forall i : nat,
            i <> (length pre + 22)%nat -> i <> (length pre + 23)%nat ->
            modifyCreateTime t !! i = t !! i.
Proof.
  intros Hm. split; [by apply pattern_matches_first |].
  intros pre date sep h1 h2 suffix post Hfirst.
  pose proof (modifyCreateTime_first_match _ _ _ _ _ _ _ _ Hfirst) as Hres.
  destruct Hfirst as [[Ht Hshape] _].
  pose proof (span_front_length _ _ _ _ _ pre Hshape) as Hlen.
  rewrite span_front in Hres, Ht.
  split; [rewrite Hres; by rewrite <- !app_assoc |].
  split.
  - rewrite Hres, Ht. rewrite !length_app. reflexivity.
  - intros i Hi1 Hi2. rewrite Hres, Ht.
    apply lookup_replace_middle; [reflexivity |].
    rewrite Hlen. simpl. lia.
Qed.

Lemma modifyCreateTime_bumps_first_hour_witness :
  modifyCreateTime (lit "a=1&createTime=2024-01-01 23:00:00&b=2")
  = lit "a=1&createTime=2024-01-01 00:00:00&b=2".
Proof.
  assert (pattern_matches (lit "a=1&createTime=2024-01-01 23:00:00&b=2")) as Hm.
  { apply (regex_exec_matches _
             {| before := lit "a=1&";
                matched := lit "createTime=2024-01-01 23:00:00";
                captures := [lit "2024-01-01"; [32]; [50; 51]; lit ":00:00"];
                after := lit "&b=2" |}).
    vm_compute. reflexivity. }
  destruct (modifyCreateTime_bumps_first_hour _ Hm) as [_ H].
  destruct (H (lit "a=1&") (lit "2024-01-01") 32 50 51 (lit ":00:00") (lit "&b=2"))
    as [Hres _].
  - apply (regex_exec_first_match _
             {| before := lit "a=1&";
                matched := lit "createTime=2024-01-01 23:00:00";
                captures := [lit "2024-01-01"; [32]; [50; 51]; lit ":00:00"];
                after := lit "&b=2" |}); vm_compute; reflexivity.
  - rewrite Hres. vm_compute. reflexivity.
Defined.

(** C9: on a text in which the pattern does not match, [modifyCreateTime]
    returns the text itself, code unit for code unit, and the comparison of
    the callers finds it unchanged; nothing is displayed and nothing is
    thrown. *)
Theorem modifyCreateTime_no_match_unchanged t :
  ~ pattern_matches t ->
  modifyCreateTime t = t
  /\ changed t = false
  /\ modifyCreateTime_deadline t = None.
Proof.
  intros Hno. pose proof (modifyCreateTime_no_match t Hno) as Hsame.
  split; [done |]. split.
  - unfold changed. rewrite Hsame. unfold str_eqb.
    by rewrite bool_decide_eq_true_2.
  - apply no_match_regex_exec in Hno.
    unfold modifyCreateTime_deadline, String_match. by rewrite Hno.
Qed.

Lemma modifyCreateTime_no_match_unchanged_witness :
  modifyCreateTime (lit "no such field here") = lit "no such field here"
  /\ changed (lit "no such field here") = false
  /\ modifyCreateTime_deadline (lit "no such field here") = None.
Proof.
  apply (modifyCreateTime_no_match_unchanged (lit "no such field here")).
  apply no_match_regex_exec. vm_compute. reflexivity.
Defined.

(** The deviations named with the pattern: a three-digit hour, missing
    seconds, another date delimiter. *)
Example modifyCreateTime_deviations :
  ~ pattern_matches (lit "createTime=2024-01-01 123:00:00")
  /\ ~ pattern_matches (lit "createTime=2024-01-01 12:00")
  /\ ~ pattern_matches (lit "createTime=2024/01/01 12:00:00").
Proof.
  repeat split; apply no_match_regex_exec; vm_compute; reflexivity.
Qed.


Example modify_23 :
  modifyCreateTime (lit "a=1&createTime=2024-01-01 23:00:00&b=2")
  = lit "a=1&createTime=2024-01-01 00:00:00&b=2".
Proof. vm_compute. reflexivity. Qed.

Example modify_05_twice :
  modifyCreateTime (lit "createTime=2024-01-01T05:00:00") = lit "createTime=2024-01-01T06:00:00"
  /\ modifyCreateTime (lit "createTime=2024-01-01T06:00:00") = lit "createTime=2024-01-01T07:00:00".
Proof. split; vm_compute; reflexivity. Qed.

(** A two-digit hour above 23 is matched as well and reduced modulo 24. *)
Example modify_hour_99 :
  modifyCreateTime (lit "createTime=2024-01-01 99:00:00") = lit "createTime=2024-01-01 04:00:00".
Proof. vm_compute. reflexivity. Qed.

(** * Sorting *)

Section Sorting.
Context {A : Type} (cmp : A -> A -> Z).

Lemma sort_insert_Permutation x l : Permutation (x :: l) (sort_insert cmp x l).
Proof.
  induction l as [|y l IH]; simpl; [done |].
  destruct (cmp x y <=? 0); [done |].
  rewrite perm_swap. by constructor.
Qed.

Lemma Array_sort_Permutation l : Permutation l (Array_sort cmp l).
Proof.
  induction l as [|x l IH]; simpl; [done |].
  rewrite <- sort_insert_Permutation. by constructor.
Qed.

Hypothesis cmp_total : forall x y, cmp x y <= 0 \/ cmp y x <= 0.
Hypothesis cmp_trans : forall x y z, cmp x y <= 0 -> cmp y z <= 0 -> cmp x z <= 0.

Lemma sort_insert_sorted x l :
  StronglySorted (fun a b => cmp a b <= 0) l ->
  StronglySorted (fun a b => cmp a b <= 0) (sort_insert cmp x l).
Proof.
  induction 1 as [|y l Hl IH Hy]; simpl.
  - repeat constructor.
  - destruct (cmp x y <=? 0) eqn:Hxy.
    + apply Z.leb_le in Hxy. constructor; [by constructor |].
      constructor; [done |].
      eapply Forall_impl; [exact Hy |]. intros z Hz. by eapply cmp_trans.
    + apply Z.leb_gt in Hxy. constructor; [done |].
      rewrite <- sort_insert_Permutation. constructor; [|done].
      destruct (cmp_total x y); lia.
Qed.

Lemma Array_sort_sorted l :
  StronglySorted (fun a b => cmp a b <= 0) (Array_sort cmp l).
Proof.
  induction l as [|x l IH]; simpl; [constructor |].
  by apply sort_insert_sorted.
Qed.
End Sorting.



Section SortByKey.
Context {A : Type} (key : A -> Z).


End SortByKey.


(** * Doubles *)

Lemma round_half_even_spec n d :
  0 < d ->
  2 * round_half_even n d * d - d <= 2 * n <= 2 * round_half_even n d * d + d.
Proof.
  intros Hd. unfold round_half_even.
  pose proof (Z.div_mod n d ltac:(lia)) as Hdm.
  pose proof (Z.mod_pos_bound n d Hd) as Hbd.
  destruct (Z.ltb_spec (2 * (n mod d)) d); [nia |].
  destruct (Z.ltb_spec d (2 * (n mod d))); [nia |].
  destruct (Z.even (n / d)); nia.
Qed.

Lemma round_half_even_mul m d : 0 < d -> round_half_even (m * d) d = m.
Proof.
  intros Hd. unfold round_half_even.
  rewrite Z.div_mul, Z.mod_mul by lia.
  by destruct (Z.ltb_spec (2 * 0) d); [|lia].
Qed.

Lemma round_half_even_ge n d k : 0 < d -> k * d <= n -> k <= round_half_even n d.
Proof. intros Hd Hk. pose proof (round_half_even_spec n d Hd). nia. Qed.

Lemma scaled_neg p q e : e < 0 -> scaled p q e = (p * 2 ^ (- e), q).
Proof. intros He. unfold scaled. by destruct (Z.ltb_spec e 0); [|lia]. Qed.

Lemma scaled_nonneg p q e : 0 <= e -> scaled p q e = (p, q * 2 ^ e).
Proof. intros He. unfold scaled. by destruct (Z.ltb_spec e 0); [lia|]. Qed.

Lemma binary64_exponent_cases p q :
  binary64_exponent p q = Z.log2 p - Z.log2 q - 53
  \/ binary64_exponent p q = Z.log2 p - Z.log2 q - 53 + 1.
Proof.
  unfold binary64_exponent.
  destruct (scaled p q (Z.log2 p - Z.log2 q - 53 + 1)) as [n d].
  destruct (2 ^ 52 * d <=? n); [by right | by left].
Qed.

(** The chosen exponent makes the scaled fraction at least [2 ^ 52]. *)
Lemma binary64_exponent_normal p q :
  0 < p -> 0 < q ->
  0 < snd (scaled p q (binary64_exponent p q))
  /\ 2 ^ 52 * snd (scaled p q (binary64_exponent p q))
     <= fst (scaled p q (binary64_exponent p q)).
Proof.
  intros Hp Hq.
  assert (forall e, 0 < snd (scaled p q e)) as Hden.
  { intros e. unfold scaled. destruct (Z.ltb_spec e 0); cbn [snd]; [done |].
    pose proof (Z.pow_pos_nonneg 2 e ltac:(lia) ltac:(lia)). nia. }
  split; [apply Hden |].
  unfold binary64_exponent.
  destruct (scaled p q (Z.log2 p - Z.log2 q - 53 + 1)) as [n d] eqn:Hs.
  destruct (Z.leb_spec (2 ^ 52 * d) n) as [Hle | _].
  { by rewrite Hs. }
  set (a := Z.log2 p). set (b := Z.log2 q).
  pose proof (Z.log2_spec p Hp) as [Hpa _]. fold a in Hpa.
  pose proof (Z.log2_spec q Hq) as [_ Hqb]. fold b in Hqb.
  pose proof (Z.log2_nonneg p) as Ha. fold a in Ha.
  pose proof (Z.log2_nonneg q) as Hb. fold b in Hb.
  rewrite Z.pow_succ_r in Hqb by done.
  destruct (Z.ltb_spec (a - b - 53) 0) as [Hneg | Hpos].
  - rewrite scaled_neg by done. cbn [fst snd].
    assert (2 ^ a * 2 ^ (- (a - b - 53)) = 2 ^ 53 * 2 ^ b) as Hpow.
    { rewrite <- !Z.pow_add_r by lia. f_equal. lia. }
    pose proof (Z.pow_pos_nonneg 2 (- (a - b - 53)) ltac:(lia) ltac:(lia)).
    change (2 ^ 53) with (2 * 2 ^ 52) in Hpow. nia.
  - rewrite scaled_nonneg by done. cbn [fst snd].
    assert (2 ^ 53 * 2 ^ b * 2 ^ (a - b - 53) = 2 ^ a) as Hpow.
    { rewrite <- !Z.pow_add_r by lia. f_equal. lia. }
    pose proof (Z.pow_pos_nonneg 2 (a - b - 53) ltac:(lia) ltac:(lia)).
    change (2 ^ 53) with (2 * 2 ^ 52) in Hpow. nia.
Qed.

Lemma binary64_positive p q :
  0 < p -> 0 < q ->
  mantissa (binary64 p q)
  = round_half_even (fst (scaled p q (binary64_exponent p q)))
                    (snd (scaled p q (binary64_exponent p q)))
  /\ exponent (binary64 p q) = binary64_exponent p q
  /\ 2 ^ 52 <= mantissa (binary64 p q).
Proof.
  intros Hp Hq. unfold binary64.
  destruct (Z.eqb_spec p 0) as [|_]; [lia |].
  rewrite Z.abs_eq, Z.sgn_pos by lia.
  destruct (binary64_exponent_normal p q Hp Hq) as [Hd Hn].
  destruct (scaled p q (binary64_exponent p q)) as [n d]. cbn [fst snd] in *.
  cbn [mantissa exponent]. rewrite Z.mul_1_l.
  split; [done |]. split; [done |]. by apply round_half_even_ge.
Qed.

Lemma binary64_opp p q :
  mantissa (binary64 (- p) q) = - mantissa (binary64 p q)
  /\ exponent (binary64 (- p) q) = exponent (binary64 p q).
Proof.
  unfold binary64. destruct (Z.eqb_spec p 0) as [-> | Hp]; [done |].
  destruct (Z.eqb_spec (- p) 0) as [|_]; [lia |].
  rewrite Z.abs_opp, Z.sgn_opp.
  destruct (scaled (Z.abs p) q (binary64_exponent (Z.abs p) q)) as [n d].
  cbn [mantissa exponent]. split; [lia | done].
Qed.

(** The double nearest to a positive integer: the integer itself up to
    [2 ^ 53], and an integer with a non-negative exponent above. *)
Lemma binary64_integer p :
  0 < p ->
  (p <= 2 ^ 53 ->
   (exponent (binary64 p 1) < 0
    /\ mantissa (binary64 p 1) = p * 2 ^ (- exponent (binary64 p 1)))
   \/ (0 <= exponent (binary64 p 1)
       /\ mantissa (binary64 p 1) * 2 ^ exponent (binary64 p 1) = p))
  /\ (2 ^ 53 < p -> 0 <= exponent (binary64 p 1)).
Proof.
  intros Hp.
  destruct (binary64_positive p 1 Hp ltac:(lia)) as (Hm & He & _).
  rewrite Hm, He. clear Hm He.
  pose proof (Z.log2_spec p Hp) as [Hlo Hhi].
  pose proof (Z.log2_nonneg p) as Ha.
  pose proof (binary64_exponent_cases p 1) as Hcases.
  change (Z.log2 1) with 0 in Hcases.
  set (e := binary64_exponent p 1) in *.
  split.
  - intros Hle.
    assert (Z.log2 p <= 53) as Hlog.
    { destruct (Z.le_gt_cases (Z.log2 p) 53) as [|Hgt]; [done |].
      assert (2 ^ 54 <= 2 ^ Z.log2 p) by (apply Z.pow_le_mono_r; lia).
      change (2 ^ 54) with (2 * 2 ^ 53) in *. lia. }
    destruct (Z.ltb_spec e 0) as [Hneg | Hpos].
    + left. split; [done |]. rewrite scaled_neg by done. cbn [fst snd].
      rewrite <- (Z.mul_1_r (p * 2 ^ (- e))) at 1.
      by rewrite round_half_even_mul.
    + right. split; [done |]. rewrite scaled_nonneg by done. cbn [fst snd].
      assert (e = 0 \/ (e = 1 /\ p = 2 ^ 53)) as [-> | [-> ->]].
      { destruct (Z.eq_dec e 0) as [|Hne]; [by left | right].
        assert (Z.log2 p = 53) as Hl by lia. rewrite Hl in Hlo. lia. }
      * change (1 * 2 ^ 0) with 1. rewrite <- (Z.mul_1_r p) at 1.
        rewrite round_half_even_mul by done. change (2 ^ 0) with 1. lia.
      * reflexivity.
  - intros Hgt.
    assert (53 <= Z.log2 p) as Hlog.
    { destruct (Z.le_gt_cases 53 (Z.log2 p)) as [|Hlt]; [done |].
      assert (2 ^ (Z.succ (Z.log2 p)) <= 2 ^ 53) by (apply Z.pow_le_mono_r; lia).
      lia. }
    lia.
Qed.

(** The difference of two integers at most [2 ^ 53] apart is exact. *)
Lemma Number_sub_exact a b :
  - 2 ^ 53 <= a - b <= 2 ^ 53 -> Number_sub a b = a - b.
Proof.
  intros Hd. unfold Number_sub.
  destruct (Z.lt_trichotomy (a - b) 0) as [Hneg | [Hz | Hpos]].
  - destruct (binary64_opp (b - a) 1) as [Hm He].
    replace (- (b - a)) with (a - b) in * by lia. rewrite Hm, He.
    destruct (binary64_integer (b - a) ltac:(lia)) as [Hex _].
    destruct Hex as [[Hlt Hman] | [Hge Hval]]; [lia | |].
    + destruct (Z.ltb_spec (exponent (binary64 (b - a) 1)) 0); [|lia].
      rewrite Hman.
      pose proof (Z.pow_pos_nonneg 2 (- exponent (binary64 (b - a) 1))
                    ltac:(lia) ltac:(lia)).
      rewrite <- Z.mul_opp_l, Z.div_mul by lia. lia.
    + destruct (Z.ltb_spec (exponent (binary64 (b - a) 1)) 0); [lia|].
      rewrite Z.mul_opp_l, Hval. lia.
  - rewrite Hz. reflexivity.
  - destruct (binary64_integer (a - b) Hpos) as [Hex _].
    destruct Hex as [[Hlt Hman] | [Hge Hval]]; [lia | |].
    + destruct (Z.ltb_spec (exponent (binary64 (a - b) 1)) 0); [|lia].
      rewrite Hman.
      pose proof (Z.pow_pos_nonneg 2 (- exponent (binary64 (a - b) 1))
                    ltac:(lia) ltac:(lia)).
      by rewrite Z.div_mul by lia.
    + by destruct (Z.ltb_spec (exponent (binary64 (a - b) 1)) 0); [lia|].
Qed.

(** Above [2 ^ 53] the rounded difference is still large. *)
Lemma Number_sub_large a b : 2 ^ 53 < a - b -> 2 ^ 52 <= Number_sub a b.
Proof.
  intros Hd. unfold Number_sub.
  destruct (binary64_integer (a - b) ltac:(lia)) as [_ He].
  specialize (He Hd).
  destruct (binary64_positive (a - b) 1 ltac:(lia) ltac:(lia)) as (_ & _ & Hm).
  destruct (Z.ltb_spec (exponent (binary64 (a - b) 1)) 0); [lia|].
  pose proof (Z.pow_pos_nonneg 2 (exponent (binary64 (a - b) 1))
                ltac:(lia) ltac:(lia)).
  nia.
Qed.

(** The rounded difference has the sign of the exact one. *)
Lemma Number_sub_sign a b : Number_sub a b <= 0 <-> a - b <= 0.
Proof.
  destruct (Z.le_gt_cases (a - b) (2 ^ 53)) as [Hle | Hgt].
  - destruct (Z.le_gt_cases (- 2 ^ 53) (a - b)) as [Hge | Hlt].
    + by rewrite Number_sub_exact.
    + split; [lia |]. intros _. unfold Number_sub.
      destruct (binary64_opp (b - a) 1) as [Hm He].
      replace (- (b - a)) with (a - b) in * by lia. rewrite Hm, He.
      destruct (binary64_integer (b - a) ltac:(lia)) as [_ Hexp].
      specialize (Hexp ltac:(lia)).
      destruct (binary64_positive (b - a) 1 ltac:(lia) ltac:(lia)) as (_ & _ & Hman).
      destruct (Z.ltb_spec (exponent (binary64 (b - a) 1)) 0); [lia|].
      pose proof (Z.pow_pos_nonneg 2 (exponent (binary64 (b - a) 1))
                    ltac:(lia) ltac:(lia)).
      nia.
  - pose proof (Number_sub_large a b Hgt). lia.
Qed.

(** ** Rounding a quotient *)

(** For an integer up to [2 ^ 53] and an even divisor [b] strictly between
    [2 ^ l] and [2 ^ (l + 1)], rounding the double of the quotient gives
    the rounding of the exact quotient. *)
Lemma Math_round_Number_div d b l :
  0 <= d <= 2 ^ 53 -> 1 <= l -> 2 ^ l < b < 2 ^ (l + 1) -> Z.even b = true ->
  Math_round (Number_div d b) = Math_round_div d b.
Proof.
  intros Hd Hl Hb Heven.
  assert (0 < 2 ^ l) as Hpl by (apply Z.pow_pos_nonneg; lia).
  destruct (Z.eq_dec d 0) as [-> | Hnz].
  { unfold Math_round_div. cbn. symmetry. apply Z.div_small. lia. }
  unfold Number_div, Math_round.
  destruct (binary64_positive d b ltac:(lia) ltac:(lia)) as (Hm & He & _).
  destruct (binary64_exponent_normal d b ltac:(lia) ltac:(lia)) as [_ Hn].
  rewrite Hm, He. set (e := binary64_exponent d b) in *.
  assert (2 <= 2 ^ l) as Hl2.
  { change 2 with (2 ^ 1) at 1. apply Z.pow_le_mono_r; lia. }
  destruct (Z.ltb_spec e 0) as [Hneg | Hpos]; cycle 1.
  { rewrite scaled_nonneg in Hn by done. cbn [fst snd] in Hn.
    pose proof (Z.pow_pos_nonneg 2 e ltac:(lia) ltac:(lia)).
    change (2 ^ 53) with (2 * 2 ^ 52) in Hd. nia. }
  rewrite scaled_neg in * by done. cbn [fst snd] in *.
  set (s := - e) in *.
  assert (l + 1 <= s + 1) as Hs.
  { destruct (Z.le_gt_cases (l + 1) (s + 1)) as [|Hlt]; [done |].
    assert (2 ^ (s + 1) <= 2 ^ l) by (apply Z.pow_le_mono_r; lia).
    rewrite Z.pow_add_r in H by lia. change (2 ^ 1) with 2 in H.
    pose proof (Z.pow_pos_nonneg 2 s ltac:(lia) ltac:(lia)).
    change (2 ^ 53) with (2 * 2 ^ 52) in Hd. nia. }
  assert (b < 2 ^ (s + 1)) as Hbs.
  { assert (2 ^ (l + 1) <= 2 ^ (s + 1)) by (apply Z.pow_le_mono_r; lia). lia. }
  assert (exists P', 2 ^ s = 2 * P' /\ 0 < P') as (P' & HP & HP').
  { exists (2 ^ (s - 1)). split.
    - rewrite <- Z.pow_succ_r by lia. f_equal. lia.
    - apply Z.pow_pos_nonneg; lia. }
  rewrite Z.pow_add_r in * by lia. change (2 ^ 1) with 2 in *.
  rewrite HP in *.
  apply Z.even_spec in Heven as [b' ->].
  pose proof (round_half_even_spec (d * (2 * P')) (2 * b') ltac:(lia)) as Hr.
  set (m := round_half_even (d * (2 * P')) (2 * b')) in *.
  unfold Math_round_div.
  replace (2 * d + 2 * b') with ((d + b') * 2) by lia.
  replace (2 * (2 * b')) with ((2 * b') * 2) by lia.
  rewrite Z.div_mul_cancel_r by lia.
  pose proof (Z.div_mod (d + b') (2 * b') ltac:(lia)) as Hdm.
  pose proof (Z.mod_pos_bound (d + b') (2 * b') ltac:(lia)) as Hbd.
  set (k := (d + b') / (2 * b')) in *.
  symmetry. apply Z.div_unique with (r := 2 * m + 2 * P' - k * (2 * P' * 2)); [|lia].
  left. nia.
Qed.

(** From [2 ^ 52] milliseconds on the hours round to at least one. *)
Lemma Math_round_hours_large d :
  2 ^ 52 <= d -> 1 <= Math_round (Number_div d 3600000).
Proof.
  intros Hd. unfold Number_div, Math_round.
  destruct (binary64_positive d 3600000 ltac:(lia) ltac:(lia)) as (_ & He & Hm).
  rewrite He.
  pose proof (binary64_exponent_cases d 3600000) as Hcases.
  change (Z.log2 3600000) with 21 in Hcases.
  assert (52 <= Z.log2 d) as Hlog.
  { change 52 with (Z.log2 (2 ^ 52)). by apply Z.log2_le_mono. }
  set (e := binary64_exponent d 3600000) in *.
  destruct (Z.ltb_spec e 0) as [Hneg | Hpos].
  - apply Z.div_le_lower_bound; [apply Z.pow_pos_nonneg; lia |].
    rewrite Z.pow_add_r by lia. change (2 ^ 1) with 2.
    assert (2 ^ (- e) <= 2 ^ 22) by (apply Z.pow_le_mono_r; lia).
    change (2 ^ 52) with (2 ^ 30 * 2 ^ 22) in Hm. lia.
  - pose proof (Z.pow_pos_nonneg 2 e ltac:(lia) ltac:(lia)). nia.
Qed.

(** The doubles of the model are those of the specification of IEEE 754
    in the Standard Library, at some quotients and differences. *)
Example binary64_as_in_SpecFloat :
  forallb (fun '(a, b) =>
             SFeqb (as_spec_float (Number_div a b))
                   (SFdiv 53 1024 (spec_float_of_Z a) (spec_float_of_Z b)))
          [ (1, 3); (2, 3); (1, 10); (9000000, 3600000); (9000000, 60000);
            (1799999, 60000); (-5400000, 3600000); (12345678901, 3600000);
            (9007199254740991, 3600000); (9007199254740992, 60000);
            (17279996401800000, 3600000) ]
  = true
  /\ forallb (fun '(a, b) =>
                SFeqb (spec_float_of_Z (Number_sub a b))
                      (SFsub 53 1024 (spec_float_of_Z a) (spec_float_of_Z b)))
             [ (1704112200000, 1704103200000); (1704103200000, 1704112200000);
               (8639996401799999, -8640000000000000);
               (-8640000000000000, 8639996401799999);
               (8640000000000000, -367199254740993);
               (8640000000000000, -367199254740995) ]
     = true.
Proof. split; vm_compute; reflexivity. Qed.

(** * The time interpreter *)

Lemma normalized_time_clean raw :
  trim (map (fun c => if (c =? 84) || (c =? 90) then 32 else c) raw)
  = normalized_time raw.
Proof.
  unfold normalized_time. f_equal. apply map_ext. intros c.
  destruct (Z.eqb_spec c 84) as [->|H1]; [done |].
  destruct (Z.eqb_spec c 90) as [->|H2]; [done |].
  rewrite bool_decide_eq_false_2; [done | lia].
Qed.

(** What [parseTimeString] returns; its [catch] is never entered. *)
Lemma parseTimeString_run
    (Date_parse : text -> number) (toLocaleString : Z -> text) (raw : text) :
  parseTimeString Date_parse toLocaleString raw
  = Normal match Date_parse (normalized_time raw) with
           | NaN => TimeUnparsed raw BadTimeFormat
           | Num t => TimeParsed raw t (toLocaleString t) t
           end.
Proof.
  unfold parseTimeString. rewrite normalized_time_clean.
  by destruct (Date_parse (normalized_time raw)).
Qed.

(** C8: [parseTimeString] completes normally on every raw string and keeps
    it as [original]; when the normalized string is no calendar instant for
    the host, the result is not valid and has no instant; when it is one,
    the result is valid and its instant is the host's epoch milliseconds. *)
Theorem parseTimeString_valid_iff_parses
    (Date_parse : text -> number) (toLocaleString : Z -> text) (raw : text) :
  exists p,
    parseTimeString Date_parse toLocaleString raw = Normal p
    /\ original_of p = raw
    /\ match Date_parse (normalized_time raw) with
       | NaN => valid p = false /\ instant p = None
       | Num t => valid p = true /\ instant p = Some t
       end.
Proof.
  rewrite parseTimeString_run. eexists. split; [reflexivity |].
  by destruct (Date_parse (normalized_time raw)).
Qed.

Example parseTimeString_samples :
  (exists f, parseTimeString sample_Date_parse sample_toLocaleString
               (lit "2024-03-15T10:30:00")
             = Normal (TimeParsed (lit "2024-03-15T10:30:00") 1710498600000 f
                                  1710498600000))
  /\ parseTimeString sample_Date_parse sample_toLocaleString (lit "not-a-time")
     = Normal (TimeUnparsed (lit "not-a-time") BadTimeFormat).
Proof. split; [eexists |]; vm_compute; reflexivity. Qed.

(** * Time differences *)

Lemma Math_round_div_rounds a b : 0 < b -> rounds_to a b (Math_round_div a b).
Proof.
  intros Hb. unfold rounds_to, Math_round_div.
  pose proof (Z.div_mod (2 * a + b) (2 * b)) as Hdm.
  pose proof (Z.mod_pos_bound (2 * a + b) (2 * b)) as Hbd.
  lia.
Qed.

Lemma Math_round_div_nonneg a b : 0 < b -> 0 <= a -> 0 <= Math_round_div a b.
Proof. intros Hb Ha. unfold Math_round_div. apply Z.div_pos; lia. Qed.



(** Up to [2 ^ 53] milliseconds the durations computed with doubles are
    those of the display rule on the exact quotients. *)
Lemma shown_duration_exact delta :
  0 <= delta <= 2 ^ 53 ->
  (if 0 <? Math_round (Number_div delta 3600000)
   then Hours (Math_round (Number_div delta 3600000))
   else Minutes (Math_round (Number_div delta 60000)))
  = shown_duration delta.
Proof.
  intros Hd.
  rewrite (Math_round_Number_div delta 3600000 21)
    by (done || lia || (split; reflexivity)).
  rewrite (Math_round_Number_div delta 60000 15)
    by (done || lia || (split; reflexivity)).
  unfold shown_duration.
  pose proof (Math_round_div_nonneg delta 3600000 ltac:(lia) ltac:(lia)) as Hh.
  destruct (Z.ltb_spec 0 (Math_round_div delta 3600000)).
  - rewrite bool_decide_eq_true_2; [done | lia].
  - rewrite bool_decide_eq_false_2; [done | lia].
Qed.









(** Two instants half an hour apart are shown as one hour, a quarter of an
    hour apart in minutes. *)
Example shown_duration_samples :
  shown_duration 1800000 = Hours 1 /\ shown_duration 900000 = Minutes 15
  /\ shown_duration 1799999 = Minutes 30.
Proof. repeat split. Qed.

(** * The two-record example *)

(** C4, as the code has it: two records whose createTime values are
    2024-01-01 10:00:00 and 2024-01-01 12:30:00, 150 minutes apart for the
    host, give exactly one time difference, and it is shown as 3 hours:
    2.5 is rounded upwards. *)
Theorem two_and_a_half_hours_shown_as_three
    (Date_parse : text -> number) (toLocaleString : Z -> text)
    (f1 f2 : text) (t1 t2 : Z) :
  Date_parse (lit "2024-01-01 10:00:00") = Num t1 ->
  Date_parse (lit "2024-01-01 12:30:00") = Num t2 ->
  t2 - t1 = 9000000 ->
  exists d,
    time_deltas_of (createComparisonResults (two_codes Date_parse toLocaleString f1 f2))
    = [d]
    /\ current_file d = f1 /\ next_file d = f2
    /\ displayed d = Hours 3.
Proof.
  intros H1 H2 Hdiff.
  assert (parseQRContent Date_parse toLocaleString
            (lit "createTime=2024-01-01 10:00:00") f1
          = {| fileName := f1;
               rawContent := Some (lit "createTime=2024-01-01 10:00:00");
               params := {[ lit "createTime" := lit "2024-01-01 10:00:00" ]};
               error := None;
               parsedTime := Some (TimeParsed (lit "2024-01-01 10:00:00") t1
                                              (toLocaleString t1) t1) |}) as E1.
  { unfold parseQRContent, parseQRContent_exec, parse_time.
    vm_compute. vm_compute in H1. rewrite H1. reflexivity. }
  assert (parseQRContent Date_parse toLocaleString
            (lit "createTime=2024-01-01 12:30:00") f2
          = {| fileName := f2;
               rawContent := Some (lit "createTime=2024-01-01 12:30:00");
               params := {[ lit "createTime" := lit "2024-01-01 12:30:00" ]};
               error := None;
               parsedTime := Some (TimeParsed (lit "2024-01-01 12:30:00") t2
                                              (toLocaleString t2) t2) |}) as E2.
  { unfold parseQRContent, parseQRContent_exec, parse_time.
    vm_compute. vm_compute in H2. rewrite H2. reflexivity. }
  unfold two_codes, analyzeFiles.
  change (map _ [(f1, ?a); (f2, ?b)])
    with [parseQRContent Date_parse toLocaleString
            (lit "createTime=2024-01-01 10:00:00") f1;
          parseQRContent Date_parse toLocaleString
            (lit "createTime=2024-01-01 12:30:00") f2].
  rewrite E1, E2.
  unfold createComparisonResults.
  change (length [_; _] <? 2)%nat with false. cbv iota.
  unfold time_deltas_of, analyzeTimeDifferences, timesData_of.
  cbn [List.filter has_parsed_time parsedTime parsed_of map length Nat.ltb Nat.leb
       fileName default from_option id Array_sort sort_insert time timestamp_of].
  replace (Number_sub t1 t2 <=? 0) with true
    by (symmetry; apply Z.leb_le, Number_sub_sign; lia).
  cbn [deltas_of]. eexists. split; [reflexivity |].
  unfold delta_of. cbn [current_file next_file displayed entry_fileName time timestamp_of].
  repeat split. rewrite Number_sub_exact by (rewrite Hdiff; done).
  rewrite Hdiff. reflexivity.
Qed.

Lemma two_and_a_half_hours_shown_as_three_witness :
  exists d,
    time_deltas_of
      (createComparisonResults
         (two_codes sample_Date_parse sample_toLocaleString (lit "a.png") (lit "b.png")))
    = [d]
    /\ current_file d = lit "a.png" /\ next_file d = lit "b.png"
    /\ displayed d = Hours 3.
Proof.
  apply (two_and_a_half_hours_shown_as_three sample_Date_parse sample_toLocaleString
           (lit "a.png") (lit "b.png") 1704103200000 1704112200000);
    vm_compute; reflexivity.
Defined.

(** The comparison of the two records of the example has one time
    difference, and it does not read 2 hours. *)
Lemma two_and_a_half_hours_not_shown_as_two :
  exists d,
    time_deltas_of
      (createComparisonResults
         (two_codes sample_Date_parse sample_toLocaleString (lit "a.png") (lit "b.png")))
    = [d]
    /\ displayed d = Hours 3
    /\ displayed d <> Hours 2.
Proof.
  eexists. split; [vm_compute; reflexivity |]. split; [reflexivity | discriminate].
Qed.

(** * The comparison table *)

Lemma String_compare_refl a : String_compare a a = 0.
Proof. induction a as [|x a IH]; simpl; [done |]. by rewrite Z.ltb_irrefl. Qed.

Lemma String_compare_eq a b : String_compare a b = 0 <-> a = b.
Proof.
  split; [|intros ->; apply String_compare_refl].
  revert b. induction a as [|x a IH]; intros [|y b]; simpl; try done.
  destruct (Z.ltb_spec x y) as [|Hxy]; [done |].
  destruct (Z.ltb_spec y x) as [|Hyx]; [done |].
  intros Heq. assert (x = y) as -> by lia. f_equal. by apply IH.
Qed.

Lemma String_compare_lt a b : String_compare a b < 0 <-> lex_lt a b.
Proof.
  split.
  - revert b. induction a as [|x a IH]; intros [|y b]; simpl; try lia.
    + intros _. constructor.
    + destruct (Z.ltb_spec x y) as [|Hxy]; [intros _; by apply lex_lt_head |].
      destruct (Z.ltb_spec y x) as [|Hyx]; [lia |].
      assert (x = y) as -> by lia. intros Hlt. apply lex_lt_tail. by apply IH.
  - induction 1 as [c b | x y a b Hxy | x a b Hab IH]; simpl.
    + lia.
    + destruct (Z.ltb_spec x y); lia.
    + by rewrite Z.ltb_irrefl.
Qed.

Lemma String_compare_swap a b : String_compare b a = - String_compare a b.
Proof.
  revert b. induction a as [|x a IH]; intros [|y b]; simpl; try done.
  destruct (Z.ltb_spec x y), (Z.ltb_spec y x); try lia. apply IH.
Qed.

Lemma lex_lt_trans a b c : lex_lt a b -> lex_lt b c -> lex_lt a c.
Proof.
  intros Hab. revert c. induction Hab as [x b | x y a b Hxy | x a b Hab IH];
    intros c Hbc; inversion Hbc; subst.
  - apply lex_lt_nil.
  - apply lex_lt_nil.
  - apply lex_lt_head. lia.
  - by apply lex_lt_head.
  - by apply lex_lt_head.
  - apply lex_lt_tail. by apply IH.
Qed.

Lemma String_compare_le a b : String_compare a b <= 0 <-> a = b \/ lex_lt a b.
Proof.
  rewrite <- String_compare_eq, <- String_compare_lt. lia.
Qed.

Lemma String_compare_total a b : String_compare a b <= 0 \/ String_compare b a <= 0.
Proof. rewrite (String_compare_swap a b). lia. Qed.

Lemma String_compare_trans a b c :
  String_compare a b <= 0 -> String_compare b c <= 0 -> String_compare a c <= 0.
Proof.
  rewrite !String_compare_le. intros [-> | Hab] [-> | Hbc]; auto.
  right. by eapply lex_lt_trans.
Qed.

Lemma StronglySorted_NoDup_strict (l : list text) :
  StronglySorted (fun a b => String_compare a b <= 0) l -> NoDup l ->
  StronglySorted lex_lt l.
Proof.
  induction 1 as [|x l Hl IH Hx]; intros Hnd; [constructor |].
  apply NoDup_cons in Hnd as [Hx' Hnd]. constructor; [by apply IH |].
  apply Forall_forall. intros y Hy.
  rewrite Forall_forall in Hx. specialize (Hx y Hy).
  apply String_compare_le in Hx as [-> | Hlt]; [|done].
  by destruct Hx'.
Qed.

(** The Set of all parameter keys. *)
Lemma Set_add_fold keys s :
  NoDup s ->
  NoDup (fold_left Set_add keys s)
  /\ forall k, k ∈ fold_left Set_add keys s <-> k ∈ s \/ k ∈ keys.
Proof.
  revert s. induction keys as [|key keys IH]; intros s Hs; simpl.
  - split; [done |]. intros k. rewrite elem_of_nil. tauto.
  - assert (NoDup (Set_add s key) /\ forall k, k ∈ Set_add s key <-> k ∈ s \/ k = key)
      as [Hnd Hin].
    { unfold Set_add. case_bool_decide as Hkey.
      - split; [done |]. intros k. split; [tauto |]. by intros [? | ->].
      - split.
        + apply NoDup_app. split; [done |]. split; [|apply NoDup_singleton].
          intros k Hk Hk'. apply list_elem_of_singleton in Hk' as ->. done.
        + intros k. rewrite elem_of_app, list_elem_of_singleton. tauto. }
    destruct (IH _ Hnd) as [Hnd' Hin']. split; [done |].
    intros k. rewrite Hin', Hin, elem_of_cons. tauto.
Qed.

Lemma Object_keys_elem (o : gmap text text) k : k ∈ Object_keys o <-> is_Some (o !! k).
Proof.
  unfold Object_keys. rewrite list_elem_of_fmap. split.
  - intros ([k' v] & -> & Hin). apply elem_of_map_to_list in Hin. by exists v.
  - intros [v Hv]. exists (k, v). split; [done |]. by apply elem_of_map_to_list.
Qed.

Lemma allParams_of_fold qrData s :
  NoDup s ->
  NoDup (fold_left (fun s data => fold_left Set_add (Object_keys (params data)) s)
                   qrData s)
  /\ forall k,
       k ∈ fold_left (fun s data => fold_left Set_add (Object_keys (params data)) s)
                     qrData s
       <-> k ∈ s \/ key_of_batch qrData k.
Proof.
  revert s. induction qrData as [|data qrData IH]; intros s Hs; simpl.
  - split; [done |]. intros k. split; [tauto |].
    intros [? | (d & Hd & _)]; [done |]. by apply elem_of_nil in Hd.
  - destruct (Set_add_fold (Object_keys (params data)) s Hs) as [Hnd Hin].
    destruct (IH _ Hnd) as [Hnd' Hin']. split; [done |].
    intros k. rewrite Hin', Hin, Object_keys_elem. unfold key_of_batch. split.
    + intros [[? | Hk] | (d & Hd & Hk)]; [tauto | |].
      * right. exists data. split; [apply list_elem_of_here | done].
      * right. exists d. split; [by apply list_elem_of_further | done].
    + intros [? | (d & Hd & Hk)]; [tauto |].
      apply elem_of_cons in Hd as [-> | Hd]; [tauto |].
      right. by exists d.
Qed.

Lemma allParams_of_spec qrData :
  NoDup (allParams_of qrData)
  /\ forall k, k ∈ allParams_of qrData <-> key_of_batch qrData k.
Proof.
  destruct (allParams_of_fold qrData [] (NoDup_nil_2)) as [Hnd Hin].
  split; [done |]. intros k. unfold allParams_of. rewrite Hin, elem_of_nil. tauto.
Qed.

Lemma rows_of_report qrData :
  (2 <= length qrData)%nat ->
  rows_of (createComparisonResults qrData)
  = map (row_of qrData) (Array_sort String_compare (allParams_of qrData)).
Proof.
  intros Hlen. unfold createComparisonResults.
  destruct (Nat.ltb_spec (length qrData) 2) as [|_]; [lia |].
  destruct (allParams_of qrData) as [|k ks] eqn:Hks; [done |]. done.
Qed.

Lemma slot_of_prop_get data k :
  k ∉ Object_prototype_names ->
  or_else (prop_get (params data) k) (Str []) = slot data k.
Proof.
  intros Hk. unfold prop_get, slot.
  destruct (params data !! k) as [[|c v]|]; simpl; [done | done |].
  by rewrite bool_decide_eq_false_2.
Qed.

Lemma isUniform_spec (vals : list value) :
  forallb (fun v => strict_eqb v (nth 0 vals Undefined)) vals = false
  <-> ~ all_equal_first vals.
Proof.
  rewrite <- not_true_iff_false, forallb_forall. unfold all_equal_first.
  assert (forall v, v ∈ vals ->
            strict_eqb v (nth 0 vals Undefined) = true <-> Some v = head vals) as Hv.
  { intros v Hin. unfold strict_eqb. rewrite bool_decide_eq_true.
    destruct vals as [|v0 vals]; [by apply elem_of_nil in Hin |].
    simpl. split; congruence. }
  split; intros H H'; apply H.
  - intros v Hin. apply Hv; [by apply list_elem_of_In |]. apply H'.
    by apply list_elem_of_In.
  - intros v Hin. apply Hv; [done |]. apply H'. by apply list_elem_of_In.
Qed.

(** X15: the rows of the table, for any batch: with fewer than two records
    there is none; otherwise there is one row for each key of the union of
    the parameter keys of the records, in lexicographic order of the keys;
    a row has one value for each record, in record order: the value of the
    record under the key where it has the key, the empty string where it
    lacks it, but what Object.prototype holds under the key when the key is
    one of its property names; and the row is flagged non-uniform exactly
    when not all of its values are equal to the first one. *)
Theorem comparison_rows_of_batch (qrData : list QRRecord) :
  let rows := rows_of (createComparisonResults qrData) in
  ((length qrData < 2)%nat -> rows = [])
  /\ ((2 <= length qrData)%nat ->
      StronglySorted lex_lt (map param rows)
      /\ (forall k, k ∈ map param rows <-> key_of_batch qrData k)
      /\ (forall row, row ∈ rows ->
            length (values row) = length qrData
            /\ (forall (i : nat) data, qrData !! i = Some data ->
                  (forall v, params data !! param row = Some v ->
                     values row !! i = Some (Str v))
                  /\ (params data !! param row = None ->
                      values row !! i
                      = Some (if bool_decide (param row ∈ Object_prototype_names)
                              then Inherited (param row) else Str [])))
            /\ (isUniform row = false <-> ~ all_equal_first (values row)))).
Proof.
  cbn zeta. split.
  { intros Hlen. unfold createComparisonResults.
    by destruct (Nat.ltb_spec (length qrData) 2); [|lia]. }
  intros Hlen. rewrite (rows_of_report _ Hlen).
  destruct (allParams_of_spec qrData) as [Hnd Hin].
  pose proof (Array_sort_Permutation String_compare (allParams_of qrData)) as Hperm.
  assert (map param (map (row_of qrData) (Array_sort String_compare (allParams_of qrData)))
          = Array_sort String_compare (allParams_of qrData)) as ->.
  { rewrite map_map. simpl. apply map_id. }
  split; [|split].
  - apply StronglySorted_NoDup_strict.
    + apply Array_sort_sorted; [apply String_compare_total | apply String_compare_trans].
    + by rewrite <- Hperm.
  - intros k. rewrite <- Hperm. apply Hin.
  - intros row Hrow. apply list_elem_of_In, in_map_iff in Hrow as (k & <- & _).
    simpl. split; [by rewrite length_map |]. split.
    + intros i data Hi. rewrite list_lookup_fmap, Hi. simpl. unfold prop_get. split.
      * intros v ->. by destruct v.
      * intros ->. by case_bool_decide.
    + apply isUniform_spec.
Qed.

(** C6 at a failing input: two codes, of which the first alone has a
    parameter named toString.  The row of toString holds, for the second
    code, what its parameter object inherits under that name, where the
    claim has the empty string as the value of a record that lacks the
    key. *)
Theorem missing_cell_holds_inherited_property :
  let batch :=
    analyzeFiles sample_Date_parse sample_toLocaleString
      [ (lit "a.png", Content (lit "toString=1&a=2"));
        (lit "b.png", Content (lit "a=2")) ] in
  map (fun row => (param row, values row, isUniform row))
      (rows_of (createComparisonResults batch))
  = [ (lit "a", [Str (lit "2"); Str (lit "2")], true);
      (lit "toString", [Str (lit "1"); Inherited (lit "toString")], false) ]
  /\ map (fun data => params data !! lit "toString") batch = [Some (lit "1"); None]
  /\ map (fun data => slot data (lit "toString")) batch = [Str (lit "1"); Str []].
Proof. cbn zeta. split; [|split]; vm_compute; reflexivity. Qed.

(** Two codes with the same createTime and different signatures: the row of
    createTime is uniform, the rows of signature and of id, which one code
    lacks, are not. *)
Example sample_batch_rows :
  map (fun row => (param row, values row, isUniform row))
      (rows_of (createComparisonResults sample_batch))
  = [ (lit "createTime",
       [Str (lit "2024-01-01 10:00:00"); Str (lit "2024-01-01 10:00:00")], true);
      (lit "id", [Str []; Str (lit "7")], false);
      (lit "signature", [Str (lit "abc"); Str (lit "xyz")], false) ].
Proof. vm_compute. reflexivity. Qed.

(** Fewer than two records: no row and no time difference. *)
Example comparison_needs_two_codes :
  createComparisonResults [] = NeedTwoCodes
  /\ rows_of (createComparisonResults one_code) = []
  /\ time_deltas_of (createComparisonResults one_code) = [].
Proof. repeat split. Qed.

(** * The extractor *)

(** ** Splitting *)

Lemma String_includes_elem s c : String_includes s c = true <-> c ∈ s.
Proof.
  unfold String_includes. rewrite existsb_exists. split.
  - intros (x & Hin & Hx). apply Z.eqb_eq in Hx as <-. by apply list_elem_of_In.
  - intros Hin. exists c. split; [by apply list_elem_of_In | apply Z.eqb_refl].
Qed.

Lemma String_includes_false s c : String_includes s c = false <-> c ∉ s.
Proof. rewrite <- String_includes_elem. by destruct (String_includes s c). Qed.

Lemma String_split_first sep s :
  String_split sep s
  = fst (split_first sep s)
    :: (if String_includes s sep
        then String_split sep (snd (split_first sep s)) else []).
Proof.
  induction s as [|c s IH]; simpl; [done |].
  rewrite (Z.eqb_sym sep c).
  destruct (c =? sep) eqn:Hc; simpl; [done |].
  rewrite IH. by destruct (split_first sep s).
Qed.

Lemma String_split_nth0 sep s : nth 0 (String_split sep s) [] = fst (split_first sep s).
Proof. by rewrite String_split_first. Qed.

Lemma String_split_nth1 sep s :
  String_includes s sep = true ->
  nth 1 (String_split sep s) [] = fst (split_first sep (snd (split_first sep s))).
Proof.
  intros H. rewrite String_split_first, H. simpl. apply String_split_nth0.
Qed.

Lemma split_first_app sep a b :
  sep ∉ a -> split_first sep (a ++ sep :: b) = (a, b).
Proof.
  induction a as [|c a IH]; simpl; intros Ha.
  - by rewrite Z.eqb_refl.
  - apply not_elem_of_cons in Ha as [Hc Ha].
    destruct (Z.eqb_spec c sep); [done |]. by rewrite IH.
Qed.

Lemma split_first_none sep a : sep ∉ a -> split_first sep a = (a, []).
Proof.
  induction a as [|c a IH]; simpl; intros Ha; [done |].
  apply not_elem_of_cons in Ha as [Hc Ha].
  destruct (Z.eqb_spec c sep); [done |]. by rewrite IH.
Qed.

Lemma split_first_fst_no_sep sep s : sep ∉ fst (split_first sep s).
Proof.
  induction s as [|c s IH]; simpl; [apply not_elem_of_nil |].
  destruct (Z.eqb_spec c sep); simpl; [apply not_elem_of_nil |].
  destruct (split_first sep s). simpl in *. apply not_elem_of_cons. done.
Qed.

Lemma split_limit_nth sep seg :
  String_includes seg sep = true ->
  nth 0 (String_split_limit sep seg 2) [] = fst (split_first sep seg)
  /\ nth 1 (String_split_limit sep seg 2) []
     = fst (split_first sep (snd (split_first sep seg))).
Proof.
  intros H. unfold String_split_limit.
  rewrite String_split_first, H.
  rewrite (String_split_first sep (snd (split_first sep seg))). done.
Qed.

(** ** The loops of the extractor *)

Lemma with_params_same r : with_params r (params r) = r.
Proof. by destruct r. Qed.

Lemma js_error_unique (e : js_error) : e = URIError.
Proof. by destruct e. Qed.

Lemma parse_pair_run pair r :
  parse_pair pair r
  = if String_includes pair 61 then
      match bare_pair pair with
      | Normal (k, v) => (with_params r (prop_set (params r) k v), Normal tt)
      | Throw e => (r, Throw e)
      end
    else (r, Normal tt).
Proof.
  unfold parse_pair. destruct (String_includes pair 61) eqn:Hinc; [|done].
  destruct (split_limit_nth 61 pair Hinc) as [-> ->].
  unfold bare_pair, key_part, value_part, bind, lift.
  destruct (decodeURIComponent (fst (split_first 61 pair))) as [k|e]; [|done].
  destruct (decodeURIComponent (fst (split_first 61 (snd (split_first 61 pair)))));
    done.
Qed.

Lemma for_of_bare segs r :
  for_of segs parse_pair r
  = (with_params r (assign_pairs (bare_pairs (before_malformed segs)) (params r)),
     if bool_decide (before_malformed segs = segs) then Normal tt else Throw URIError).
Proof.
  revert r. induction segs as [|seg segs IH]; intros r.
  - simpl. unfold ret, assign_pairs. simpl. by rewrite with_params_same.
  - cbn [for_of]. unfold bind at 1. rewrite parse_pair_run.
    cbn [before_malformed]. unfold malformed.
    destruct (String_includes seg 61) eqn:Hinc; simpl.
    + destruct (bare_pair seg) as [[k v]|e] eqn:Hpair; simpl.
      * rewrite IH. simpl. unfold bare_pairs at 2. simpl. rewrite Hinc, Hpair. simpl.
        f_equal. case_bool_decide as H1; case_bool_decide as H2; try done.
        -- destruct H2. by f_equal.
        -- destruct H1. by injection H2.
      * rewrite with_params_same. by rewrite (js_error_unique e).
    + rewrite IH. simpl. unfold bare_pairs at 2. simpl. rewrite Hinc. simpl.
      f_equal. case_bool_decide as H1; case_bool_decide as H2; try done.
      -- destruct H2. by f_equal.
      -- destruct H1. by injection H2.
Qed.

Lemma for_of_entries (entries : list (text * text)) r :
  for_of entries (fun '(key, value) => set_param key value) r
  = (with_params r (assign_pairs entries (params r)), Normal tt).
Proof.
  revert r. induction entries as [|[k v] entries IH]; intros r.
  - simpl. unfold ret, assign_pairs. simpl. by rewrite with_params_same.
  - cbn [for_of]. unfold bind at 1. unfold set_param at 1, update.
    rewrite IH. done.
Qed.

Lemma assign_pairs_lookup pairs o k :
  assign_pairs pairs o !! k
  = if bool_decide (k = lit "__proto__") then o !! k
    else match last_value pairs k with Some v => Some v | None => o !! k end.
Proof.
  revert o. induction pairs as [|[k' v] pairs IH]; intros o; simpl.
  - by case_bool_decide.
  - unfold assign_pairs in *. simpl. rewrite IH.
    case_bool_decide as Hproto.
    + unfold prop_set. case_bool_decide; [done |].
      rewrite lookup_insert_ne; [done | congruence].
    + destruct (last_value pairs k) as [v'|]; [done |].
      unfold prop_set. case_bool_decide as Hk'.
      * rewrite bool_decide_eq_false_2; [done | congruence].
      * case_bool_decide as Hkk.
        -- subst. by rewrite lookup_insert_eq.
        -- by rewrite lookup_insert_ne.
Qed.

Lemma String_split_elem sep s seg c : seg ∈ String_split sep s -> c ∈ seg -> c ∈ s.
Proof.
  revert seg. induction s as [|x s IH]; simpl; intros seg Hseg Hc.
  - apply list_elem_of_singleton in Hseg as ->. done.
  - destruct (x =? sep).
    + apply elem_of_cons in Hseg as [-> | Hseg]; [by apply elem_of_nil in Hc |].
      apply list_elem_of_further. by eapply IH.
    + destruct (String_split sep s) as [|p ps] eqn:Hs.
      * apply list_elem_of_singleton in Hseg as ->.
        apply list_elem_of_singleton in Hc as ->. apply list_elem_of_here.
      * apply elem_of_cons in Hseg as [-> | Hseg].
        -- apply elem_of_cons in Hc as [-> | Hc]; [apply list_elem_of_here |].
           apply list_elem_of_further. eapply IH; [apply list_elem_of_here | done].
        -- apply list_elem_of_further. eapply IH; [|done].
           by apply list_elem_of_further.
Qed.

Lemma no_equals_segments (segs : list text) :
  Forall (fun seg => String_includes seg 61 = false) segs ->
  before_malformed segs = segs /\ bare_pairs segs = [].
Proof.
  induction 1 as [|seg segs Hseg _ [IH1 IH2]]; [done |].
  cbn [before_malformed]. unfold malformed. rewrite Hseg. cbn [andb]. rewrite IH1.
  split; [done |]. unfold bare_pairs in *. cbn [flat_map]. by rewrite Hseg, IH2.
Qed.

Lemma strip_question q :
  63 ∉ q -> match q with 63 :: rest => rest | _ => q end = q.
Proof.
  destruct q as [|c q]; [done |]. intros Hc.
  apply not_elem_of_cons in Hc as [Hc _].
  destruct c as [|p|p]; try done.
  do 6 (destruct p as [p|p|]; try done).
Qed.

Lemma query_part_no_question content : 63 ∉ query_part content.
Proof. apply split_first_fst_no_sep. Qed.

(** ** parseQRContent *)

Section Extractor.
Variable Date_parse : text -> number.
Variable toLocaleString : Z -> text.

Lemma parse_time_run r :
  exists r',
    parse_time Date_parse toLocaleString r = (r', Normal tt)
    /\ params r' = params r /\ error r' = error r.
Proof.
  unfold parse_time, bind, get_result.
  destruct (prop_get (params r) (lit "createTime")) as [|[|c s]|]; try by eexists.
  unfold lift. rewrite parseTimeString_run. by eexists.
Qed.

Lemma parse_params_run content r :
  parse_params content r
  = (with_params r (assign_pairs (extracted_pairs content) (params r)),
     if String_includes content 63 then Normal tt
     else if bool_decide (before_malformed (String_split 38 content)
                          = String_split 38 content)
          then Normal tt else Throw URIError).
Proof.
  unfold parse_params, extracted_pairs.
  destruct (String_includes content 63) eqn:Hq.
  - rewrite (String_split_nth1 63 content Hq). fold (query_part content).
    unfold URLSearchParams.
    rewrite strip_question by apply query_part_no_question.
    apply for_of_entries.
  - destruct (String_includes content 61) eqn:He; [apply for_of_bare |].
    destruct (no_equals_segments (String_split 38 content)) as [-> ->].
    + apply Forall_forall. intros seg Hseg.
      apply String_includes_false. intros Hc.
      apply String_includes_false in He. apply He.
      by eapply String_split_elem.
    + rewrite bool_decide_eq_true_2 by done.
      unfold ret, assign_pairs. simpl. by rewrite with_params_same.
Qed.

Lemma parseQRContent_exec_run content r0 :
  exists r,
    parseQRContent_exec Date_parse toLocaleString content r0 = (r, Normal r)
    /\ params r = assign_pairs (extracted_pairs content) (params r0)
    /\ error r
       = if String_includes content 63 then error r0
         else if bool_decide (before_malformed (String_split 38 content)
                              = String_split 38 content)
              then error r0 else Some (ParamParseFailed URIError).
Proof.
  unfold parseQRContent_exec, bind, try_catch_exec, get_result.
  rewrite parse_params_run.
  set (r1 := with_params r0 (assign_pairs (extracted_pairs content) (params r0))).
  destruct (String_includes content 63).
  - destruct (parse_time_run r1) as (r' & -> & Hp & He).
    exists r'. by rewrite Hp, He.
  - case_bool_decide.
    + destruct (parse_time_run r1) as (r' & -> & Hp & He).
      exists r'. by rewrite Hp, He.
    + by eexists.
Qed.

(** The record that [parseQRContent] returns: its parameters are the
    extracted pairs assigned in order, and its error tells whether the
    bare form met a malformed segment. *)
Lemma parseQRContent_run content fileName :
  parseQRContent_completion Date_parse toLocaleString content fileName
  = Normal (parseQRContent Date_parse toLocaleString content fileName)
  /\ params (parseQRContent Date_parse toLocaleString content fileName)
     = assign_pairs (extracted_pairs content) ∅
  /\ error (parseQRContent Date_parse toLocaleString content fileName)
     = if String_includes content 63 then None
       else if bool_decide (before_malformed (String_split 38 content)
                            = String_split 38 content)
            then None else Some (ParamParseFailed URIError).
Proof.
  unfold parseQRContent_completion, parseQRContent.
  destruct (parseQRContent_exec_run content
              {| fileName := fileName; rawContent := Some content; params := ∅;
                 error := None; parsedTime := None |}) as (r & -> & Hp & He).
  done.
Qed.
End Extractor.

(** ** Rewriting the value of a createTime parameter *)

Lemma same_but_createTime_refl ps : same_but_createTime ps ps.
Proof. apply Forall2_same_length_lookup_2; [done |]. intros i p p' H1 H2. left. congruence. Qed.

Lemma same_but_createTime_app ps1 ps1' ps2 ps2' :
  same_but_createTime ps1 ps1' -> same_but_createTime ps2 ps2' ->
  same_but_createTime (ps1 ++ ps2) (ps1' ++ ps2').
Proof. apply Forall2_app. Qed.

Lemma last_value_same_but_createTime ps ps' k :
  same_but_createTime ps ps' -> k <> lit "createTime" ->
  last_value ps k = last_value ps' k.
Proof.
  intros H Hk. induction H as [|[k1 v1] [k2 v2] ps ps' Hp _ IH]; [done |].
  simpl. rewrite IH. destruct (last_value ps' k); [done |].
  destruct Hp as [[= -> ->] | [H1 H2]]; [done |]. simpl in *. subst.
  rewrite !bool_decide_eq_false_2; done.
Qed.

Lemma String_split_cons_ne sep c s :
  c <> sep ->
  String_split sep (c :: s)
  = (c :: fst (split_first sep s))
    :: (if String_includes s sep then String_split sep (snd (split_first sep s)) else []).
Proof.
  intros Hc. simpl. destruct (Z.eqb_spec c sep); [done |].
  by rewrite String_split_first.
Qed.

Lemma String_split_nonempty sep s : exists hd tl, String_split sep s = hd :: tl.
Proof. rewrite String_split_first. by eexists _, _. Qed.

Lemma String_split_app_sep sep a b :
  String_split sep (a ++ sep :: b) = String_split sep a ++ String_split sep b.
Proof.
  induction a as [|c a IH]; simpl.
  - by rewrite Z.eqb_refl.
  - destruct (c =? sep); [by rewrite IH |].
    rewrite IH. destruct (String_split_nonempty sep a) as (hd & tl & ->). done.
Qed.

Lemma String_split_app_plain sep x b hd tl :
  sep ∉ x -> String_split sep b = hd :: tl ->
  String_split sep (x ++ b) = (x ++ hd) :: tl.
Proof.
  intros Hx Hb. induction x as [|c x IH]; simpl; [done |].
  apply not_elem_of_cons in Hx as [Hc Hx].
  destruct (Z.eqb_spec c sep); [done |]. by rewrite IH.
Qed.

Lemma split_first_app_plain sep x b :
  sep ∉ x ->
  split_first sep (x ++ b) = (x ++ fst (split_first sep b), snd (split_first sep b)).
Proof.
  intros Hx. induction x as [|c x IH]; simpl; [by destruct (split_first sep b) |].
  apply not_elem_of_cons in Hx as [Hc Hx].
  destruct (Z.eqb_spec c sep); [done |]. by rewrite IH.
Qed.

Lemma String_includes_app s1 s2 c :
  String_includes (s1 ++ s2) c = String_includes s1 c || String_includes s2 c.
Proof. unfold String_includes. apply existsb_app. Qed.

Lemma plain_not_elem (x : text) c :
  Forall plain x -> c = 37 \/ c = 38 \/ c = 61 \/ c = 63 -> c ∉ x.
Proof.
  intros Hx Hc Hin. rewrite Forall_forall in Hx.
  destruct (Hx c Hin) as (? & ? & ? & ?). lia.
Qed.

(** *** decodeURIComponent on a text that starts with plain code units *)

Lemma tokenize_plain x q :
  37 ∉ x -> tokenize (x ++ q) = map TChar x ++ tokenize q.
Proof.
  intros Hx. induction x as [|c x IH]; [done |].
  apply not_elem_of_cons in Hx as [Hc Hx].
  cbn [app tokenize map]. destruct (Z.eqb_spec c 37); [done |]. by rewrite IH.
Qed.

Lemma decode_tokens_chars x ts :
  decode_tokens (map TChar x ++ ts) = completion_map (app x) (decode_tokens ts).
Proof.
  induction x as [|c x IH]; simpl.
  - by destruct (decode_tokens ts).
  - rewrite IH. by destruct (decode_tokens ts).
Qed.

Lemma decodeURIComponent_plain x q :
  37 ∉ x ->
  decodeURIComponent (x ++ q) = completion_map (app x) (decodeURIComponent q).
Proof.
  intros Hx. unfold decodeURIComponent.
  by rewrite tokenize_plain, decode_tokens_chars.
Qed.

(** The segment of a createTime parameter with a plain value [x], followed by
    [rest] up to the next [&]. *)
Lemma createTime_segment_key x rest :
  split_first 61 (lit "createTime=" ++ x ++ rest) = (lit "createTime", x ++ rest).
Proof. reflexivity. Qed.

Lemma createTime_segment_pair x rest :
  Forall plain x ->
  bare_pair (lit "createTime=" ++ x ++ rest)
  = completion_map (fun v => (lit "createTime", x ++ v))
      (decodeURIComponent (fst (split_first 61 rest))).
Proof.
  intros Hx. unfold bare_pair, key_part, value_part.
  rewrite createTime_segment_key. cbn [fst snd].
  rewrite split_first_app_plain by (apply plain_not_elem; auto).
  cbn [fst]. rewrite decodeURIComponent_plain by (apply plain_not_elem; auto).
  replace (decodeURIComponent (lit "createTime")) with (Normal (lit "createTime"))
    by (vm_compute; reflexivity).
  by destruct (decodeURIComponent (fst (split_first 61 rest))).
Qed.

Lemma createTime_segment_includes x rest :
  String_includes (lit "createTime=" ++ x ++ rest) 61 = true.
Proof. reflexivity. Qed.

Lemma bare_pairs_createTime_segment S1 tl x x' rest :
  Forall plain x -> Forall plain x' ->
  same_but_createTime
    (bare_pairs (before_malformed (S1 ++ (lit "createTime=" ++ x ++ rest) :: tl)))
    (bare_pairs (before_malformed (S1 ++ (lit "createTime=" ++ x' ++ rest) :: tl))).
Proof.
  intros Hx Hx'.
  pose proof (createTime_segment_pair x rest Hx) as P.
  pose proof (createTime_segment_pair x' rest Hx') as P'.
  pose proof (createTime_segment_includes x rest) as I.
  pose proof (createTime_segment_includes x' rest) as I'.
  remember (lit "createTime=" ++ x ++ rest) as seg eqn:Eseg.
  remember (lit "createTime=" ++ x' ++ rest) as seg' eqn:Eseg'.
  clear Eseg Eseg'.
  induction S1 as [|s S1 IH].
  - cbn [app before_malformed]. unfold malformed. rewrite I, I', P, P'.
    destruct (decodeURIComponent (fst (split_first 61 rest))) as [v|e];
      cbn [completion_map andb] in *.
    + unfold bare_pairs. cbn [flat_map]. rewrite I, I', P, P'.
      apply same_but_createTime_app; [|apply same_but_createTime_refl].
      constructor; [by right | constructor].
    + constructor.
  - cbn [app before_malformed]. destruct (malformed s); [constructor |].
    unfold bare_pairs in *. cbn [flat_map].
    apply same_but_createTime_app; [apply same_but_createTime_refl | apply IH].
Qed.

Lemma starts_parameter_split pre rest hd tl :
  starts_parameter pre -> 63 ∉ pre ->
  String_split 38 rest = hd :: tl ->
  exists S1, forall x, 38 ∉ x ->
    String_split 38 (pre ++ x ++ rest) = S1 ++ (x ++ hd) :: tl.
Proof.
  intros [-> | (p & c & -> & [-> | ->])] Hq Hrest.
  - exists []. intros x Hx. cbn [app]. by apply String_split_app_plain.
  - exists (String_split 38 p). intros x Hx.
    rewrite <- app_assoc. cbn [app]. rewrite String_split_app_sep.
    f_equal. by apply String_split_app_plain.
  - destruct Hq. apply elem_of_app. right. apply list_elem_of_here.
Qed.

Lemma form_entry_createTime x rest :
  form_entry (lit "createTime=" ++ x ++ rest)
  = [(lit "createTime", form_decode (x ++ rest))].
Proof.
  change (form_entry (lit "createTime=" ++ x ++ rest))
    with [(form_decode (lit "createTime"), form_decode (x ++ rest))].
  replace (form_decode (lit "createTime")) with (lit "createTime")
    by (vm_compute; reflexivity).
  done.
Qed.

Lemma createTime_plain x c :
  Forall plain x -> c = 38 \/ c = 63 -> c ∉ lit "createTime=" ++ x.
Proof.
  intros Hx Hc. apply not_elem_of_app. split.
  - destruct Hc as [-> | ->]; vm_compute; intros H;
      repeat (apply elem_of_cons in H as [H | H]; [discriminate |]);
      by apply elem_of_nil in H.
  - apply plain_not_elem; [done |]. tauto.
Qed.

(** The text between the first two [?] of [pre ++ mid ++ post], for a [mid]
    without [?]: either it does not contain [mid], or [mid] starts one of
    its parameters. *)
Lemma query_part_cases pre post :
  starts_parameter pre ->
  (exists q, forall mid, 63 ∉ mid -> query_part (pre ++ mid ++ post) = q)
  \/ (exists b q1, starts_parameter b /\ (63 ∉ b)
        /\ forall mid, 63 ∉ mid -> query_part (pre ++ mid ++ post) = b ++ mid ++ q1).
Proof.
  intros Hpre. unfold query_part.
  destruct (decide (63 ∈ pre)) as [Hin | Hnot].
  - apply list_elem_of_split_l in Hin as (a & b & -> & Ha).
    destruct (decide (63 ∈ b)) as [Hinb | Hnotb].
    + apply list_elem_of_split_l in Hinb as (b1 & b2 & -> & Hb1).
      left. exists b1. intros mid _.
      rewrite <- app_assoc. cbn [app]. rewrite split_first_app by done. cbn [snd].
      rewrite <- app_assoc. cbn [app]. by rewrite split_first_app.
    + right. exists b, (fst (split_first 63 post)). split; [|split; [done |]].
      * destruct b as [|c0 b0] eqn:Hb; [by left |].
        destruct (exists_last (l := c0 :: b0)) as (b' & c' & Hlast); [done |].
        rewrite Hlast in *. right. exists b', c'. split; [done |].
        destruct Hpre as [Hnil | (p & c & Heq & Hc)].
        -- by destruct a.
        -- replace (a ++ 63 :: b' ++ [c']) with ((a ++ 63 :: b') ++ [c']) in Heq
             by (by rewrite <- app_assoc).
           apply app_inj_tail in Heq as [_ <-].
           destruct Hc as [-> | ->]; [by left |].
           destruct Hnotb. apply elem_of_app. right. apply list_elem_of_here.
      * intros mid Hmid.
        rewrite <- app_assoc. cbn [app]. rewrite split_first_app by done. cbn [snd].
        rewrite app_assoc. rewrite split_first_app_plain; [by rewrite <- app_assoc |].
        apply not_elem_of_app. done.
  - left. exists (fst (split_first 63 (snd (split_first 63 post)))).
    intros mid Hmid. rewrite app_assoc.
    rewrite split_first_app_plain; [done |]. apply not_elem_of_app. done.
Qed.

Lemma String_includes_plain pre x x' post c :
  c ∉ x -> c ∉ x' ->
  String_includes (pre ++ x ++ post) c = String_includes (pre ++ x' ++ post) c.
Proof.
  intros Hx Hx'. rewrite !String_includes_app.
  apply String_includes_false in Hx, Hx'. by rewrite Hx, Hx'.
Qed.

(** Replacing the plain value of a createTime parameter changes at most the
    values extracted for createTime. *)
Lemma extracted_pairs_createTime_value pre x x' post :
  starts_parameter pre -> Forall plain x -> Forall plain x' ->
  same_but_createTime
    (extracted_pairs (pre ++ (lit "createTime=" ++ x) ++ post))
    (extracted_pairs (pre ++ (lit "createTime=" ++ x') ++ post)).
Proof.
  intros Hpre Hx Hx'. unfold extracted_pairs.
  rewrite (String_includes_plain pre _ (lit "createTime=" ++ x') post 63)
    by (apply createTime_plain; auto).
  destruct (String_includes (pre ++ (lit "createTime=" ++ x') ++ post) 63) eqn:Hq.
  - destruct (query_part_cases pre post Hpre) as [(q & Hsame) | (b & q1 & Hb & Hqb & Hmid)].
    + rewrite !Hsame by (apply createTime_plain; auto).
      apply same_but_createTime_refl.
    + rewrite !Hmid by (apply createTime_plain; auto).
      destruct (String_split_nonempty 38 q1) as (hd & tl & Hq1).
      destruct (starts_parameter_split b q1 hd tl Hb Hqb Hq1) as (S1 & HS1).
      rewrite !HS1 by (apply createTime_plain; auto).
      rewrite !flat_map_app. cbn [flat_map].
      rewrite <- !app_assoc, !form_entry_createTime.
      apply same_but_createTime_app; [apply same_but_createTime_refl |].
      apply same_but_createTime_app; [|apply same_but_createTime_refl].
      constructor; [by right | constructor].
  - assert (63 ∉ pre) as Hqpre.
    { apply String_includes_false in Hq. intros Hin. apply Hq.
      apply elem_of_app. by left. }
    destruct (String_split_nonempty 38 post) as (hd & tl & Hpost).
    destruct (starts_parameter_split pre post hd tl Hpre Hqpre Hpost) as (S1 & HS1).
    rewrite !HS1 by (apply createTime_plain; auto).
    rewrite <- !app_assoc. by apply bare_pairs_createTime_segment.
Qed.

Lemma digit_plain c : digit c -> plain c.
Proof. unfold digit, plain. lia. Qed.

Lemma span_value_plain date sep h1 h2 suffix hour :
  span_shape date sep h1 h2 suffix -> Forall digit hour ->
  Forall plain (date ++ [sep] ++ hour ++ suffix).
Proof.
  intros (Hd & Hsep & _ & _ & Hs) Hhour.
  destruct Hd as (y1 & y2 & y3 & y4 & m1 & m2 & d1 & d2 & -> & Hd).
  destruct Hs as (a & b & c & d & -> & Hs).
  assert (plain 45 /\ plain 58 /\ plain 32 /\ plain 84) as (P45 & P58 & P32 & P84)
    by (unfold plain; lia).
  rewrite !Forall_app. split; [|split; [|split]].
  - invert_Forall.
    repeat (constructor; [first [by apply digit_plain | done] |]). constructor.
  - constructor; [by destruct Hsep as [-> | ->] | constructor].
  - eapply Forall_impl; [exact Hhour |]. apply digit_plain.
  - invert_Forall.
    repeat (constructor; [first [by apply digit_plain | done] |]). constructor.
Qed.

Lemma before_malformed_all segs :
  before_malformed segs = segs <-> Forall (fun seg => malformed seg = false) segs.
Proof.
  induction segs as [|seg segs IH]; simpl.
  - split; [constructor | done].
  - destruct (malformed seg) eqn:Hm.
    + split; [done |]. intros H. inversion H; congruence.
    + split.
      * intros [= H]. constructor; [done | by apply IH].
      * intros H. inversion H; subst. f_equal. by apply IH.
Qed.

(** [last_value] is the value of the last pair with the key. *)
Lemma last_value_is_Some ps1 ps2 k v : is_Some (last_value (ps1 ++ (k, v) :: ps2) k).
Proof.
  induction ps1 as [|[a b] ps1 IH]; simpl.
  - destruct (last_value ps2 k); [by eexists |].
    rewrite bool_decide_eq_true_2 by done. by eexists.
  - destruct IH as [x ->]. by eexists.
Qed.

Lemma last_value_None ps k : last_value ps k = None <-> forall v, (k, v) ∉ ps.
Proof.
  split.
  - intros Hnone v Hin. apply list_elem_of_split in Hin as (l1 & l2 & ->).
    destruct (last_value_is_Some l1 l2 k v). congruence.
  - intros Hno. induction ps as [|[k' v'] ps IH]; simpl; [done |].
    rewrite IH.
    + rewrite bool_decide_eq_false_2; [done |]. intros ->.
      apply (Hno v'). apply list_elem_of_here.
    + intros v Hin. apply (Hno v). by apply list_elem_of_further.
Qed.

Lemma last_value_Some ps k v :
  last_value ps k = Some v
  <-> exists ps1 ps2, ps = ps1 ++ (k, v) :: ps2 /\ forall v', (k, v') ∉ ps2.
Proof.
  revert v. induction ps as [|[k' v'] ps IH]; intros v; simpl.
  - split; [done |]. intros (ps1 & ps2 & Heq & _). by destruct ps1.
  - destruct (last_value ps k) as [w|] eqn:Hw.
    + split.
      * intros [= <-]. destruct (proj1 (IH w) eq_refl) as (ps1 & ps2 & -> & Hlast).
        by exists ((k', v') :: ps1), ps2.
      * intros (ps1 & ps2 & Heq & Hlast). destruct ps1 as [|p ps1]; simplify_eq/=.
        -- apply last_value_None in Hlast. congruence.
        -- f_equal. symmetry.
           assert (Some w = Some v) as [= ->]; [|done].
           apply IH. by exists ps1, ps2.
    + pose proof (proj1 (last_value_None ps k) Hw) as Hno.
      case_bool_decide as Hk.
      * subst k'. split.
        -- intros [= <-]. by exists [], ps.
        -- intros (ps1 & ps2 & Heq & Hlast). destruct ps1 as [|p ps1]; simplify_eq/=.
           ++ done.
           ++ destruct (last_value_is_Some ps1 ps2 k v). congruence.
      * split; [done |].
        intros (ps1 & ps2 & Heq & Hlast). destruct ps1 as [|p ps1]; simplify_eq/=.
        destruct (last_value_is_Some ps1 ps2 k v). congruence.
Qed.

(** The pairs of the bare form come from the segments with a [=] that
    decode, and from them only. *)
Lemma bare_pairs_elem segs k v :
  (k, v) ∈ bare_pairs segs
  <-> exists seg, seg ∈ segs /\ String_includes seg 61 = true
                  /\ bare_pair seg = Normal (k, v).
Proof.
  unfold bare_pairs. rewrite list_elem_of_In, in_flat_map. split.
  - intros (seg & Hseg & Hin). exists seg. split; [by apply list_elem_of_In |].
    destruct (String_includes seg 61); [|done]. split; [done |].
    destruct (bare_pair seg) as [p|e]; [|done].
    destruct Hin as [<- | []]. done.
  - intros (seg & Hseg & Hinc & Hpair). exists seg.
    split; [by apply list_elem_of_In |]. rewrite Hinc, Hpair. by left.
Qed.

Section ExtractorProperties.
Variable Date_parse : text -> number.
Variable toLocaleString : Z -> text.

(** The parameters of the record: for each key the value of the last
    extracted pair with that key. *)
Lemma parseQRContent_lookup content fileName k :
  params (parseQRContent Date_parse toLocaleString content fileName) !! k
  = if bool_decide (k = lit "__proto__") then None
    else last_value (extracted_pairs content) k.
Proof.
  destruct (parseQRContent_run Date_parse toLocaleString content fileName)
    as (_ & -> & _).
  rewrite assign_pairs_lookup, lookup_empty.
  case_bool_decide; [done |]. by destruct (last_value (extracted_pairs content) k).
Qed.

Ltac split_tests :=
  repeat match goal with
         | |- context [Z.ltb ?x ?y] => destruct (Z.ltb_spec x y); try lia
         | |- context [Z.leb ?x ?y] => destruct (Z.leb_spec x y); try lia
         | |- context [Z.eqb ?x ?y] => destruct (Z.eqb_spec x y); try lia
         end.

Lemma hex_value_range h x : hex_value h = Some x -> 48 <= h <= 102 /\ 0 <= x <= 15.
Proof.
  unfold hex_value, is_digit. split_tests; cbn; intros [= <-]; lia.
Qed.

Lemma plus_to_space_ascii s : Forall form_ascii s -> plus_to_space s = s.
Proof.
  induction 1 as [|c s [_ Hc] _ IH]; [done |].
  unfold plus_to_space in *. cbn [map]. rewrite IH.
  by destruct (Z.eqb_spec c 43).
Qed.

Lemma utf8_encode_ascii s : Forall form_ascii s -> utf8_encode s = s.
Proof.
  unfold utf8_encode.
  induction 1 as [|c s [Hc _] _ IH]; [done |].
  cbn [code_points]. unfold in_range.
  destruct (Z.leb_spec 55296 c); [lia |].
  destruct (Z.leb_spec 56320 c); [lia |]. cbn [andb flat_map]. rewrite IH.
  unfold utf8_encode_code_point. by destruct (Z.ltb_spec c 128); [|lia].
Qed.

Lemma percent_decode_no_escape s : has_escape s = false -> percent_decode s = s.
Proof.
  induction s as [|b rest IH]; [done |]. cbn [has_escape percent_decode].
  intros H. apply orb_false_iff in H as [Hhere Hrest]. rewrite (IH Hrest).
  destruct (b =? 37); [|done].
  destruct rest as [|h1 [|h2 rest']]; [done | done |].
  by destruct (hex_value h1), (hex_value h2).
Qed.

Lemma utf8_decode_ascii s : Forall form_ascii s -> utf8_decode s = s.
Proof.
  unfold utf8_decode.
  induction 1 as [|c s [Hc _] _ IH]; [done |].
  cbn [utf8_decode_from]. rewrite IH. by destruct (Z.ltb_spec c 128); [|lia].
Qed.

Lemma utf16_encode_ascii s : Forall form_ascii s -> flat_map utf16_encode s = s.
Proof.
  induction 1 as [|c s [Hc _] _ IH]; [done |].
  cbn [flat_map]. rewrite IH. unfold utf16_encode.
  by destruct (Z.ltb_spec c 65536); [|lia].
Qed.

(** In the form with [?], a name or value of ASCII code units without [+]
    that holds no escape is kept as it is, whatever percent signs it
    has. *)
Lemma form_decode_no_escape s :
  Forall form_ascii s -> has_escape s = false -> form_decode s = s.
Proof.
  intros Hs Hno. unfold form_decode.
  by rewrite plus_to_space_ascii, utf8_encode_ascii, percent_decode_no_escape,
    utf8_decode_ascii, utf16_encode_ascii.
Qed.

(** There an escaped byte from 0x80 on that stands alone is no UTF-8 and
    is replaced by U+FFFD. *)
Lemma form_decode_lone_byte h1 h2 x y :
  hex_value h1 = Some x -> hex_value h2 = Some y -> 128 <= 16 * x + y ->
  form_decode [37; h1; h2] = [65533].
Proof.
  intros H1 H2 Hbyte.
  pose proof (hex_value_range _ _ H1) as [Hr1 Hx].
  pose proof (hex_value_range _ _ H2) as [Hr2 Hy].
  unfold form_decode, plus_to_space, utf8_encode. cbn [map code_points].
  unfold in_range. split_tests. cbn [andb flat_map app].
  unfold utf8_encode_code_point. split_tests. cbn [app percent_decode].
  change (37 =? 37) with true. cbn iota. rewrite H1, H2.
  unfold utf8_decode. cbn [utf8_decode_from]. unfold in_range.
  split_tests; cbn [andb utf8_decode_from flat_map app]; unfold utf16_encode; done.
Qed.

(** In the form with [?] every non-empty segment of the query gives a
    pair. *)
Lemma query_segment_extracted content seg :
  String_includes content 63 = true ->
  seg ∈ String_split 38 (query_part content) -> seg <> [] ->
  exists ps1 ps2,
    extracted_pairs content
    = ps1 ++ (form_decode (key_part seg), form_decode (value_rest seg)) :: ps2.
Proof.
  intros Hq Hseg Hne. unfold extracted_pairs. rewrite Hq.
  apply list_elem_of_split, list_elem_of_In, in_flat_map.
  exists seg. split; [by apply list_elem_of_In |].
  destruct seg as [|c seg]; [done |].
  unfold form_entry, key_part, value_rest.
  destruct (split_first 61 (c :: seg)). by left.
Qed.

(** C7, as the code has it: [parseQRContent] completes normally on every
    text.  A text with neither [?] nor [=] gives no parameter and no
    error.  In the bare form the segments without [=] are skipped and the
    pairs of the others are extracted up to the first segment whose key
    or value has malformed percent-encoding: there the extraction stops,
    and the record carries the error instead of a thrown exception.  In
    the [?] form no segment is skipped and no error is recorded: every
    non-empty segment between the first two [?] gives a parameter (its key
    other than __proto__), and the decoding is lenient: a name or value of
    ASCII code units without [+] in which no percent sign is followed by
    two hexadecimal digits is kept as it is, and one that is a single
    escaped byte from 0x80 on becomes U+FFFD. *)
Theorem parseQRContent_never_raises content fileName :
  let r := parseQRContent Date_parse toLocaleString content fileName in
  let segs := String_split 38 content in
  parseQRContent_completion Date_parse toLocaleString content fileName = Normal r
  /\ (String_includes content 63 = false -> String_includes content 61 = false ->
      params r = ∅ /\ error r = None)
  /\ (String_includes content 63 = false ->
      (forall k, params r !! k
                 = if bool_decide (k = lit "__proto__") then None
                   else last_value (bare_pairs (before_malformed segs)) k)
      /\ (Forall (fun seg => malformed seg = false) segs -> error r = None)
      /\ (Exists (fun seg => malformed seg = true) segs ->
          error r = Some (ParamParseFailed URIError)))
  /\ (String_includes content 63 = true ->
      (forall k, params r !! k
                 = if bool_decide (k = lit "__proto__") then None
                   else last_value
                          (flat_map form_entry (String_split 38 (query_part content))) k)
      /\ error r = None
      /\ (forall seg, seg ∈ String_split 38 (query_part content) -> seg <> [] ->
            (form_decode (key_part seg), form_decode (value_rest seg))
              ∈ flat_map form_entry (String_split 38 (query_part content))
            /\ (61 ∉ seg -> key_part seg = seg /\ value_rest seg = [])
            /\ (form_decode (key_part seg) <> lit "__proto__" ->
                is_Some (params r !! form_decode (key_part seg)))))
  /\ (forall s, Forall form_ascii s -> has_escape s = false -> form_decode s = s)
  /\ (forall h1 h2 x y, hex_value h1 = Some x -> hex_value h2 = Some y ->
        128 <= 16 * x + y -> form_decode [37; h1; h2] = [65533]).
Proof.
  intros r segs. subst r segs.
  destruct (parseQRContent_run Date_parse toLocaleString content fileName)
    as (Hrun & Hparams & Herror).
  split; [done |]. split; [|split; [|split; [|split]]].
  - intros Hq He. rewrite Hparams, Herror, Hq. unfold extracted_pairs. rewrite Hq.
    destruct (no_equals_segments (String_split 38 content)) as [-> ->].
    + apply Forall_forall. intros seg Hseg.
      apply String_includes_false. intros Hc.
      apply String_includes_false in He. apply He.
      by eapply String_split_elem.
    + by rewrite bool_decide_eq_true_2.
  - intros Hq. split; [|split].
    + intros k. rewrite parseQRContent_lookup. unfold extracted_pairs. by rewrite Hq.
    + intros Hall. rewrite Herror, Hq.
      rewrite bool_decide_eq_true_2; [done |]. by apply before_malformed_all.
    + intros Hex. rewrite Herror, Hq.
      rewrite bool_decide_eq_false_2; [done |].
      rewrite before_malformed_all. intros Hall.
      apply Exists_exists in Hex as (seg & Hseg & Hm).
      rewrite Forall_forall in Hall. specialize (Hall seg Hseg). congruence.
  - intros Hq. split; [|split].
    + intros k. rewrite parseQRContent_lookup. unfold extracted_pairs. by rewrite Hq.
    + by rewrite Herror, Hq.
    + intros seg Hseg Hne.
      destruct (query_segment_extracted content seg Hq Hseg Hne) as (ps1 & ps2 & Hps).
      split; [|split].
      * unfold extracted_pairs in Hps. rewrite Hq in Hps. rewrite Hps.
        apply elem_of_app. right. apply list_elem_of_here.
      * intros Hno. unfold key_part, value_rest. by rewrite split_first_none.
      * intros Hkey. rewrite parseQRContent_lookup.
        rewrite bool_decide_eq_false_2 by done. rewrite Hps.
        apply last_value_is_Some.
  - apply form_decode_no_escape.
  - apply form_decode_lone_byte.
Qed.

(** C2 at a failing input: in the bare form the value of a parameter is
    cut at its second [=], where the form with [?] keeps all of it; and the
    form with [?] reads the query up to the next [?] only. *)
Theorem parseQRContent_value_cut_at_second_equals fileName :
  params (parseQRContent Date_parse toLocaleString
            (lit "id=5&sig=dGVzdA==") fileName) !! lit "sig"
  = Some (lit "dGVzdA")
  /\ params (parseQRContent Date_parse toLocaleString
               (lit "?id=5&sig=dGVzdA==") fileName) !! lit "sig"
     = Some (lit "dGVzdA==")
  /\ params (parseQRContent Date_parse toLocaleString
               (lit "?id=5&next=/a?b") fileName) !! lit "next"
     = Some (lit "/a").
Proof.
  rewrite !parseQRContent_lookup. repeat split; vm_compute; reflexivity.
Qed.

(** X4: the round trip through the mutator and the extractor, where it holds:
    when the pattern of the mutator does not match, or its first match
    starts a parameter (it stands at the start of the text or right after a
    [&] or a [?]), the parameters extracted from the text that the mutator
    returns have, under every key other than createTime, the value
    extracted from the original text. *)
Theorem other_parameters_survive_hour_bump fileName t :
  (~ pattern_matches t
   \/ exists pre date sep h1 h2 suffix post,
        first_match t pre date sep h1 h2 suffix post /\ starts_parameter pre) ->
  forall k, k <> lit "createTime" ->
    params (parseQRContent Date_parse toLocaleString (modifyCreateTime t) fileName) !! k
    = params (parseQRContent Date_parse toLocaleString t fileName) !! k.
Proof.
  intros [Hno | (pre & date & sep & h1 & h2 & suffix & post & Hfirst & Hpre)] k Hk.
  - by rewrite modifyCreateTime_no_match.
  - rewrite (modifyCreateTime_first_match _ _ _ _ _ _ _ _ Hfirst).
    destruct Hfirst as [[Ht Hshape] _]. rewrite Ht.
    pose proof Hshape as (_ & _ & Hh1 & Hh2 & _).
    rewrite !parseQRContent_lookup. case_bool_decide; [done |].
    unfold span. symmetry. apply last_value_same_but_createTime; [|done].
    rewrite !(app_assoc (lit "createTime=")).
    apply extracted_pairs_createTime_value; [done | |].
    + apply (span_value_plain _ _ h1 h2); [done |].
      repeat (constructor; [assumption |]). constructor.
    + apply (span_value_plain _ _ h1 h2); [done |].
      by apply new_hour_digits.
Qed.
End ExtractorProperties.

Lemma other_parameters_survive_hour_bump_witness :
  params (parseQRContent sample_Date_parse sample_toLocaleString
            (modifyCreateTime (lit "id=7&createTime=2024-01-01 23:00:00&sig=abc"))
            (lit "a.png")) !! lit "sig"
  = params (parseQRContent sample_Date_parse sample_toLocaleString
              (lit "id=7&createTime=2024-01-01 23:00:00&sig=abc")
              (lit "a.png")) !! lit "sig".
Proof.
  apply (other_parameters_survive_hour_bump sample_Date_parse sample_toLocaleString
           (lit "a.png") (lit "id=7&createTime=2024-01-01 23:00:00&sig=abc")).
  - right.
    exists (lit "id=7&"), (lit "2024-01-01"), 32, 50, 51, (lit ":00:00"), (lit "&sig=abc").
    split.
    + apply (regex_exec_first_match _
               {| before := lit "id=7&";
                  matched := lit "createTime=2024-01-01 23:00:00";
                  captures := [lit "2024-01-01"; [32]; [50; 51]; lit ":00:00"];
                  after := lit "&sig=abc" |}); vm_compute; reflexivity.
    + right. exists (lit "id=7"), 38. split; [vm_compute; reflexivity | by left].
  - vm_compute. discriminate.
Defined.

(** C5 at a failing input: the expression of the mutator is not anchored
    at the start of a parameter, so the value of a parameter whose name ends
    in createTime is rewritten though its key is not createTime: the
    extractor reads 10 o'clock from the original text and 11 o'clock from
    the text that the mutator returns. *)
Lemma other_parameter_changed_by_hour_bump :
  lit "xcreateTime" <> lit "createTime"
  /\ params (parseQRContent sample_Date_parse sample_toLocaleString
               (lit "xcreateTime=2024-01-01 10:00:00&a=1") (lit "a.png"))
       !! lit "xcreateTime"
     = Some (lit "2024-01-01 10:00:00")
  /\ params (parseQRContent sample_Date_parse sample_toLocaleString
               (modifyCreateTime (lit "xcreateTime=2024-01-01 10:00:00&a=1"))
               (lit "a.png"))
       !! lit "xcreateTime"
     = Some (lit "2024-01-01 11:00:00").
Proof.
  split; [vm_compute; discriminate |].
  rewrite !parseQRContent_lookup. split; vm_compute; reflexivity.
Qed.

(** In the form with [?] the value of a segment is all of the text after
    its first [=]. *)
Lemma form_entry_parts c seg :
  form_entry (c :: seg)
  = [(form_decode (key_part (c :: seg)), form_decode (value_rest (c :: seg)))].
Proof.
  unfold form_entry, key_part, value_rest.
  by destruct (split_first 61 (c :: seg)).
Qed.

(** In the form with [?] a non-empty segment without [=] gives its name
    with the empty value. *)
Lemma form_entry_without_equals c seg :
  61 ∉ c :: seg -> form_entry (c :: seg) = [(form_decode (c :: seg), [])].
Proof.
  intros Hseg. unfold form_entry. by rewrite split_first_none.
Qed.

(** There a percent sign that starts no escape stays as it is and escaped
    bytes that are no UTF-8 become U+FFFD, where [decodeURIComponent]
    throws. *)
Example malformed_escape_decodings :
  form_decode (lit "%zz") = lit "%zz"
  /\ form_decode (lit "%FF") = [65533]
  /\ form_decode (lit "%E4%B8") = [65533]
  /\ decodeURIComponent (lit "%zz") = Throw URIError
  /\ decodeURIComponent (lit "%E4%B8%AD") = Normal [20013]
  /\ decodeURIComponent (lit "%C0%80") = Throw URIError.
Proof. repeat split. Qed.

(** In the bare form a malformed segment stops the extraction and leaves an
    error on the record; in the form with [?] a segment without [=] is
    extracted. *)
Lemma malformed_segment_not_skipped :
  params (parseQRContent sample_Date_parse sample_toLocaleString
            (lit "a=1&b=%zz&c=3") (lit "a.png")) !! lit "c" = None
  /\ error (parseQRContent sample_Date_parse sample_toLocaleString
              (lit "a=1&b=%zz&c=3") (lit "a.png"))
     = Some (ParamParseFailed URIError)
  /\ params (parseQRContent sample_Date_parse sample_toLocaleString
               (lit "?a&b=1") (lit "a.png")) !! lit "a" = Some [].
Proof.
  rewrite !parseQRContent_lookup.
  destruct (parseQRContent_run sample_Date_parse sample_toLocaleString
              (lit "a=1&b=%zz&c=3") (lit "a.png")) as (_ & _ & ->).
  repeat split; vm_compute; reflexivity.
Qed.

(** * More on the mutator *)

Lemma regex_digit_blind : Forall digit_blind (atoms_of regex).
Proof.
  assert (forall d, ~ digit d -> digit_blind (Lit d)) as HLit.
  { intros d Hd c c' [-> | [Hc Hc']] Hok; [done |].
    apply atom_ok_Lit in Hok. by subst. }
  assert (digit_blind Digit) as HDigit.
  { intros c c' [-> | [Hc Hc']] Hok; [done |]. by apply atom_ok_Digit. }
  assert (digit_blind SpaceOrT) as HSep.
  { intros c c' [-> | [Hc Hc']] Hok; [done |].
    apply atom_ok_SpaceOrT in Hok. unfold digit in *. lia. }
  let l := eval vm_compute in (atoms_of regex) in change (atoms_of regex) with l.
  repeat (constructor;
          [first [exact HDigit | exact HSep | apply HLit; unfold digit; lia] |]).
  constructor.
Qed.

Lemma digit_blind_match atoms m m' :
  Forall digit_blind atoms -> Forall2 same_or_digits m m' ->
  Forall2 atom_ok atoms m' -> Forall2 atom_ok atoms m.
Proof.
  intros Hblind Hm Hok. revert m Hm.
  induction Hok as [|a c' atoms m' Hc' Hok IH]; intros m Hm.
  - inversion Hm. constructor.
  - inversion Hm as [|c ? m0 ? Hc Hm0]; subst.
    inversion Hblind as [|? ? Ha Hblind']; subst.
    constructor; [by apply (Ha c c') | by apply IH].
Qed.

Lemma same_or_digits_refl (t : text) : Forall2 same_or_digits t t.
Proof. induction t; constructor; [by left | done]. Qed.

(** Where the pattern matches in a text, it matches in every text that
    differs from it in digits only. *)
Lemma pattern_at_digits t t' pre' date' sep' h1' h2' suffix' post' :
  Forall2 same_or_digits t t' ->
  pattern_at t' pre' date' sep' h1' h2' suffix' post' ->
  exists pre date sep h1 h2 suffix post,
    pattern_at t pre date sep h1 h2 suffix post /\ length pre = length pre'.
Proof.
  intros Hrel [-> Hshape].
  apply Forall2_app_inv_r in Hrel as (pre & rest & Hpre & Hrest & ->).
  apply Forall2_app_inv_r in Hrest as (m & post & Hm & Hpost & ->).
  assert (Forall2 atom_ok (atoms_of regex) m) as Hok.
  { eapply digit_blind_match; [apply regex_digit_blind | exact Hm |].
    apply regex_atoms_span. by exists date', sep', h1', h2', suffix'. }
  apply regex_atoms_span in Hok as (date & sep & h1 & h2 & suffix & Hshape' & ->).
  exists pre, date, sep, h1, h2, suffix, post. split; [done |].
  by eapply Forall2_length.
Qed.

Lemma span_same_or_digits pre date sep h1 h2 h1' h2' suffix post :
  digit h1 -> digit h2 -> digit h1' -> digit h2' ->
  Forall2 same_or_digits
    (pre ++ span date sep [h1; h2] suffix ++ post)
    (pre ++ span date sep [h1'; h2'] suffix ++ post).
Proof.
  intros H1 H2 H1' H2'. unfold span.
  apply Forall2_app; [apply same_or_digits_refl |].
  apply Forall2_app; [|apply same_or_digits_refl].
  do 3 (apply Forall2_app; [apply same_or_digits_refl |]).
  apply Forall2_app; [|apply same_or_digits_refl].
  constructor; [by right |]. constructor; [by right | constructor].
Qed.

(** The first match stays the first match when its hour is replaced. *)
Lemma first_match_other_hour t pre date sep h1 h2 suffix post h1' h2' :
  first_match t pre date sep h1 h2 suffix post -> digit h1' -> digit h2' ->
  first_match (pre ++ span date sep [h1'; h2'] suffix ++ post)
              pre date sep h1' h2' suffix post.
Proof.
  intros [[Ht (Hd & Hsep & Hh1 & Hh2 & Hs)] Hfirst] H1' H2'. split.
  - split; [done |].
    split; [exact Hd | split; [exact Hsep | split; [done | split; [done | exact Hs]]]].
  - intros pre' date' sep' g1 g2 suffix' post' Hat.
    assert (Forall2 same_or_digits t (pre ++ span date sep [h1'; h2'] suffix ++ post))
      as Hrel by (rewrite Ht; by apply span_same_or_digits).
    destruct (pattern_at_digits _ _ _ _ _ _ _ _ _ Hrel Hat)
      as (p & d & s & a & b & x & q & Hat' & Hlen).
    rewrite <- Hlen. by eapply Hfirst.
Qed.

Lemma two_digits_hour_value h1 h2 :
  digit h1 -> digit h2 -> hour_value h1 h2 < 24 ->
  two_digits (hour_value h1 h2) = [h1; h2].
Proof.
  intros H1 H2. digit_cases h1; digit_cases h2; vm_compute; intros H;
    first [reflexivity | discriminate H].
Qed.

Lemma two_digits_digits n :
  0 <= n < 24 ->
  exists d1 d2, two_digits n = [d1; d2] /\ digit d1 /\ digit d2 /\ hour_value d1 d2 = n.
Proof.
  intros Hn. exists (48 + n / 10), (48 + n mod 10). split; [done |].
  unfold digit, hour_value.
  pose proof (Z.div_mod n 10 ltac:(lia)) as Hdm.
  pose proof (Z.mod_pos_bound n 10 ltac:(lia)).
  lia.
Qed.

Lemma hour_value_bounds h1 h2 : digit h1 -> digit h2 -> 0 <= hour_value h1 h2 <= 99.
Proof. unfold digit, hour_value. lia. Qed.

Lemma iter_modifyCreateTime t pre date sep h1 h2 suffix post (n : nat) :
  first_match t pre date sep h1 h2 suffix post ->
  Nat.iter (S n) modifyCreateTime t
  = pre ++ span date sep (two_digits ((hour_value h1 h2 + Z.of_nat (S n)) mod 24)) suffix
        ++ post.
Proof.
  intros Hfirst. induction n as [|n IH].
  - simpl. by apply modifyCreateTime_first_match.
  - change (Nat.iter (S (S n)) modifyCreateTime t)
      with (modifyCreateTime (Nat.iter (S n) modifyCreateTime t)).
    rewrite IH.
    destruct (two_digits_digits ((hour_value h1 h2 + Z.of_nat (S n)) mod 24))
      as (d1 & d2 & Hd & Hd1 & Hd2 & Hv); [by apply Z.mod_pos_bound |].
    rewrite Hd.
    rewrite (modifyCreateTime_first_match _ pre date sep d1 d2 suffix post)
      by (by eapply first_match_other_hour).
    rewrite Hv. do 4 f_equal.
    rewrite Z.add_mod_idemp_l by done. f_equal. lia.
Qed.

(** X1: applying [modifyCreateTime] again and again rewrites the same span:
    after [n >= 1] applications the hour of the first match is the original
    hour plus [n] modulo 24 and all the rest is the original text.  24
    applications give the original text back when its hour is below 24, and
    no number of applications does when it is 24 or more. *)
Theorem modifyCreateTime_iterated t pre date sep h1 h2 suffix post :
  first_match t pre date sep h1 h2 suffix post ->
  (forall n : nat, (1 <= n)%nat ->
     Nat.iter n modifyCreateTime t
     = pre ++ lit "createTime=" ++ date ++ [sep]
           ++ two_digits ((hour_value h1 h2 + Z.of_nat n) mod 24) ++ suffix ++ post)
  /\ (hour_value h1 h2 < 24 -> Nat.iter 24 modifyCreateTime t = t)
  /\ (24 <= hour_value h1 h2 ->
      forall n : nat, (1 <= n)%nat -> Nat.iter n modifyCreateTime t <> t).
Proof.
  intros Hfirst.
  assert (forall n : nat, (1 <= n)%nat ->
            Nat.iter n modifyCreateTime t
            = pre ++ span date sep
                       (two_digits ((hour_value h1 h2 + Z.of_nat n) mod 24)) suffix
                  ++ post) as Hiter.
  { intros [|n] Hn; [lia |]. by apply iter_modifyCreateTime. }
  pose proof Hfirst as [[Ht (_ & _ & Hh1 & Hh2 & _)] _].
  split; [|split].
  - intros n Hn. rewrite (Hiter n Hn). unfold span. by rewrite <- !app_assoc.
  - intros Hlt. rewrite (Hiter 24%nat) by lia. rewrite Ht.
    pose proof (hour_value_bounds h1 h2 Hh1 Hh2).
    replace ((hour_value h1 h2 + Z.of_nat 24) mod 24) with (hour_value h1 h2).
    + by rewrite two_digits_hour_value.
    + change (Z.of_nat 24) with (1 * 24). rewrite Z.mod_add by done.
      symmetry. apply Z.mod_small. lia.
  - intros Hge n Hn Heq. rewrite (Hiter n Hn) in Heq. rewrite Ht in Heq.
    apply app_inv_head in Heq. unfold span in Heq. rewrite <- !app_assoc in Heq.
    do 3 apply app_inv_head in Heq.
    apply app_inj_1 in Heq as [Heq _]; [|done].
    destruct (two_digits_digits ((hour_value h1 h2 + Z.of_nat n) mod 24))
      as (d1 & d2 & Hd & Hd1 & Hd2 & Hv); [by apply Z.mod_pos_bound |].
    rewrite Hd in Heq. injection Heq as -> ->.
    pose proof (Z.mod_pos_bound (hour_value h1 h2 + Z.of_nat n) 24 ltac:(lia)). lia.
Qed.

Lemma modifyCreateTime_iterated_witness :
  Nat.iter 24 modifyCreateTime (lit "id=7&createTime=2024-01-01T23:00:00")
  = lit "id=7&createTime=2024-01-01T23:00:00".
Proof.
  assert (first_match (lit "id=7&createTime=2024-01-01T23:00:00")
            (lit "id=7&") (lit "2024-01-01") 84 50 51 (lit ":00:00") []) as Hfirst.
  { apply (regex_exec_first_match _
             {| before := lit "id=7&";
                matched := lit "createTime=2024-01-01T23:00:00";
                captures := [lit "2024-01-01"; [84]; [50; 51]; lit ":00:00"];
                after := [] |}); vm_compute; reflexivity. }
  destruct (modifyCreateTime_iterated _ _ _ _ _ _ _ _ Hfirst) as (_ & H24 & _).
  apply H24. vm_compute. reflexivity.
Defined.

(** X2: the text that [modifyCreateTime] returns has the length of the input
    and differs from it only at places where both hold a decimal digit. *)
Theorem modifyCreateTime_changes_digits_only t :
  length (modifyCreateTime t) = length t
  /\ Forall2 same_or_digits t (modifyCreateTime t).
Proof.
  assert (Forall2 same_or_digits t (modifyCreateTime t)) as Hrel.
  { destruct (regex_exec regex t) as [r|] eqn:Hexec.
    - pose proof (regex_exec_pattern_at _ _ Hexec)
        as (date & sep & h1 & h2 & suffix & Hat & _ & Hcaps).
      pose proof (regex_exec_first_match _ _ _ _ _ _ _ Hexec Hcaps) as Hfirst.
      rewrite (modifyCreateTime_first_match _ _ _ _ _ _ _ _ Hfirst).
      destruct Hat as [Ht (_ & _ & Hh1 & Hh2 & _)]. rewrite Ht at 1.
      pose proof (new_hour_digits h1 h2 Hh1 Hh2) as Hnew.
      unfold two_digits in *. inversion Hnew as [|? ? Hd1 Hnew']; subst.
      inversion Hnew' as [|? ? Hd2 _]; subst.
      by apply span_same_or_digits.
    - apply no_match_regex_exec in Hexec.
      rewrite modifyCreateTime_no_match by done. apply same_or_digits_refl. }
  split; [|done]. symmetry. by eapply Forall2_length.
Qed.

Lemma String_replace_char_absent s r from to :
  from ∉ s -> String_replace_char (s ++ r) from to = s ++ String_replace_char r from to.
Proof.
  induction s as [|c s IH]; intros Hs; [done |].
  apply not_elem_of_cons in Hs as [Hc Hs]. simpl.
  destruct (Z.eqb_spec c from); [done |]. by rewrite IH.
Qed.

Lemma digits_no_T (s : text) : Forall digit s -> 84 ∉ s.
Proof.
  intros Hs Hin. rewrite Forall_forall in Hs. specialize (Hs _ Hin).
  unfold digit in Hs. lia.
Qed.

(** X3: when the pattern matches, [modifyCreateTime] hands [displayDeadline]
    the date, a space, the new hour and the suffix: a [T] between date and
    time is shown as a space, and nothing else of the new time is changed. *)
Theorem displayed_deadline_has_space t pre date sep h1 h2 suffix post :
  first_match t pre date sep h1 h2 suffix post ->
  modifyCreateTime_deadline t
  = Some (date ++ [32] ++ two_digits ((hour_value h1 h2 + 1) mod 24) ++ suffix).
Proof.
  intros Hfirst.
  pose proof (first_match_regex_exec _ _ _ _ _ _ _ _ Hfirst) as Hexec.
  destruct Hfirst as [[_ (Hd & Hsep & Hh1 & Hh2 & Hs)] _].
  unfold modifyCreateTime_deadline, String_match. rewrite Hexec.
  cbn [matched captures]. unfold newTime_of. cbn [nth].
  rewrite new_hour by done. f_equal.
  pose proof (new_hour_digits h1 h2 Hh1 Hh2) as Hnew.
  destruct Hd as (y1 & y2 & y3 & y4 & m1 & m2 & d1 & d2 & -> & Hd).
  destruct Hs as (a & b & c & d & -> & Hs).
  rewrite String_replace_char_absent.
  - f_equal. destruct Hsep as [-> | ->]; [|done].
    cbn [app String_replace_char]. change (32 =? 84) with false. cbn iota. f_equal.
    rewrite String_replace_char_absent by (by apply digits_no_T).
    f_equal. invert_Forall. unfold digit in *.
    cbn [String_replace_char].
    repeat match goal with
           | |- context [?x =? 84] =>
               destruct (Z.eqb_spec x 84); [lia |]
           end.
    done.
  - invert_Forall. unfold digit in *.
    repeat (apply not_elem_of_cons; split; [lia |]). apply not_elem_of_nil.
Qed.

Lemma displayed_deadline_has_space_witness :
  modifyCreateTime_deadline (lit "createTime=2024-01-01T05:00:00")
  = Some (lit "2024-01-01 06:00:00").
Proof.
  apply (displayed_deadline_has_space (lit "createTime=2024-01-01T05:00:00")
           [] (lit "2024-01-01") 84 48 53 (lit ":00:00") []).
  apply (regex_exec_first_match _
           {| before := [];
              matched := lit "createTime=2024-01-01T05:00:00";
              captures := [lit "2024-01-01"; [84]; [48; 53]; lit ":00:00"];
              after := [] |}); vm_compute; reflexivity.
Defined.

(** * More on the extractor *)

Lemma decodeURIComponent_no_percent s : 37 ∉ s -> decodeURIComponent s = Normal s.
Proof.
  intros Hs. rewrite <- (app_nil_r s) at 1.
  rewrite decodeURIComponent_plain by done. simpl. by rewrite app_nil_r.
Qed.

Lemma split_first_elem sep s c :
  c ∈ fst (split_first sep s) \/ c ∈ snd (split_first sep s) -> c ∈ s.
Proof.
  induction s as [|x s IH]; simpl.
  - intros [H | H]; by apply elem_of_nil in H.
  - destruct (x =? sep); simpl.
    + intros [H | H]; [by apply elem_of_nil in H | by apply list_elem_of_further].
    + destruct (split_first sep s) as [a b]. simpl in *.
      intros [H | H].
      * apply elem_of_cons in H as [-> | H]; [apply list_elem_of_here |].
        apply list_elem_of_further. apply IH. by left.
      * apply list_elem_of_further. apply IH. by right.
Qed.

Lemma key_part_elem seg c : c ∈ key_part seg -> c ∈ seg.
Proof. intros H. apply (split_first_elem 61). by left. Qed.

Lemma value_rest_elem seg c : c ∈ value_rest seg -> c ∈ seg.
Proof. intros H. apply (split_first_elem 61). by right. Qed.

Lemma value_part_elem seg c : c ∈ value_part seg -> c ∈ seg.
Proof.
  intros H. apply value_rest_elem. apply (split_first_elem 61). by left.
Qed.

Lemma bare_pair_no_percent seg :
  37 ∉ seg -> bare_pair seg = Normal (key_part seg, value_part seg).
Proof.
  intros Hseg. unfold bare_pair.
  rewrite !decodeURIComponent_no_percent; [done | |];
    intros H; apply Hseg; [by apply value_part_elem | by apply key_part_elem].
Qed.

Lemma no_percent_segments (segs : list text) :
  Forall (fun seg => 37 ∉ seg) segs ->
  before_malformed segs = segs /\ bare_pairs segs = raw_pairs segs.
Proof.
  induction 1 as [|seg segs Hseg _ [IH1 IH2]]; [done |].
  cbn [before_malformed]. unfold malformed.
  rewrite bare_pair_no_percent by done. rewrite andb_false_r, IH1.
  split; [done |]. unfold bare_pairs, raw_pairs in *. cbn [flat_map].
  rewrite IH2, bare_pair_no_percent by done. by destruct (String_includes seg 61).
Qed.

Lemma no_percent_split content :
  37 ∉ content -> Forall (fun seg => 37 ∉ seg) (String_split 38 content).
Proof.
  intros Hc. apply Forall_forall. intros seg Hseg Hin. apply Hc.
  by eapply String_split_elem.
Qed.

Section ExtractorFurther.
Variable Date_parse : text -> number.
Variable toLocaleString : Z -> text.

(** X5: the parameters of the record are the extracted pairs with the later
    value winning: a key has the value [v] exactly when the last extracted
    pair with that key has the value [v]; the key [__proto__] is never
    stored, whatever the text holds. *)
Theorem parseQRContent_later_value_wins content fileName k v :
  (params (parseQRContent Date_parse toLocaleString content fileName) !! k = Some v
   <-> k <> lit "__proto__"
       /\ exists ps1 ps2,
            extracted_pairs content = ps1 ++ (k, v) :: ps2
            /\ forall v', (k, v') ∉ ps2)
  /\ params (parseQRContent Date_parse toLocaleString content fileName)
       !! lit "__proto__" = None.
Proof.
  rewrite !parseQRContent_lookup. split.
  - case_bool_decide as Hk.
    + split; [done |]. by intros [? _].
    + rewrite last_value_Some. split; [by intros ? | by intros [_ ?]].
  - by rewrite bool_decide_eq_true_2.
Qed.

(** X6: a text without [?] and without [%] is extracted without error, and
    nothing is decoded: each segment with a [=] gives the text before its
    first [=] as key and the text up to its next [=] as value, the later
    value winning. *)
Theorem parseQRContent_without_percent content fileName :
  37 ∉ content -> 63 ∉ content ->
  error (parseQRContent Date_parse toLocaleString content fileName) = None
  /\ forall k,
       params (parseQRContent Date_parse toLocaleString content fileName) !! k
       = if bool_decide (k = lit "__proto__") then None
         else last_value (raw_pairs (String_split 38 content)) k.
Proof.
  intros Hp Hq. apply String_includes_false in Hq.
  destruct (no_percent_segments _ (no_percent_split _ Hp)) as [Hall Hpairs].
  destruct (parseQRContent_run Date_parse toLocaleString content fileName)
    as (_ & _ & Herr).
  split.
  - rewrite Herr, Hq. by rewrite bool_decide_eq_true_2.
  - intros k. rewrite parseQRContent_lookup. unfold extracted_pairs.
    by rewrite Hq, Hall, Hpairs.
Qed.

(** X7: an error of the extraction has one cause only: a text without [?]
    that holds a [%]. *)
Theorem parseQRContent_error_needs_percent content fileName e :
  error (parseQRContent Date_parse toLocaleString content fileName) = Some e ->
  e = ParamParseFailed URIError /\ (63 ∉ content) /\ (37 ∈ content) /\ 61 ∈ content.
Proof.
  destruct (parseQRContent_run Date_parse toLocaleString content fileName)
    as (_ & _ & ->).
  destruct (String_includes content 63) eqn:Hq; [done |].
  case_bool_decide as Hall; [done |]. intros [= <-].
  apply String_includes_false in Hq. split; [done |]. split; [done |].
  split.
  - destruct (decide (37 ∈ content)) as [|Hno]; [done |].
    destruct Hall. by apply no_percent_segments, no_percent_split.
  - destruct (decide (61 ∈ content)) as [|Hno]; [done |].
    destruct Hall. apply no_equals_segments.
    apply Forall_forall. intros seg Hseg. apply String_includes_false.
    intros Hin. apply Hno. by eapply String_split_elem.
Qed.
End ExtractorFurther.

Lemma parseQRContent_without_percent_witness :
  error (parseQRContent sample_Date_parse sample_toLocaleString
           (lit "a=1&b=x=y&a=2") (lit "a.png")) = None
  /\ forall k,
       params (parseQRContent sample_Date_parse sample_toLocaleString
                 (lit "a=1&b=x=y&a=2") (lit "a.png")) !! k
       = if bool_decide (k = lit "__proto__") then None
         else last_value (raw_pairs (String_split 38 (lit "a=1&b=x=y&a=2"))) k.
Proof.
  apply (parseQRContent_without_percent sample_Date_parse sample_toLocaleString
           (lit "a=1&b=x=y&a=2") (lit "a.png"));
    apply String_includes_false; vm_compute; reflexivity.
Defined.

Lemma parseQRContent_error_needs_percent_witness :
  ParamParseFailed URIError = ParamParseFailed URIError
  /\ (63 ∉ lit "a=1&b=%zz&c=3") /\ (37 ∈ lit "a=1&b=%zz&c=3") /\ 61 ∈ lit "a=1&b=%zz&c=3".
Proof.
  apply (parseQRContent_error_needs_percent sample_Date_parse sample_toLocaleString
           (lit "a=1&b=%zz&c=3") (lit "a.png")).
  destruct (parseQRContent_run sample_Date_parse sample_toLocaleString
              (lit "a=1&b=%zz&c=3") (lit "a.png")) as (_ & _ & ->).
  vm_compute. reflexivity.
Defined.

Section ExtractorRecord.
Variable Date_parse : text -> number.
Variable toLocaleString : Z -> text.

Lemma parse_time_record r :
  parse_time Date_parse toLocaleString r
  = (match params r !! lit "createTime" with
     | Some (c :: s) => with_parsedTime r (time_of Date_parse toLocaleString (c :: s))
     | _ => r
     end, Normal tt).
Proof.
  unfold parse_time, bind, get_result, prop_get.
  destruct (params r !! lit "createTime") as [[|c s]|]; [done | | done].
  unfold lift. by rewrite parseTimeString_run.
Qed.

Lemma parse_time_fields r :
  let r' := fst (parse_time Date_parse toLocaleString r) in
  snd (parse_time Date_parse toLocaleString r) = Normal tt
  /\ fileName r' = fileName r /\ rawContent r' = rawContent r
  /\ params r' = params r /\ error r' = error r
  /\ parsedTime r'
     = match params r !! lit "createTime" with
       | Some (c :: s) => Some (time_of Date_parse toLocaleString (c :: s))
       | _ => parsedTime r
       end.
Proof.
  rewrite parse_time_record. cbn [fst snd].
  by destruct (params r !! lit "createTime") as [[|c s]|].
Qed.

(** X8: the record keeps the file name and the text.  It carries a parsed
    time exactly when the extraction did not fail and the parameter
    createTime has a non-empty value, and then it is the reading of that
    value by [parseTimeString]: a record whose extraction failed has no
    parsed time, also when createTime was extracted before the failure. So
    a record takes part in the time differences exactly when, besides, the
    host reads the normalized value as an instant. *)
Theorem parseQRContent_parsedTime content name :
  let r := parseQRContent Date_parse toLocaleString content name in
  fileName r = name
  /\ rawContent r = Some content
  /\ parsedTime r
     = match error r, params r !! lit "createTime" with
       | None, Some (c :: s) => Some (time_of Date_parse toLocaleString (c :: s))
       | _, _ => None
       end
  /\ (has_valid_time r
      <-> error r = None
          /\ exists raw t, params r !! lit "createTime" = Some raw
                           /\ raw <> []
                           /\ Date_parse (normalized_time raw) = Num t
                           /\ record_instant r = t).
Proof.
  set (r := parseQRContent _ _ _ _).
  assert (fileName r = name /\ rawContent r = Some content
          /\ parsedTime r
             = match error r, params r !! lit "createTime" with
               | None, Some (c :: s) => Some (time_of Date_parse toLocaleString (c :: s))
               | _, _ => None
               end) as (Hn & Hraw & Hpt).
  { subst r. unfold parseQRContent, parseQRContent_exec, bind, try_catch_exec, get_result.
    rewrite parse_params_run.
    set (r1 := with_params _ _).
    destruct (String_includes content 63); [|case_bool_decide].
    - pose proof (parse_time_fields r1) as Hf.
      destruct (parse_time Date_parse toLocaleString r1) as [r2 c2].
      cbn [fst snd] in Hf. destruct Hf as (-> & Hfn & Hrc & Hp & He & Hpt).
      cbn [fst snd]. rewrite Hfn, Hrc, Hp, He, Hpt. subst r1. cbn.
      by destruct (assign_pairs (extracted_pairs content) ∅ !! lit "createTime") as [[|c s]|].
    - pose proof (parse_time_fields r1) as Hf.
      destruct (parse_time Date_parse toLocaleString r1) as [r2 c2].
      cbn [fst snd] in Hf. destruct Hf as (-> & Hfn & Hrc & Hp & He & Hpt).
      cbn [fst snd]. rewrite Hfn, Hrc, Hp, He, Hpt. subst r1. cbn.
      by destruct (assign_pairs (extracted_pairs content) ∅ !! lit "createTime") as [[|c s]|].
    - done. }
  split; [done |]. split; [done |]. split; [done |].
  unfold has_valid_time, record_instant. rewrite Hpt.
  destruct (error r) as [e|].
  { split; [by intros (p & ? & _) | by intros [? _]]. }
  destruct (params r !! lit "createTime") as [[|c s]|].
  - split; [by intros (p & ? & _) | by intros (_ & raw & t & [= <-] & ? & _)].
  - unfold time_of.
    destruct (Date_parse (normalized_time (c :: s))) as [|t] eqn:Hd.
    + split.
      * by intros (p & [= <-] & ?).
      * intros (_ & raw & t & [= <-] & _ & Ht & _). congruence.
    + split; [| by eexists].
      intros _. split; [done |]. by exists (c :: s), t.
  - split; [by intros (p & ? & _) | by intros (_ & raw & t & ? & _)].
Qed.
End ExtractorRecord.

(** ** The two forms agree on simple texts *)

Lemma plus_to_space_plain s : Forall form_plain s -> plus_to_space s = s.
Proof.
  induction 1 as [|c s (_ & _ & Hc) _ IH]; [done |].
  unfold plus_to_space in *. cbn [map]. rewrite IH.
  by destruct (Z.eqb_spec c 43).
Qed.

Lemma code_points_plain s : Forall form_plain s -> code_points s = s.
Proof.
  induction 1 as [|c s (Hc & _) _ IH]; [done |].
  cbn [code_points]. unfold in_range.
  destruct (Z.leb_spec 55296 c); [lia |].
  destruct (Z.leb_spec 56320 c); [lia |]. cbn [andb]. by rewrite IH.
Qed.

Lemma utf8_encode_plain s : Forall form_plain s -> utf8_encode s = s.
Proof.
  intros Hs. unfold utf8_encode. rewrite code_points_plain by done.
  induction Hs as [|c s (Hc & _) _ IH]; [done |].
  cbn [flat_map]. rewrite IH. unfold utf8_encode_code_point.
  by destruct (Z.ltb_spec c 128); [|lia].
Qed.

Lemma percent_decode_plain s : Forall form_plain s -> percent_decode s = s.
Proof.
  induction 1 as [|c s (_ & Hc & _) _ IH]; [done |].
  cbn [percent_decode]. rewrite IH. by destruct (Z.eqb_spec c 37).
Qed.

Lemma utf8_decode_plain s : Forall form_plain s -> utf8_decode s = s.
Proof.
  unfold utf8_decode.
  induction 1 as [|c s (Hc & _) _ IH]; [done |].
  cbn [utf8_decode_from]. rewrite IH. by destruct (Z.ltb_spec c 128); [|lia].
Qed.

Lemma utf16_encode_plain s : Forall form_plain s -> flat_map utf16_encode s = s.
Proof.
  induction 1 as [|c s (Hc & _) _ IH]; [done |].
  cbn [flat_map]. rewrite IH. unfold utf16_encode.
  by destruct (Z.ltb_spec c 65536); [|lia].
Qed.

Lemma form_decode_plain s : Forall form_plain s -> form_decode s = s.
Proof.
  intros Hs. unfold form_decode.
  by rewrite plus_to_space_plain, utf8_encode_plain, percent_decode_plain,
    utf8_decode_plain, utf16_encode_plain.
Qed.

Lemma split_first_Forall (P : Z -> Prop) sep s :
  Forall P s ->
  Forall P (fst (split_first sep s)) /\ Forall P (snd (split_first sep s)).
Proof.
  intros Hs. split; apply Forall_forall; intros c Hc;
    apply (proj1 (Forall_forall P s) Hs), (split_first_elem sep); [by left | by right].
Qed.

Lemma split_first_absent sep s : sep ∉ s -> split_first sep s = (s, []).
Proof.
  induction s as [|c s IH]; [done |]. intros Hs.
  cbn [split_first]. destruct (Z.eqb_spec c sep) as [-> | _].
  - destruct Hs. apply list_elem_of_here.
  - rewrite IH; [done |]. intros H. apply Hs. by apply list_elem_of_further.
Qed.

Lemma simple_segment_pairs seg :
  Forall form_plain seg -> simple_segment seg ->
  form_entry seg
  = if String_includes seg 61 then [(key_part seg, value_part seg)] else [].
Proof.
  intros Hp [-> | [He Hv]]; [done |]. rewrite He.
  destruct seg as [|c seg]; [done |].
  unfold form_entry, key_part, value_part.
  fold (value_rest (c :: seg)).
  destruct (split_first_Forall form_plain 61 (c :: seg) Hp) as [Hk Hr].
  fold (value_rest (c :: seg)) in Hr.
  destruct (split_first 61 (c :: seg)) as [name value] eqn:Hs.
  assert (value_rest (c :: seg) = value) as Hvr by (unfold value_rest; by rewrite Hs).
  rewrite Hvr in *. cbn [fst snd] in *.
  rewrite !form_decode_plain by done.
  by rewrite (split_first_absent 61 value Hv).
Qed.

Lemma simple_segments_pairs segs :
  Forall (Forall form_plain) segs -> Forall simple_segment segs ->
  flat_map form_entry segs = raw_pairs segs.
Proof.
  intros Hp Hs. induction Hp as [|seg segs Hseg _ IH]; [done |].
  apply Forall_cons_1 in Hs as [Hs1 Hs2].
  unfold raw_pairs in *. cbn [flat_map].
  by rewrite IH, simple_segment_pairs.
Qed.

Lemma String_split_Forall (P : Z -> Prop) sep s :
  Forall P s -> Forall (Forall P) (String_split sep s).
Proof.
  intros Hs. apply Forall_forall. intros seg Hseg.
  apply Forall_forall. intros c Hc.
  apply (proj1 (Forall_forall P s) Hs). by eapply String_split_elem.
Qed.

Lemma query_part_of prefix query :
  63 ∉ prefix -> 63 ∉ query -> query_part (prefix ++ 63 :: query) = query.
Proof.
  intros Hp Hq. unfold query_part.
  assert (split_first 63 (prefix ++ 63 :: query) = (prefix, query)) as ->.
  { induction prefix as [|c p IH]; [done |].
    cbn [app split_first]. destruct (Z.eqb_spec c 63) as [-> | _].
    - destruct Hp. apply list_elem_of_here.
    - rewrite IH; [done |]. intros H. apply Hp. by apply list_elem_of_further. }
  cbn [snd]. by rewrite split_first_absent.
Qed.

Section Agreement.
Variable Date_parse : text -> number.
Variable toLocaleString : Z -> text.

(** X9: the two forms agree on simple queries.  For a query of ASCII code
    units without [%], [+] and [?], each of whose segments is empty or has
    exactly one [=], the text [prefix?query] (a prefix without [?]) and the
    bare text [query] give the same parameters, and neither gives an
    error. *)
Theorem parseQRContent_forms_agree prefix query name name' :
  Forall form_plain query -> (63 ∉ query) -> (63 ∉ prefix) ->
  Forall simple_segment (String_split 38 query) ->
  params (parseQRContent Date_parse toLocaleString (prefix ++ [63] ++ query) name)
  = params (parseQRContent Date_parse toLocaleString query name')
  /\ error (parseQRContent Date_parse toLocaleString (prefix ++ [63] ++ query) name) = None
  /\ error (parseQRContent Date_parse toLocaleString query name') = None.
Proof.
  intros Hplain Hq Hpre Hsimple.
  assert (37 ∉ query) as Hpc.
  { intros H. by apply (proj1 (Forall_forall _ _) Hplain) in H as (_ & ? & _). }
  destruct (no_percent_segments _ (no_percent_split _ Hpc)) as [Hall Hpairs].
  destruct (parseQRContent_run Date_parse toLocaleString (prefix ++ [63] ++ query) name)
    as (_ & -> & ->).
  destruct (parseQRContent_run Date_parse toLocaleString query name')
    as (_ & -> & ->).
  assert (String_includes (prefix ++ [63] ++ query) 63 = true) as Hinc.
  { apply String_includes_elem. apply elem_of_app. right. apply list_elem_of_here. }
  pose proof (proj2 (String_includes_false query 63) Hq) as Hno.
  unfold extracted_pairs. rewrite Hinc, Hno, Hall, Hpairs.
  cbn [app]. rewrite query_part_of by done.
  rewrite simple_segments_pairs by (done || by apply String_split_Forall).
  by rewrite bool_decide_eq_true_2.
Qed.
End Agreement.

Lemma parseQRContent_forms_agree_witness :
  params (parseQRContent sample_Date_parse sample_toLocaleString
            (lit "https://x.test/p" ++ [63] ++ lit "id=5&&createTime=2024-01-01 10:00:00")
            (lit "a.png"))
  = params (parseQRContent sample_Date_parse sample_toLocaleString
              (lit "id=5&&createTime=2024-01-01 10:00:00") (lit "b.png"))
  /\ error (parseQRContent sample_Date_parse sample_toLocaleString
            (lit "https://x.test/p" ++ [63] ++ lit "id=5&&createTime=2024-01-01 10:00:00")
            (lit "a.png")) = None
  /\ error (parseQRContent sample_Date_parse sample_toLocaleString
              (lit "id=5&&createTime=2024-01-01 10:00:00") (lit "b.png")) = None.
Proof.
  apply (parseQRContent_forms_agree sample_Date_parse sample_toLocaleString
           (lit "https://x.test/p") (lit "id=5&&createTime=2024-01-01 10:00:00")
           (lit "a.png") (lit "b.png")).
  - let l := eval vm_compute in (lit "id=5&&createTime=2024-01-01 10:00:00")
    in change (lit "id=5&&createTime=2024-01-01 10:00:00") with l.
    repeat (constructor; [unfold form_plain; lia |]). constructor.
  - apply String_includes_false. vm_compute. reflexivity.
  - apply String_includes_false. vm_compute. reflexivity.
  - let l := eval vm_compute in (String_split 38 (lit "id=5&&createTime=2024-01-01 10:00:00"))
    in change (String_split 38 (lit "id=5&&createTime=2024-01-01 10:00:00")) with l.
    constructor; [right; split; [reflexivity | apply String_includes_false; reflexivity] |].
    constructor; [by left |].
    constructor; [right; split; [reflexivity | apply String_includes_false; reflexivity] |].
    constructor.
Defined.

(** * More on times and durations *)

Lemma trimStart_whitespace s : forallb is_whitespace s = true -> trimStart s = [].
Proof.
  induction s as [|c s IH]; [done |]. cbn [forallb trimStart].
  destruct (is_whitespace c); [exact IH | done].
Qed.

Lemma trimStart_app_space s :
  trimStart (s ++ [32])
  = if forallb is_whitespace s then [] else trimStart s ++ [32].
Proof.
  induction s as [|c s IH]; [done |]. cbn [app forallb trimStart].
  destruct (is_whitespace c); [exact IH | done].
Qed.

Lemma trim_app_space s : trim (s ++ [32]) = trim s.
Proof.
  unfold trim, trimEnd. rewrite trimStart_app_space.
  destruct (forallb is_whitespace s) eqn:Hs.
  - by rewrite (trimStart_whitespace s Hs).
  - by rewrite rev_app_distr.
Qed.

Lemma normalized_time_Z raw : normalized_time (raw ++ lit "Z") = normalized_time raw.
Proof.
  unfold normalized_time. rewrite map_app.
  change (map _ (lit "Z")) with [32]. apply trim_app_space.
Qed.

Lemma normalized_time_T date time :
  normalized_time (date ++ lit "T" ++ time) = normalized_time (date ++ lit " " ++ time).
Proof. unfold normalized_time. by rewrite !map_app. Qed.

Lemma same_normalized_time
    (Date_parse : text -> number) (toLocaleString : Z -> text) raw raw' :
  normalized_time raw = normalized_time raw' ->
  exists p p',
    parseTimeString Date_parse toLocaleString raw = Normal p
    /\ parseTimeString Date_parse toLocaleString raw' = Normal p'
    /\ same_reading p p'.
Proof.
  intros Hn. rewrite !parseTimeString_run, Hn.
  eexists _, _. split; [done |]. split; [done |].
  by destruct (Date_parse (normalized_time raw')).
Qed.

(** X10: [parseTimeString] ignores a zone marker: a raw time and the same raw
    time followed by [Z] are read as the same instant with the same
    formatted text, and so are a date and a time joined by [T] and joined
    by a space. *)
Theorem parseTimeString_ignores_T_and_Z
    (Date_parse : text -> number) (toLocaleString : Z -> text) :
  (forall raw,
     exists p p',
       parseTimeString Date_parse toLocaleString raw = Normal p
       /\ parseTimeString Date_parse toLocaleString (raw ++ lit "Z") = Normal p'
       /\ same_reading p p')
  /\ (forall date time,
        exists p p',
          parseTimeString Date_parse toLocaleString (date ++ lit " " ++ time) = Normal p
          /\ parseTimeString Date_parse toLocaleString (date ++ lit "T" ++ time) = Normal p'
          /\ same_reading p p').
Proof.
  split.
  - intros raw. apply same_normalized_time. by rewrite normalized_time_Z.
  - intros date time. apply same_normalized_time. by rewrite normalized_time_T.
Qed.

Lemma shown_duration_from_half_an_hour diff :
  0 <= diff ->
  shown_duration diff
  = if bool_decide (1800000 <= diff)
    then Hours (Math_round_div diff 3600000)
    else Minutes (Math_round_div diff 60000).
Proof.
  intros Hd. unfold shown_duration.
  pose proof (Math_round_div_rounds diff 3600000 ltac:(lia)) as Hr.
  unfold rounds_to in Hr.
  repeat case_bool_decide; (done || lia).
Qed.

Lemma delta_of_displayed current next :
  0 <= timestamp_of (time next) - timestamp_of (time current) <= 2 ^ 53 ->
  displayed (delta_of current next)
  = if bool_decide (1800000 <= timestamp_of (time next) - timestamp_of (time current))
    then Hours (Math_round_div (timestamp_of (time next) - timestamp_of (time current))
                  3600000)
    else Minutes (Math_round_div (timestamp_of (time next) - timestamp_of (time current))
                    60000).
Proof.
  intros Hd. unfold delta_of. cbn [displayed].
  rewrite Number_sub_exact by lia.
  rewrite shown_duration_exact by done.
  apply shown_duration_from_half_an_hour. lia.
Qed.

Lemma delta_of_in_range current next :
  0 <= timestamp_of (time next) - timestamp_of (time current) ->
  duration_in_range (displayed (delta_of current next)).
Proof.
  intros Hd.
  destruct (Z.le_gt_cases (timestamp_of (time next) - timestamp_of (time current))
              (2 ^ 53)) as [Hle | Hgt].
  - rewrite delta_of_displayed by done.
    set (diff := timestamp_of (time next) - timestamp_of (time current)) in *.
    case_bool_decide; cbn [duration_in_range].
    + pose proof (Math_round_div_rounds diff 3600000 ltac:(lia)) as Hr.
      unfold rounds_to in Hr. lia.
    + pose proof (Math_round_div_rounds diff 60000 ltac:(lia)) as Hr.
      unfold rounds_to in Hr. lia.
  - unfold delta_of. cbn [displayed].
    pose proof (Math_round_hours_large _ (Number_sub_large _ _ Hgt)) as Hh.
    destruct (Z.ltb_spec 0
                (Math_round
                   (Number_div
                      (Number_sub (timestamp_of (time next)) (timestamp_of (time current)))
                      3600000))); [done | lia].
Qed.

Lemma deltas_of_in_range l :
  StronglySorted
    (fun a b : TimeEntry =>
       Number_sub (timestamp_of (time a)) (timestamp_of (time b)) <= 0) l ->
  Forall (fun d => duration_in_range (displayed d)) (deltas_of l).
Proof.
  induction 1 as [|x l Hl IH Hx]; [constructor |].
  destruct l as [|y l]; [constructor |].
  change (deltas_of (x :: y :: l)) with (delta_of x y :: deltas_of (y :: l)).
  constructor; [| exact IH].
  apply delta_of_in_range. apply Forall_cons_1 in Hx as [Hxy _].
  apply Number_sub_sign in Hxy. lia.
Qed.

(** X11: a time difference is shown in hours from half an hour on: for two
    neighbours whose instants are [diff] milliseconds apart, with [diff] at
    most [2 ^ 53], the item reads the rounded hours when [diff >= 1800000]
    (so exactly thirty minutes read as one hour) and the rounded minutes
    below; every item of the list of any batch shows at least one hour or
    at most thirty minutes. *)
Theorem time_difference_in_hours_from_half_an_hour :
  (forall current next,
     0 <= timestamp_of (time next) - timestamp_of (time current) <= 2 ^ 53 ->
     displayed (delta_of current next)
     = if bool_decide (1800000 <= timestamp_of (time next) - timestamp_of (time current))
       then Hours (Math_round_div
                     (timestamp_of (time next) - timestamp_of (time current)) 3600000)
       else Minutes (Math_round_div
                       (timestamp_of (time next) - timestamp_of (time current)) 60000))
  /\ forall qrData,
       Forall (fun d => duration_in_range (displayed d))
              (time_deltas_of (createComparisonResults qrData)).
Proof.
  split; [exact delta_of_displayed |].
  intros qrData. unfold createComparisonResults.
  destruct (length qrData <? 2)%nat; [constructor |].
  unfold analyzeTimeDifferences.
  destruct (length (timesData_of qrData) <? 2)%nat; [constructor |].
  cbn [time_deltas_of]. apply deltas_of_in_range.
  apply Array_sort_sorted.
  - intros x y. rewrite !Number_sub_sign. lia.
  - intros x y z. rewrite !Number_sub_sign. lia.
Qed.

(** * Files without a text in the comparison table *)

Section UnreadableFiles.
Variable Date_parse : text -> number.
Variable toLocaleString : Z -> text.

Lemma analyzeFiles_length files :
  length (analyzeFiles Date_parse toLocaleString files) = length files.
Proof. unfold analyzeFiles. by rewrite length_map. Qed.

Lemma analyzeFiles_unreadable files i name d :
  files !! i = Some (name, d) -> unreadable d ->
  exists data,
    analyzeFiles Date_parse toLocaleString files !! i = Some data
    /\ fileName data = name /\ params data = ∅ /\ is_Some (error data)
    /\ rawContent data = None /\ parsedTime data = None.
Proof.
  intros Hi Hd. unfold analyzeFiles. rewrite list_lookup_fmap, Hi. cbn.
  destruct d as [[|c s]| |m]; [| done | |]; by eexists.
Qed.

(** X12: in the table of a batch of files every row has one cell per file, in
    the order of the selection; the cell of a file that gave no text (no
    code found, or reading failed) is empty in every row whose parameter is
    no property name of Object.prototype; so with such a file in the batch
    a row of that kind is left without highlight only when all its cells
    are empty. *)
Theorem unreadable_file_has_empty_cells files :
  Forall (fun row =>
            length (values row) = length files
            /\ (param row ∉ Object_prototype_names ->
                forall i name d,
                  files !! i = Some (name, d) -> unreadable d ->
                  values row !! i = Some (Str [])
                  /\ (isUniform row = true ->
                      forall v, v ∈ values row -> v = Str [])))
         (rows_of (createComparisonResults
                     (analyzeFiles Date_parse toLocaleString files))).
Proof.
  set (qrData := analyzeFiles Date_parse toLocaleString files).
  destruct (Nat.ltb_spec (length qrData) 2) as [Hlt | Hge].
  { unfold createComparisonResults.
    destruct (Nat.ltb_spec (length qrData) 2); [constructor | lia]. }
  rewrite rows_of_report by done.
  apply Forall_forall. intros row Hrow.
  apply list_elem_of_fmap in Hrow as (p & -> & _).
  cbn [row_of values param isUniform]. split.
  { rewrite length_map. apply analyzeFiles_length. }
  intros Hp i name d Hi Hd.
  destruct (analyzeFiles_unreadable files i name d Hi Hd)
    as (data & Hdata & _ & Hparams & _).
  assert (map (fun data => or_else (prop_get (params data) p) (Str [])) qrData !! i
          = Some (Str [])) as Hcell.
  { rewrite list_lookup_fmap. fold qrData in Hdata. rewrite Hdata. cbn.
    rewrite slot_of_prop_get by done. unfold slot. by rewrite Hparams. }
  split; [done |].
  intros Hu v Hv.
  set (vals := map _ qrData) in *.
  rewrite forallb_forall in Hu.
  assert (forall w, w ∈ vals -> w = nth 0 vals Undefined) as Heq.
  { intros w Hw. apply list_elem_of_In, Hu in Hw.
    unfold strict_eqb in Hw. by apply bool_decide_eq_true in Hw. }
  rewrite (Heq v Hv). symmetry. apply Heq. by eapply list_elem_of_lookup_2.
Qed.
End UnreadableFiles.

(** * The pages after a run *)

Lemma deadline_iff_matches t :
  is_Some (modifyCreateTime_deadline t) <-> pattern_matches t.
Proof.
  unfold modifyCreateTime_deadline, String_match.
  destruct (regex_exec regex t) as [r|] eqn:H.
  - split; [| by eexists]. intros _.
    apply regex_exec_pattern_at in H as (date & sep & h1 & h2 & suffix & H & _).
    by exists (before r), date, sep, h1, h2, suffix, (after r).
  - apply no_match_regex_exec in H. split; [by intros [? ?] | done].
Qed.

Lemma unchanged_no_deadline t :
  str_eqb (modifyCreateTime t) t = true -> modifyCreateTime_deadline t = None.
Proof.
  intros Heq. destruct (modifyCreateTime_deadline t) as [d|] eqn:Hd; [|done].
  assert (pattern_matches t) as Hm by (apply deadline_iff_matches; by eexists).
  apply modifyCreateTime_changed_iff in Hm. congruence.
Qed.

Lemma changed_has_deadline t :
  str_eqb (modifyCreateTime t) t = false ->
  pattern_matches t /\ exists d, modifyCreateTime_deadline t = Some d.
Proof.
  intros Hne. apply modifyCreateTime_changed_iff in Hne. split; [done |].
  by apply deadline_iff_matches in Hne as [d ?]; exists d.
Qed.

Lemma qr_images_kept l : qr_images (kept l) = [].
Proof.
  induction l as [|e l IH]; [done |].
  unfold kept in *. cbn [List.filter]. by destruct e.
Qed.

Lemma deadlines_kept l : deadlines (kept l) = [].
Proof.
  induction l as [|e l IH]; [done |].
  unfold kept in *. cbn [List.filter]. by destruct e.
Qed.

Section Pages.
Variable toDataURL : text -> option text.

(** X13: base_script.js, the panel after a run on a chosen file, whatever it
    held before: the placeholder first and exactly one message last; at
    most one deadline and one code image between them.  A code image is
    there only when the decoded text matched the pattern, and it is the
    image of the modified text; the message is the one of success exactly
    when a code image is there; the deadline is shown whenever the decoded
    text matched the pattern, also when the generation of the image failed.
    Without a chosen file the panel is kept and the error is added. *)
Theorem base_panel_after_run (r : reading) (rightPanel : list element) :
  let panel' := BaseScript.extendQRCodeDeadline toDataURL (Some r) rightPanel in
  (exists ty n,
     panel' = [Placeholder] ++ map DeadlineElem (deadlines panel')
              ++ map QRImage (qr_images panel') ++ [MessageElem ty n]
     /\ (ty = type_success <-> qr_images panel' <> [])
     /\ (n = Reported Success <-> qr_images panel' <> []))
  /\ (length (qr_images panel') <= 1)%nat
  /\ (length (deadlines panel') <= 1)%nat
  /\ (forall url, url ∈ qr_images panel' ->
        exists t, r = Resolved (Some t) /\ pattern_matches t
                  /\ toDataURL (modifyCreateTime t) = Some url)
  /\ (forall d, d ∈ deadlines panel' <->
        exists t, r = Resolved (Some t) /\ modifyCreateTime_deadline t = Some d)
  /\ BaseScript.extendQRCodeDeadline toDataURL None rightPanel
     = rightPanel ++ [MessageElem type_error SelectFileFirst].
Proof.
  cbn zeta.
  assert (forall x : text, x ∈ @nil text <-> False) as Hnil
    by (intros x; split; [apply elem_of_nil | done]).
  destruct r as [e | [[|c t]|]].
  1,2,4: cbn; split; [eexists _, _; split; [reflexivity | split; split; done] |];
    split; [lia |]; split; [lia |]; split;
    [by intros url Hu; apply elem_of_nil in Hu |];
    split; [| done]; intros d; rewrite Hnil; split; [done |];
    by intros (t' & [= <-] & ?) || by intros (t' & ? & ?).
  unfold BaseScript.extendQRCodeDeadline, BaseScript.modifyCreateTime_on,
    BaseScript.clearResults.
  destruct (str_eqb (modifyCreateTime (c :: t)) (c :: t)) eqn:Hch.
  - rewrite (unchanged_no_deadline _ Hch). cbn.
    split; [eexists _, _; split; [reflexivity | split; split; done] |].
    split; [lia |]. split; [lia |]. split.
    { by intros url Hu; apply elem_of_nil in Hu. }
    split; [| done]. intros d. rewrite Hnil. split; [done |].
    intros (t' & [= <-] & Hd). by rewrite (unchanged_no_deadline _ Hch) in Hd.
  - destruct (changed_has_deadline _ Hch) as [Hm [d0 Hd0]]. rewrite Hd0.
    unfold BaseScript.generateQRCode.
    destruct (toDataURL (modifyCreateTime (c :: t))) as [url0|] eqn:Hgen; cbn.
    + split; [eexists _, _; split; [reflexivity | split; split; done] |].
      split; [lia |]. split; [lia |]. split.
      { intros url Hu. apply list_elem_of_singleton in Hu as ->. by exists (c :: t). }
      split; [| done]. intros d. rewrite list_elem_of_singleton. split.
      * intros ->. by exists (c :: t).
      * intros (t' & [= <-] & Hd). congruence.
    + split; [eexists _, _; split; [reflexivity | split; split; done] |].
      split; [lia |]. split; [lia |]. split.
      { by intros url Hu; apply elem_of_nil in Hu. }
      split; [| done]. intros d. rewrite list_elem_of_singleton. split.
      * intros ->. by exists (c :: t).
      * intros (t' & [= <-] & Hd). congruence.
Qed.

(** X14: the second script, the page after a run on a chosen file: exactly
    one message; among the elements of the status area at most one deadline
    and one code image, the others as they were.  A code image is shown for
    every decoded text that the generator accepts, changed or not, and it
    is the image of what [modifyCreateTime] returns; the placeholder is
    hidden exactly when a code image is shown; the message reports an
    extended validity exactly when a code image and a deadline are shown.
    When no file is chosen the page is left as it is. *)
Theorem second_page_after_run (r : reading) (p : SecondScript.Page) :
  let p' := SecondScript.extendQRCodeDeadline toDataURL (Some r) p in
  let area := SecondScript.statusArea p' in
  (exists ty n,
     SecondScript.messageContainer p' = [MessageElem ty n]
     /\ (ty = type_success <-> qr_images area <> [])
     /\ (n = Reported Extended <-> qr_images area <> [] /\ deadlines area <> [])
     /\ (n = Reported RegeneratedUnmodified
         <-> qr_images area <> [] /\ deadlines area = []))
  /\ area = kept (SecondScript.statusArea p) ++ map DeadlineElem (deadlines area)
            ++ map QRImage (qr_images area)
  /\ (length (qr_images area) <= 1)%nat
  /\ (length (deadlines area) <= 1)%nat
  /\ (forall url, url ∈ qr_images area <->
        exists t, r = Resolved (Some t) /\ t <> []
                  /\ toDataURL (modifyCreateTime t) = Some url)
  /\ (forall d, d ∈ deadlines area <->
        exists t, r = Resolved (Some t) /\ modifyCreateTime_deadline t = Some d)
  /\ SecondScript.qrPlaceholder_display p'
     = (if bool_decide (qr_images area = []) then DisplayBlock else DisplayNone)
  /\ SecondScript.extendQRCodeDeadline toDataURL None p = p.
Proof.
  cbn zeta.
  assert (forall x : text, x ∈ @nil text <-> False) as Hnil
    by (intros x; split; [apply elem_of_nil | done]).
  fold (kept (SecondScript.statusArea p)).
  destruct r as [e | [[|c t]|]].
  1,2,4: cbn; fold (kept (SecondScript.statusArea p));
    rewrite qr_images_kept, deadlines_kept, app_nil_r;
    split; [eexists _, _; split; [reflexivity |];
            split; [split; done |]; split; split; (done || by intros [? _]) |];
    split; [done |]; split; [cbn; lia |]; split; [cbn; lia |];
    split; [intros url; rewrite Hnil; split; [done |];
            by intros (t' & [= <-] & ? & ?) || by intros (t' & ? & ?) |];
    split; [intros d; rewrite Hnil; split; [done |];
            by intros (t' & [= <-] & ?) || by intros (t' & ? & ?) |];
    done.
  unfold SecondScript.extendQRCodeDeadline, SecondScript.modifyCreateTime_on,
    SecondScript.generateQRCode, SecondScript.clearResults.
  fold (kept (SecondScript.statusArea p)).
  set (old := kept (SecondScript.statusArea p)).
  assert (qr_images old = []) as Hq by apply qr_images_kept.
  assert (deadlines old = []) as Hd by apply deadlines_kept.
  assert (forall l, qr_images (old ++ l) = qr_images l) as Hq'.
  { intros l. unfold qr_images in *. by rewrite omap_app, Hq. }
  assert (forall l, deadlines (old ++ l) = deadlines l) as Hd'.
  { intros l. unfold deadlines in *. by rewrite omap_app, Hd. }
  destruct (str_eqb (modifyCreateTime (c :: t)) (c :: t)) eqn:Hch.
  - rewrite (unchanged_no_deadline _ Hch).
    destruct (toDataURL (modifyCreateTime (c :: t))) as [url0|] eqn:Hgen; cbn -[qr_images deadlines].
    + rewrite Hq', Hd'. cbn.
      split; [eexists _, _; split; [reflexivity |];
              split; [split; done |]; split; split; (done || by intros [_ ?]) |].
      split; [done |]. split; [lia |]. split; [lia |]. split.
      { intros url. rewrite list_elem_of_singleton. split.
        - intros ->. by exists (c :: t).
        - intros (t' & [= <-] & _ & Hu). congruence. }
      split; [| done]. intros d. rewrite Hnil. split; [done |].
      intros (t' & [= <-] & Hdd). by rewrite (unchanged_no_deadline _ Hch) in Hdd.
    + rewrite Hq, Hd, app_nil_r. cbn.
      split; [eexists _, _; split; [reflexivity |];
              split; [split; done |]; split; split; (done || by intros [? _]) |].
      split; [done |]. split; [lia |]. split; [lia |]. split.
      { intros url. rewrite Hnil. split; [done |].
        intros (t' & [= <-] & _ & Hu). congruence. }
      split; [| done]. intros d. rewrite Hnil. split; [done |].
      intros (t' & [= <-] & Hdd). by rewrite (unchanged_no_deadline _ Hch) in Hdd.
  - destruct (changed_has_deadline _ Hch) as [Hm [d0 Hd0]]. rewrite Hd0.
    destruct (toDataURL (modifyCreateTime (c :: t))) as [url0|] eqn:Hgen; cbn -[qr_images deadlines].
    + rewrite <- !app_assoc, Hq', Hd'. cbn.
      split; [eexists _, _; split; [reflexivity |];
              split; [split; done |]; split; split; (done || by intros [_ ?]) |].
      split; [done |]. split; [lia |]. split; [lia |]. split.
      { intros url. rewrite list_elem_of_singleton. split.
        - intros ->. by exists (c :: t).
        - intros (t' & [= <-] & _ & Hu). congruence. }
      split; [| done]. intros d. rewrite list_elem_of_singleton. split.
      * intros ->. by exists (c :: t).
      * intros (t' & [= <-] & Hdd). congruence.
    + rewrite Hq', Hd'. cbn.
      split; [eexists _, _; split; [reflexivity |];
              split; [split; done |]; split; split; (done || by intros [? _]) |].
      split; [done |]. split; [lia |]. split; [lia |]. split.
      { intros url. rewrite Hnil. split; [done |].
        intros (t' & [= <-] & _ & Hu). congruence. }
      split; [| done]. intros d. rewrite list_elem_of_singleton. split.
      * intros ->. by exists (c :: t).
      * intros (t' & [= <-] & Hdd). congruence.
Qed.
End Pages.
